(** * DataTable: a shallow embedding of the table component's logic

    The component under study is the React function component [DataTable]
    (state held with [useState], derived values with [useMemo]).  Its logic
    is: CSV / spreadsheet ingestion with per-cell type detection
    ([handleFileUpload], [updateTableData]), the query pipeline
    ([filteredData], [sortedData], [paginatedData], [totalPages]), the CSV
    export ([downloadAsExcel]) and the event handlers ([handleSort],
    [toggleColumnVisibility], [clearGlobalFilter], the search box and the
    pagination buttons).

    Layout of the development:
    - [JS]: the ECMAScript built-ins the component calls (string methods,
      [Number]/[parseFloat]/[isNaN], [Number::toString], the relational and
      strict-equality operators, [Array.prototype.slice]/[sort]);
    - the data model and the component's functions, named as in the source;
    - a small store of arrays and objects, to state what the pipeline
      mutates;
    - the inputs and predicates the statements use;
    - the theorems, one group per function, and further properties of the
      filter, the loader, the export, the sort, the handlers and the
      pagination.

    Conventions.  A JavaScript string is a Rocq [string]; each character is
    read as one UTF-16 code unit in the range 0..255.  A JavaScript number is
    an IEEE-754 binary64 value, represented by [spec_float] with precision 53
    and maximal exponent 1024; decimal literals are rounded to nearest, ties
    to even. *)

From Stdlib Require Import ZArith String Ascii List DecimalString.
From Stdlib Require Import Floats.SpecFloat.
From stdpp Require Import gmap strings list fin_maps sorting.

Open Scope string_scope.
Open Scope Z_scope.

(* ===================================================================== *)
(** * ECMAScript built-ins *)
(* ===================================================================== *)

Module JS.

(** ** Characters *)

Definition code (c : ascii) : N := N_of_ascii c.

(** [WhiteSpace] and [LineTerminator] code points below 256: TAB, LF, VT,
    FF, CR, SP and NBSP.  This is the set used by [trim], by [\s] and by
    [StrWhiteSpaceChar]. *)
Definition is_ws (c : ascii) : bool :=
  let n := code c in
  ((9 <=? n) && (n <=? 13) || (n =? 32) || (n =? 160))%N.

(** [\d] *)
Definition is_digit (c : ascii) : bool :=
  let n := code c in ((48 <=? n) && (n <=? 57))%N.

Definition digit_val (c : ascii) : N := (code c - 48)%N.

Definition lower_char (c : ascii) : ascii :=
  let n := code c in
  if ((65 <=? n) && (n <=? 90) ||
      (192 <=? n) && (n <=? 222) && negb (n =? 215))%N
  then ascii_of_N (n + 32) else c.

(** Hexadecimal, octal and binary digit values for [NonDecimalIntegerLiteral]. *)
Definition hex_val (c : ascii) : option N :=
  let n := code c in
  if ((48 <=? n) && (n <=? 57))%N then Some (n - 48)%N
  else if ((97 <=? n) && (n <=? 102))%N then Some (n - 87)%N
  else if ((65 <=? n) && (n <=? 70))%N then Some (n - 55)%N
  else None.

Definition radix_val (radix : N) (c : ascii) : option N :=
  match hex_val c with
  | Some d => if (d <? radix)%N then Some d else None
  | None => None
  end.

(** ** Strings *)

Definition is_empty (s : string) : bool :=
  match s with EmptyString => true | _ => false end.

(** [String.prototype.toLowerCase] *)
Fixpoint toLowerCase (s : string) : string :=
  match s with
  | EmptyString => EmptyString
  | String c s' => String (lower_char c) (toLowerCase s')
  end.

Fixpoint trimStart (s : string) : string :=
  match s with
  | EmptyString => EmptyString
  | String c s' => if is_ws c then trimStart s' else s
  end.

Fixpoint trimEnd (s : string) : string :=
  match s with
  | EmptyString => EmptyString
  | String c s' =>
      let t := trimEnd s' in
      if is_ws c && is_empty t then EmptyString else String c t
  end.

(** [String.prototype.trim] *)
Definition trim (s : string) : string := trimEnd (trimStart s).

(** [s.split(sep)] for a one-character separator: never the empty list. *)
Fixpoint split (sep : ascii) (s : string) : list string :=
  match s with
  | EmptyString => [EmptyString]
  | String c s' =>
      if Ascii.eqb c sep then EmptyString :: split sep s'
      else match split sep s' with
           | w :: ws => String c w :: ws
           | [] => [String c EmptyString]
           end
  end.

(** [s.replace(/x/g, empty)] for a character [x]: every occurrence is
    dropped. *)
Fixpoint remove_char (x : ascii) (s : string) : string :=
  match s with
  | EmptyString => EmptyString
  | String c s' =>
      if Ascii.eqb c x then remove_char x s' else String c (remove_char x s')
  end.

(** [s.replace(x, empty)] for a one-character string pattern [x]: only the
    first occurrence is dropped. *)
Fixpoint remove_first (x : ascii) (s : string) : string :=
  match s with
  | EmptyString => EmptyString
  | String c s' =>
      if Ascii.eqb c x then s' else String c (remove_first x s')
  end.

(** [s.replace(/x/g, xx)]: every occurrence of [x] is doubled. *)
Fixpoint double_char (x : ascii) (s : string) : string :=
  match s with
  | EmptyString => EmptyString
  | String c s' =>
      if Ascii.eqb c x then String c (String c (double_char x s'))
      else String c (double_char x s')
  end.

(** [s.replace(/\s+/g, underscore)]: each maximal run of white space becomes one
    underscore.  [in_run] records that the previous character was white
    space. *)
Fixpoint replace_ws_runs (in_run : bool) (s : string) : string :=
  match s with
  | EmptyString => EmptyString
  | String c s' =>
      if is_ws c then
        if in_run then replace_ws_runs true s'
        else String "_" (replace_ws_runs true s')
      else String c (replace_ws_runs false s')
  end.

(** [s.startsWith(p)] *)
Fixpoint startsWith (p s : string) : bool :=
  match p, s with
  | EmptyString, _ => true
  | String a p', String b s' => Ascii.eqb a b && startsWith p' s'
  | String _ _, EmptyString => false
  end.

(** [s.includes(p)] *)
Fixpoint includes (p s : string) : bool :=
  startsWith p s ||
  match s with
  | EmptyString => false
  | String _ s' => includes p s'
  end.

Definition contains_char (x : ascii) (s : string) : bool :=
  includes (String x EmptyString) s.

(** [parts.join(sep)] on strings *)
Fixpoint join (sep : string) (parts : list string) : string :=
  match parts with
  | [] => EmptyString
  | [p] => p
  | p :: ps => p ++ sep ++ join sep ps
  end.

(** Code-unit lexicographic order, the order of [<] on two strings. *)
Fixpoint str_ltb (s t : string) : bool :=
  match s, t with
  | _, EmptyString => false
  | EmptyString, String _ _ => true
  | String a s', String b t' =>
      if (code a <? code b)%N then true
      else if (code b <? code a)%N then false
      else str_ltb s' t'
  end.

(** Longest prefix of characters satisfying [p], and the rest. *)
Fixpoint span (p : ascii -> bool) (s : string) : string * string :=
  match s with
  | EmptyString => (EmptyString, EmptyString)
  | String c s' =>
      if p c then let '(a, b) := span p s' in (String c a, b)
      else (EmptyString, s)
  end.

Fixpoint all_chars (p : ascii -> bool) (s : string) : bool :=
  match s with
  | EmptyString => true
  | String c s' => p c && all_chars p s'
  end.

(** ** The three regular expressions of the type detection *)

(** [/^\d{4}-\d{2}-\d{2}$/] *)
Definition match_iso_date (s : string) : bool :=
  match s with
  | String y1 (String y2 (String y3 (String y4 (String "-"
      (String m1 (String m2 (String "-"
        (String d1 (String d2 EmptyString))))))))) =>
      is_digit y1 && is_digit y2 && is_digit y3 && is_digit y4 &&
      is_digit m1 && is_digit m2 && is_digit d1 && is_digit d2
  | _ => false
  end.

(** [\d{1,2}] followed by a slash: the rest after the slash, if it matches. *)
Definition one_or_two_digits_slash (s : string) : option string :=
  match s with
  | String a (String "/" r) => if is_digit a then Some r else None
  | String a (String b (String "/" r)) =>
      if is_digit a && is_digit b then Some r else None
  | _ => None
  end.

(** [/^\d{1,2}\/\d{1,2}\/\d{4}$/] *)
Definition match_us_date (s : string) : bool :=
  match one_or_two_digits_slash s with
  | Some r =>
      match one_or_two_digits_slash r with
      | Some (String y1 (String y2 (String y3 (String y4 EmptyString)))) =>
          is_digit y1 && is_digit y2 && is_digit y3 && is_digit y4
      | _ => false
      end
  | None => false
  end.

(** [/^\d+\.\d{2}$/] *)
Definition match_two_decimals (s : string) : bool :=
  let '(ds, r) := span is_digit s in
  negb (is_empty ds) &&
  match r with
  | String "." (String a (String b EmptyString)) => is_digit a && is_digit b
  | _ => false
  end.

(** ** Numbers: IEEE-754 binary64 *)

Definition number : Type := spec_float.

Definition prec : Z := 53.
Definition emax : Z := 1024.

Definition NaN : number := S754_nan.
Definition Infinity (neg : bool) : number := S754_infinity neg.

(** The binary64 value nearest to [(-1)^neg * m * 10^e] (ties to even). *)
Definition of_decimal (neg : bool) (m : N) (e : Z) : number :=
  match m with
  | N0 => S754_zero neg
  | Npos p =>
      if 0 <=? e
      then binary_round prec emax neg (p * Z.to_pos (10 ^ e))%positive 0
      else SFdiv prec emax (S754_finite neg p 0)
                           (S754_finite false (Z.to_pos (10 ^ (- e))) 0)
  end.

(** The number of an integer, as in [index + 1]. *)
Definition of_Z (z : Z) : number := binary_normalize prec emax z 0 false.

Definition is_nan (x : number) : bool :=
  match x with S754_nan => true | _ => false end.

(** [Number::equal]: NaN differs from everything, the two zeros are equal. *)
Definition num_eqb (x y : number) : bool := SFeqb x y.

(** [Number::lessThan], false when either side is NaN. *)
Definition num_ltb (x y : number) : bool := SFltb x y.

(** Structural identity of two numbers (not a JavaScript operator). *)
Definition same_number (x y : number) : bool :=
  match x, y with
  | S754_zero a, S754_zero b => Bool.eqb a b
  | S754_infinity a, S754_infinity b => Bool.eqb a b
  | S754_nan, S754_nan => true
  | S754_finite a m e, S754_finite b m' e' =>
      Bool.eqb a b && (m =? m')%positive && (e =? e')
  | _, _ => false
  end.

(** *** Numeric string literals *)

Inductive literal : Type :=
  | LitInfinity (neg : bool)
  | LitDecimal (neg : bool) (m : N) (e : Z).

Definition literal_value (l : literal) : number :=
  match l with
  | LitInfinity neg => Infinity neg
  | LitDecimal neg m e => of_decimal neg m e
  end.

Fixpoint digits_val (radix : N) (acc : N) (s : string) : N :=
  match s with
  | EmptyString => acc
  | String c s' =>
      digits_val radix
        (acc * radix + match hex_val c with Some d => d | None => 0 end)%N s'
  end.

Fixpoint drop_chars (n : nat) (s : string) : string :=
  match n, s with
  | O, _ => s
  | S n', String _ s' => drop_chars n' s'
  | S _, EmptyString => EmptyString
  end.

Fixpoint take_chars (n : nat) (s : string) : string :=
  match n, s with
  | O, _ => EmptyString
  | S n', String c s' => String c (take_chars n' s')
  | S _, EmptyString => EmptyString
  end.

Definition parse_sign (s : string) : bool * string :=
  match s with
  | String "-" r => (true, r)
  | String "+" r => (false, r)
  | _ => (false, s)
  end.

(** [ExponentPart]: [e] or [E], an optional sign, at least one digit. *)
Definition parse_exponent (s : string) : option (Z * string) :=
  match s with
  | String c r =>
      if (Ascii.eqb c "e" || Ascii.eqb c "E")%bool then
        let '(neg, r1) := parse_sign r in
        let '(ds, r2) := span is_digit r1 in
        if is_empty ds then None
        else let v := Z.of_N (digits_val 10 0 ds) in
             Some (if neg then - v else v, r2)
      else None
  | EmptyString => None
  end.

(** The longest prefix that is a [StrUnsignedDecimalLiteral], with what
    follows it. *)
Definition parse_unsigned (neg : bool) (s : string)
  : option (literal * string) :=
  if startsWith "Infinity" s then Some (LitInfinity neg, drop_chars 8 s)
  else
    let '(ip, r1) := span is_digit s in
    let '(fp, r2) :=
      match r1 with
      | String "." r => span is_digit r
      | _ => (EmptyString, r1)
      end in
    if is_empty ip && is_empty fp then None
    else
      let m := digits_val 10 0 (ip ++ fp) in
      let e0 := - Z.of_nat (String.length fp) in
      match parse_exponent r2 with
      | Some (e, r3) => Some (LitDecimal neg m (e + e0), r3)
      | None => Some (LitDecimal neg m e0, r2)
      end.

(** The longest prefix that is a [StrDecimalLiteral]. *)
Definition parse_decimal (s : string) : option (literal * string) :=
  let '(neg, r) := parse_sign s in parse_unsigned neg r.

(** [parseFloat(s)] *)
Definition parseFloat (s : string) : number :=
  match parse_decimal (trimStart s) with
  | Some (l, _) => literal_value l
  | None => NaN
  end.

(** [0x], [0o] and [0b] literals: the radix and the digits. *)
Definition non_decimal_prefix (s : string) : option (N * string) :=
  match s with
  | String "0" (String c r) =>
      if (Ascii.eqb c "x" || Ascii.eqb c "X")%bool then Some (16%N, r)
      else if (Ascii.eqb c "o" || Ascii.eqb c "O")%bool then Some (8%N, r)
      else if (Ascii.eqb c "b" || Ascii.eqb c "B")%bool then Some (2%N, r)
      else None
  | _ => None
  end.

Definition is_radix_digit (radix : N) (c : ascii) : bool :=
  match radix_val radix c with Some _ => true | None => false end.

(** [StringToNumber], the conversion behind [Number(s)] and [isNaN(s)]. *)
Definition StringToNumber (s : string) : number :=
  let t := trim s in
  if is_empty t then S754_zero false
  else
    match non_decimal_prefix t with
    | Some (radix, ds) =>
        if negb (is_empty ds) && all_chars (is_radix_digit radix) ds
        then of_Z (Z.of_N (digits_val radix 0 ds))
        else NaN
    | None =>
        match parse_decimal t with
        | Some (l, EmptyString) => literal_value l
        | _ => NaN
        end
    end.

(** *** [Number::toString] in radix 10 *)

Definition N_to_string (n : N) : string :=
  NilZero.string_of_uint (N.to_uint n).

Fixpoint zeros (n : nat) : string :=
  match n with O => EmptyString | S n' => String "0" (zeros n') end.

(** Least [j >= j0] with [p * 10^j >= q], searched for [fuel] steps. *)
Fixpoint scale_up (fuel : nat) (p q : Z) (j : Z) : Z :=
  match fuel with
  | O => j
  | S f => if q <=? p * 10 ^ j then j else scale_up f p q (j + 1)
  end.

(** The integer [n] with [10^(n-1) <= p/q < 10^n], for [p, q > 0]. *)
Definition decimal_exponent (p q : Z) : Z :=
  if q <=? p then Z.of_nat (String.length (N_to_string (Z.to_N (p / q))))
  else 1 - scale_up 400 p q 1.

(** The digits [s] and the exponent [n] of the shortest decimal
    [s * 10^(n-k)] that reads back as [x]; among [k]-digit candidates the
    one nearest to [x]. *)
Fixpoint shortest_digits (x : number) (p q n0 : Z) (ks : list Z)
  : N * Z :=
  match ks with
  | [] => (Z.to_N (p / q), n0)
  | k :: ks' =>
      let t := k - n0 in
      let num := if 0 <=? t then p * 10 ^ t else p in
      let den := if 0 <=? t then q else q * 10 ^ (- t) in
      let lo := num / den in
      let rem := num mod den in
      let hi := lo + 1 in
      let ok_lo := same_number (of_decimal false (Z.to_N lo) (n0 - k)) x in
      let ok_hi := same_number (of_decimal false (Z.to_N hi) (n0 - k)) x in
      let r_lo := (Z.to_N lo, n0) in
      let r_hi := if hi =? 10 ^ k then (Z.to_N (10 ^ (k - 1)), n0 + 1)
                  else (Z.to_N hi, n0) in
      match ok_lo, ok_hi with
      | true, true =>
          match 2 * rem ?= den with
          | Lt => r_lo
          | Gt => r_hi
          | Eq => if Z.even lo then r_lo else r_hi
          end
      | true, false => r_lo
      | false, true => r_hi
      | false, false => shortest_digits x p q n0 ks'
      end
  end.

Definition format_digits (ds : string) (n : Z) : string :=
  let k := Z.of_nat (String.length ds) in
  if (k <=? n) && (n <=? 21) then ds ++ zeros (Z.to_nat (n - k))
  else if (0 <? n) && (n <=? 21) then
    take_chars (Z.to_nat n) ds ++ "." ++ drop_chars (Z.to_nat n) ds
  else if (-6 <? n) && (n <=? 0) then
    "0." ++ zeros (Z.to_nat (- n)) ++ ds
  else
    let e := n - 1 in
    let sign := if e <? 0 then "-" else "+" in
    let mant := if k =? 1 then ds
                else take_chars 1 ds ++ "." ++ drop_chars 1 ds in
    mant ++ "e" ++ sign ++ N_to_string (Z.abs_N e).

Definition positive_to_string (m : positive) (e : Z) : string :=
  let p := if 0 <=? e then Zpos m * 2 ^ e else Zpos m in
  let q := if 0 <=? e then 1 else 2 ^ (- e) in
  let n0 := decimal_exponent p q in
  let '(s, n) :=
    shortest_digits (S754_finite false m e) p q n0
      (map Z.of_nat (seq 1 17)) in
  format_digits (N_to_string s) n.

(** [Number::toString(x)] *)
Definition number_toString (x : number) : string :=
  match x with
  | S754_nan => "NaN"
  | S754_zero _ => "0"
  | S754_infinity neg => if neg then "-Infinity" else "Infinity"
  | S754_finite neg m e =>
      (if neg then "-" else "") ++ positive_to_string m e
  end.

(** ** Values and operators *)

(** The primitive values a table cell can hold. *)
Inductive Value : Type :=
  | VUndefined
  | VNull
  | VBool (b : bool)
  | VNum (x : number)
  | VStr (s : string).

(** [ToString(v)]; [v.toString()] is the same on every value but
    [undefined] and [null], where it throws: the component calls it only
    behind a guard that excludes them. *)
Definition ToString (v : Value) : string :=
  match v with
  | VUndefined => "undefined"
  | VNull => "null"
  | VBool b => if b then "true" else "false"
  | VNum x => number_toString x
  | VStr s => s
  end.

(** [ToNumber(v)] *)
Definition ToNumber (v : Value) : number :=
  match v with
  | VUndefined => NaN
  | VNull => S754_zero false
  | VBool b => if b then of_Z 1 else S754_zero false
  | VNum x => x
  | VStr s => StringToNumber s
  end.

(** [ToBoolean(v)]: the falsy values are [undefined], [null], [false],
    the zeros, NaN and the empty string. *)
Definition truthy (v : Value) : bool :=
  match v with
  | VUndefined | VNull => false
  | VBool b => b
  | VNum (S754_zero _) | VNum S754_nan => false
  | VNum _ => true
  | VStr s => negb (is_empty s)
  end.

(** [a === b] *)
Definition strict_eq (a b : Value) : bool :=
  match a, b with
  | VUndefined, VUndefined => true
  | VNull, VNull => true
  | VBool x, VBool y => Bool.eqb x y
  | VNum x, VNum y => num_eqb x y
  | VStr x, VStr y => String.eqb x y
  | _, _ => false
  end.

(** [a > b]: two strings compare by code units, anything else as numbers. *)
Definition gt (a b : Value) : bool :=
  match a, b with
  | VStr x, VStr y => str_ltb y x
  | _, _ => num_ltb (ToNumber b) (ToNumber a)
  end.

(** [typeof v === number] and [typeof v === string] *)
Definition is_number (v : Value) : bool :=
  match v with VNum _ => true | _ => false end.

Definition is_string (v : Value) : bool :=
  match v with VStr _ => true | _ => false end.

(** [isNaN(s)] on a string argument *)
Definition isNaN (s : string) : bool := is_nan (StringToNumber s).

(** ** Arrays *)

(** [l.slice(start, end)]: a negative index counts from the end, and both
    are clamped to the length. *)
Definition slice {A : Type} (start end_ : Z) (l : list A) : list A :=
  let len := Z.of_nat (length l) in
  let k := if start <? 0 then Z.max (len + start) 0 else Z.min start len in
  let final := if end_ <? 0 then Z.max (len + end_) 0 else Z.min end_ len in
  take (Z.to_nat (final - k)) (drop (Z.to_nat k) l).

(** [Array.prototype.sort(comparefn)].  ECMAScript fixes the result only
    for a consistent comparator: then it is the stable sorted permutation.
    The model is a stable insertion sort that, like V8 on short arrays,
    calls [comparefn(x, y)] with [x] the element being placed and [y] an
    element already placed before it, and moves [x] in front of [y] when the
    result is negative.  [sort_insert] works on the placed elements in
    reverse order. *)
Fixpoint sort_insert {A : Type} (cmp : A -> A -> Z) (x : A) (placed : list A)
  : list A :=
  match placed with
  | [] => [x]
  | y :: placed' =>
      if cmp x y <? 0 then y :: sort_insert cmp x placed'
      else x :: placed
  end.

Definition sort {A : Type} (cmp : A -> A -> Z) (l : list A) : list A :=
  reverse (foldl (fun placed x => sort_insert cmp x placed) [] l).

(** [values.join(sep)]: [undefined] and [null] elements render as the
    empty string, the others through [ToString]. *)
Definition join_element (v : Value) : string :=
  match v with
  | VUndefined | VNull => EmptyString
  | _ => ToString v
  end.

Definition join_values (sep : string) (vs : list Value) : string :=
  join sep (map join_element vs).

End JS.

Import JS.

(* ===================================================================== *)
(** * Data model *)
(* ===================================================================== *)

(** The [type] field of a column configuration. *)
Inductive ColumnType : Type := TString | TNumber | TDate | TCurrency.

#[global] Instance ColumnType_eq_dec : EqDecision ColumnType.
Proof. solve_decision. Defined.

(** A column configuration object. *)
Record Column : Type := mkColumn {
  key : string;
  label : string;
  sortable : bool;
  filterable : bool;
  type : ColumnType
}.

(** A row object: own properties by name.  Property names are ordinary
    ones (no accessor property of [Object.prototype] among them). *)
Abbreviation record := (gmap string Value).

(** [item[k]]: the own property of that name, and [undefined] when there
    is none.  This is what the source reads for every name but those of the
    members of [Object.prototype] ([__proto__], [constructor], ...): for
    such a name that the record does not own, the source reads the
    inherited object or function, which [Value] does not represent. *)
Definition get (item : record) (k : string) : Value :=
  default VUndefined (item !! k).

(** [row[k] = v] for a primitive [v], on an object literal: every name
    becomes an own property of the row, except [__proto__], which is an
    accessor of [Object.prototype] whose setter ignores a primitive, so
    that the row is left as it was. *)
Definition set_property (k : string) (v : Value) (row : record) : record :=
  if String.eqb k "__proto__" then row else <[k := v]> row.

(** [Object.values(item)].  The component only asks whether some value
    satisfies a side-effect-free test, so the enumeration order is
    immaterial. *)
Definition Object_values (item : record) : list Value :=
  (map_to_list item).*2.

Inductive Direction : Type := asc | desc.

(** [sortConfig]: [sortKey] is its [key] property, [None] for [null]. *)
Record SortConfig : Type := mkSortConfig {
  sortKey : option string;
  direction : Direction
}.

(** The component state, one field per [useState] cell that the logic
    reads or writes. *)
Record State : Type := mkState {
  data : list record;
  columns : list Column;
  currentPage : Z;
  sortConfig : SortConfig;
  globalFilter : string;
  visibleColumns : gmap string bool
}.

(** What a load attempt shows the user. *)
Inductive Notice : Type :=
  | Toast (msg : string)
  | Alert (msg : string).

Definition dquote : ascii := ascii_of_N 34.
Definition newline : ascii := ascii_of_N 10.

(* ===================================================================== *)
(** * Ingestion: [handleFileUpload] and [updateTableData] *)
(* ===================================================================== *)

(** The type detection applied to one cell: the value stored in the row and
    the type written to the column, if any.  The last branch of the source
    has no [else]: a cell that matches none of the three tests is stored as
    it is and writes no type. *)
Definition detectType (value : string) : Value * option ColumnType :=
  if negb (isNaN value) && negb (is_nan (parseFloat value))
     && negb (is_empty value)
  then (VNum (parseFloat value), Some TNumber)
  else if match_iso_date value || match_us_date value
  then (VStr value, Some TDate)
  else if startsWith "$" value || match_two_decimals value
  then (VNum (parseFloat (remove_first "$" value)), Some TCurrency)
  else (VStr value, None).

(** [header.toLowerCase().replace(/\s+/g, underscore)] *)
Definition column_key (header : string) : string :=
  replace_ws_runs false (toLowerCase header).

(** The column configuration created for a header. *)
Definition new_column (header : string) : Column :=
  {| key := column_key header; label := header;
     sortable := true; filterable := true; type := TString |}.

(** [newColumns[i].type = t] *)
Definition set_type (i : nat) (t : ColumnType) (cols : list Column)
  : list Column :=
  alter (fun c => {| key := key c; label := label c; sortable := sortable c;
                     filterable := filterable c; type := t |}) i cols.

Definition write_type (i : nat) (t : option ColumnType) (cols : list Column)
  : list Column :=
  match t with
  | Some t' => set_type i t' cols
  | None => cols
  end.

(** The body of [headers.forEach((header, i) => ...)], from index [i] on:
    [cell i] is the text handed to the detection for column [i]. *)
Fixpoint forEach_header (cell : nat -> string) (i : nat)
    (headers : list string) (row : record) (cols : list Column)
  : record * list Column :=
  match headers with
  | [] => (row, cols)
  | header :: rest =>
      let '(v, t) := detectType (cell i) in
      forEach_header cell (S i) rest
        (set_property (column_key header) v row) (write_type i t cols)
  end.

(** One row object: [{ id: index + 1 }] and then the cells. *)
Definition build_row (cell : nat -> string) (headers : list string)
    (index : nat) (cols : list Column) : record * list Column :=
  forEach_header cell 0 headers
    {[ "id" := VNum (of_Z (Z.of_nat index + 1)) ]} cols.

(** [rows.map((row, index) => ...)] from [index] on, with the column
    objects shared by all rows. *)
Fixpoint map_rows {R : Type} (cell : R -> nat -> string)
    (headers : list string) (index : nat) (rows : list R)
    (cols : list Column) : list record * list Column :=
  match rows with
  | [] => ([], cols)
  | r :: rest =>
      let '(row, cols1) := build_row (cell r) headers index cols in
      let '(rows', cols2) := map_rows cell headers (S index) rest cols1 in
      (row :: rows', cols2)
  end.

(** [updateTableData(newColumns, newData)] *)
Definition updateTableData (newColumns : list Column) (newData : list record)
  : State :=
  {| data := newData;
     columns := newColumns;
     currentPage := 1;
     sortConfig := {| sortKey := None; direction := asc |};
     globalFilter := "";
     visibleColumns :=
       foldl (fun acc col => <[key col := true]> acc) ∅ newColumns |}.

(** ** The CSV branch *)

(** [text.split(newline).filter((line) => line.trim() !== empty)] *)
Definition csv_lines (text : string) : list string :=
  filter (fun line => is_empty (trim line) = false) (split newline text).

(** [line.split(comma).map((v) => v.trim().replace(/quote/g, empty))] *)
Definition csv_fields (line : string) : list string :=
  map (fun v => remove_char dquote (trim v)) (split "," line).

(** [values[i] || empty] *)
Definition csv_cell (line : string) (i : nat) : string :=
  default "" (csv_fields line !! i).

(** The columns and the rows computed from the non-empty lines. *)
Definition parse_csv (header_line : string) (data_lines : list string)
  : list record * list Column :=
  let headers := csv_fields header_line in
  map_rows csv_cell headers 0 data_lines (map new_column headers).

(** The [reader.onload] callback of the CSV branch, as a function of the
    file text and the state before. *)
Definition handleFileUpload_csv (text : string) (st : State)
  : State * list Notice :=
  match csv_lines text with
  | [] => (st, [Toast "Uploaded file is empty"])
  | header_line :: data_lines =>
      let '(newData, newColumns) := parse_csv header_line data_lines in
      (updateTableData newColumns newData, [])
  end.

(** ** The spreadsheet branch *)

(** [XLSX.read] and [XLSX.utils.sheet_to_json(worksheet, { header: 1 })]
    belong to a library: their result is the input here, either an
    exception or the rows of the first sheet.  A row is an array that can
    have holes, which is what the library leaves for a blank cell: [None]
    is a hole, [Some v] an element. *)
Inductive Decoded : Type :=
  | Thrown
  | Sheet (jsonData : list (list (option Value))).

(** The header of column [i]: [header.toString().trim()] for a truthy cell,
    else [Column_] followed by the random suffix drawn for it. *)
Definition excel_header (random : nat -> string) (i : nat) (header : Value)
  : string :=
  if truthy header then trim (ToString header)
  else "Column_" ++ random i.

(** [jsonData[0].map(callback)]: [map] calls the callback on the elements
    and leaves the holes where they are. *)
Definition excel_headers (random : nat -> string)
    (header_row : list (option Value)) : list (option string) :=
  imap (fun i header => excel_header random i <$> header) header_row.

(** [(row[i] || empty).toString().trim()]: a hole, like an index past the
    end, reads as [undefined]. *)
Definition excel_cell (row : list (option Value)) (i : nat) : string :=
  let value := match row !! i with
               | Some (Some v) => v
               | _ => VUndefined
               end in
  let value := if truthy value then value else VStr "" in
  trim (ToString value).

(** [newColumns[i].type = t] on the array of columns, which has the holes
    of the header row. *)
Definition write_type_sparse (i : nat) (t : option ColumnType)
    (cols : list (option Column)) : list (option Column) :=
  match t with
  | Some t' =>
      alter (fmap (fun c => {| key := key c; label := label c;
                               sortable := sortable c;
                               filterable := filterable c;
                               type := t' |})) i cols
  | None => cols
  end.

(** The body of [headers.forEach((header, i) => ...)] of this branch, from
    index [i] on: [forEach] skips the holes. *)
Fixpoint forEach_header_sparse (cell : nat -> string) (i : nat)
    (headers : list (option string)) (row : record)
    (cols : list (option Column)) : record * list (option Column) :=
  match headers with
  | [] => (row, cols)
  | None :: rest => forEach_header_sparse cell (S i) rest row cols
  | Some header :: rest =>
      let '(v, t) := detectType (cell i) in
      forEach_header_sparse cell (S i) rest
        (set_property (column_key header) v row) (write_type_sparse i t cols)
  end.

(** [jsonData.slice(1).map((row, index) => ...)] from [index] on. *)
Fixpoint map_rows_sparse (headers : list (option string)) (index : nat)
    (rows : list (list (option Value))) (cols : list (option Column))
  : list record * list (option Column) :=
  match rows with
  | [] => ([], cols)
  | r :: rest =>
      let '(row, cols1) :=
        forEach_header_sparse (excel_cell r) 0 headers
          {[ "id" := VNum (of_Z (Z.of_nat index + 1)) ]} cols in
      let '(rows', cols2) := map_rows_sparse headers (S index) rest cols1 in
      (row :: rows', cols2)
  end.

(** The elements of an array with holes, in order: what [filter], [map]
    and [reduce] see of it. *)
Definition elements {A : Type} (l : list (option A)) : list A :=
  omap id l.

(** The rows and the columns computed from the sheet.  The array
    [newColumns] has the holes of the header row; the component reads the
    [columns] state through [filter], [map] and [reduce] only, so the state
    is represented by the elements of the array. *)
Definition parse_excel (random : nat -> string)
    (header_row : list (option Value))
    (data_rows : list (list (option Value))) : list record * list Column :=
  let headers := excel_headers random header_row in
  let '(newData, newColumns) :=
    map_rows_sparse headers 0 data_rows
      ((fun header : option string => new_column <$> header) <$> headers) in
  (newData, elements newColumns).

Definition handleFileUpload_excel (random : nat -> string)
    (decoded : Decoded) (st : State) : State * list Notice :=
  match decoded with
  | Thrown =>
      (st, [Alert
        "Error reading Excel file. Please make sure it's a valid Excel file."])
  | Sheet [] => (st, [Toast "Uploaded file is empty"])
  | Sheet (header_row :: data_rows) =>
      let '(newData, newColumns) := parse_excel random header_row data_rows in
      (updateTableData newColumns newData, [])
  end.

(** ** The handler *)

(** The selected file: its name, and what the two readers make of its
    bytes ([readAsText], and [readAsArrayBuffer] followed by the decoding
    of the workbook). *)
Record UploadedFile : Type := mkUploadedFile {
  name : string;
  text : string;
  decoded : Decoded
}.

(** [handleFileUpload], with the callbacks run: [None] stands for an event
    without a file. *)
Definition handleFileUpload (random : nat -> string)
    (file : option UploadedFile) (st : State) : State * list Notice :=
  match file with
  | None => (st, [])
  | Some f =>
      let fileExtension :=
        toLowerCase (default "" (last (split "." (name f)))) in
      if String.eqb fileExtension "csv"
      then handleFileUpload_csv (text f) st
      else if String.eqb fileExtension "xlsx"
              || String.eqb fileExtension "xls"
      then handleFileUpload_excel random (decoded f) st
      else (st, [Alert
             "Please upload a CSV or Excel file (.csv, .xlsx, .xls)"])
  end.

(* ===================================================================== *)
(** * The query pipeline *)
(* ===================================================================== *)

(** The test of the global filter on one value. *)
Definition value_matches (globalFilter : string) (value : Value) : bool :=
  match value with
  | VNull | VUndefined => false
  | _ => includes (toLowerCase globalFilter) (toLowerCase (ToString value))
  end.

(** The callback of [data.filter]. *)
Definition item_matches (globalFilter : string) (item : record) : bool :=
  existsb (value_matches globalFilter) (Object_values item).

(** [filteredData] *)
Definition filteredData (data : list record) (globalFilter : string)
  : list record :=
  if is_empty globalFilter then data
  else filter (fun item => item_matches globalFilter item = true) data.

(** The comparison function handed to [sort]. *)
Definition compareFn (k : string) (d : Direction) (a b : record) : Z :=
  let aVal := get a k in
  let bVal := get b k in
  if strict_eq aVal bVal then 0
  else
    let result := if gt aVal bVal then 1 else -1 in
    match d with desc => - result | asc => result end.

(** [!sortConfig.key]: [null] and the empty string are falsy. *)
Definition active_key (cfg : SortConfig) : option string :=
  match sortKey cfg with
  | Some k => if is_empty k then None else Some k
  | None => None
  end.

(** [sortedData] *)
Definition sortedData (filtered : list record) (cfg : SortConfig)
  : list record :=
  match active_key cfg with
  | None => filtered
  | Some k => sort (compareFn k (direction cfg)) filtered
  end.

(** [paginatedData] *)
Definition paginatedData (sorted : list record)
    (currentPage itemsPerPage : Z) : list record :=
  let startIndex := (currentPage - 1) * itemsPerPage in
  slice startIndex (startIndex + itemsPerPage) sorted.

(** [Math.ceil(sortedData.length / itemsPerPage)] for a non-zero integer
    [itemsPerPage]: on an array length the rounded quotient has the
    ceiling of the exact one. *)
Definition totalPages (sorted : list record) (itemsPerPage : Z) : Z :=
  - ((- Z.of_nat (length sorted)) / itemsPerPage).

(** What one render derives from the state. *)
Record View : Type := mkView {
  rows : list record;
  totalMatched : Z;
  pages : Z
}.

Definition query (st : State) (itemsPerPage : Z) : View :=
  let filtered := filteredData (data st) (globalFilter st) in
  let sorted := sortedData filtered (sortConfig st) in
  {| rows := paginatedData sorted (currentPage st) itemsPerPage;
     totalMatched := Z.of_nat (length sorted);
     pages := totalPages sorted itemsPerPage |}.

(* ===================================================================== *)
(** * Export: [downloadAsExcel] *)
(* ===================================================================== *)

(** [columns.filter((col) => visibleColumns[col.key])] *)
Definition visibleColumnsArray (cols : list Column)
    (visible : gmap string bool) : list Column :=
  filter (fun col => visible !! key col = Some true) cols.

(** [parseFloat(value) || 0] *)
Definition parseFloat_or_0 (value : Value) : Value :=
  let x := VNum (parseFloat (ToString value)) in
  if truthy x then x else VNum (of_Z 0).

(** The value returned for one cell by the inner [map] callback. *)
Definition export_cell (item : record) (col : Column) : Value :=
  let value := get item (key col) in
  let value :=
    if decide (type col = TCurrency)
    then (if is_number value then value else parseFloat_or_0 value)
    else value in
  match value with
  | VStr s =>
      if contains_char "," s || contains_char dquote s
      then VStr (String dquote (double_char dquote s ++ String dquote ""))
      else value
  | _ => value
  end.

Definition export_row (cols : list Column) (item : record) : string :=
  join_values "," (map (export_cell item) cols).

(** The text of the downloaded file, [csvContent]. *)
Definition downloadAsExcel (st : State) : string :=
  let cols := visibleColumnsArray (columns st) (visibleColumns st) in
  let headers := join "," (map label cols) in
  let sorted :=
    sortedData (filteredData (data st) (globalFilter st)) (sortConfig st) in
  join (String newline "") (headers :: map (export_row cols) sorted).

(* ===================================================================== *)
(** * Event handlers and derived display values *)
(* ===================================================================== *)

(** The state at mount: [useState(initialData || [])], the columns
    likewise, every initial column visible, page 1, no sort, no filter.
    [None] stands for a prop that is not passed. *)
Definition initial_state (initialData : option (list record))
    (initialColumns : option (list Column)) : State :=
  {| data := default [] initialData;
     columns := default [] initialColumns;
     currentPage := 1;
     sortConfig := {| sortKey := None; direction := asc |};
     globalFilter := "";
     visibleColumns :=
       foldl (fun acc col => <[key col := true]> acc) ∅
         (default [] initialColumns) |}.

(** [prevConfig.key === key] *)
Definition is_sort_key (cfg : SortConfig) (k : string) : bool :=
  match sortKey cfg with
  | Some k' => String.eqb k' k
  | None => false
  end.

(** [handleSort(key)] *)
Definition handleSort (k : string) (st : State) : State :=
  {| data := data st;
     columns := columns st;
     currentPage := currentPage st;
     sortConfig :=
       {| sortKey := Some k;
          direction :=
            if is_sort_key (sortConfig st) k
               && match direction (sortConfig st) with
                  | asc => true
                  | desc => false
                  end
            then desc else asc |};
     globalFilter := globalFilter st;
     visibleColumns := visibleColumns st |}.

(** The click on a column header: [column.sortable && handleSort(column.key)] *)
Definition onHeaderClick (column : Column) (st : State) : State :=
  if sortable column then handleSort (key column) st else st.

(** [toggleColumnVisibility(key)]: the negation of a missing entry is
    [true]. *)
Definition toggleColumnVisibility (k : string) (st : State) : State :=
  {| data := data st;
     columns := columns st;
     currentPage := currentPage st;
     sortConfig := sortConfig st;
     globalFilter := globalFilter st;
     visibleColumns :=
       <[k := negb (default false (visibleColumns st !! k))]>
         (visibleColumns st) |}.

(** The change handler of the search input: the new text, and page 1. *)
Definition onSearchChange (value : string) (st : State) : State :=
  {| data := data st;
     columns := columns st;
     currentPage := 1;
     sortConfig := sortConfig st;
     globalFilter := value;
     visibleColumns := visibleColumns st |}.

(** [clearGlobalFilter()] *)
Definition clearGlobalFilter (st : State) : State :=
  {| data := data st;
     columns := columns st;
     currentPage := 1;
     sortConfig := sortConfig st;
     globalFilter := "";
     visibleColumns := visibleColumns st |}.

(** [setCurrentPage(p)] *)
Definition setCurrentPage (p : Z) (st : State) : State :=
  {| data := data st;
     columns := columns st;
     currentPage := p;
     sortConfig := sortConfig st;
     globalFilter := globalFilter st;
     visibleColumns := visibleColumns st |}.

(** The records a render sorts, and its [totalPages]. *)
Definition sorted_of (st : State) : list record :=
  sortedData (filteredData (data st) (globalFilter st)) (sortConfig st).

Definition totalPages_of (st : State) (itemsPerPage : Z) : Z :=
  totalPages (sorted_of st) itemsPerPage.

(** The four pagination buttons: [setCurrentPage(1)],
    [Math.max(prev - 1, 1)], [Math.min(prev + 1, totalPages)] and
    [setCurrentPage(totalPages)]. *)
Definition onFirstPage (st : State) : State := setCurrentPage 1 st.

Definition onPreviousPage (st : State) : State :=
  setCurrentPage (Z.max (currentPage st - 1) 1) st.

Definition onNextPage (itemsPerPage : Z) (st : State) : State :=
  setCurrentPage
    (Z.min (currentPage st + 1) (totalPages_of st itemsPerPage)) st.

Definition onLastPage (itemsPerPage : Z) (st : State) : State :=
  setCurrentPage (totalPages_of st itemsPerPage) st.

(** [disabled] of the First and Previous buttons, [currentPage === 1], and
    of the Next and Last buttons, [currentPage === totalPages]. *)
Definition previousDisabled (st : State) : bool := currentPage st =? 1.

Definition nextDisabled (st : State) (itemsPerPage : Z) : bool :=
  currentPage st =? totalPages_of st itemsPerPage.

(** The two numbers of the line [Showing from - to of n entries]:
    [Math.min((currentPage - 1) * itemsPerPage + 1, sortedData.length)] and
    [Math.min(currentPage * itemsPerPage, sortedData.length)]. *)
Definition showingFrom (st : State) (itemsPerPage : Z) : Z :=
  Z.min ((currentPage st - 1) * itemsPerPage + 1)
        (Z.of_nat (length (sorted_of st))).

Definition showingTo (st : State) (itemsPerPage : Z) : Z :=
  Z.min (currentPage st * itemsPerPage)
        (Z.of_nat (length (sorted_of st))).

(* ===================================================================== *)
(** * The pipeline on the store *)
(* ===================================================================== *)

(** Arrays and row objects live in a store and are passed by reference:
    [data.filter], the spread [[...filteredData]] and [slice] allocate a
    new array, [sort] permutes the array it is called on. *)

Abbreviation loc := positive.

Record Store : Type := mkStore {
  objects : gmap loc record;
  arrays : gmap loc (list loc)
}.

(** Computations that read and write the store. *)
Definition M (A : Type) : Type := Store -> A * Store.

#[global] Instance M_ret : MRet M := fun A x σ => (x, σ).
#[global] Instance M_bind : MBind M :=
  fun A B f m σ => let '(x, σ') := m σ in f x σ'.

Definition deref (σ : Store) (o : loc) : record :=
  default ∅ (objects σ !! o).

Definition read_array (σ : Store) (a : loc) : list loc :=
  default [] (arrays σ !! a).

(** The row objects of an array, in order. *)
Definition contents (σ : Store) (a : loc) : list record :=
  deref σ <$> read_array σ a.

Definition alloc_array (xs : list loc) : M loc :=
  fun σ =>
    let a := fresh (dom (arrays σ)) in
    (a, {| objects := objects σ; arrays := <[a := xs]> (arrays σ) |}).

(** [a.filter(p)] *)
Definition array_filter (p : record -> bool) (a : loc) : M loc :=
  fun σ =>
    alloc_array (filter (fun o => p (deref σ o) = true) (read_array σ a)) σ.

(** [[...a]] *)
Definition array_spread (a : loc) : M loc :=
  fun σ => alloc_array (read_array σ a) σ.

(** [a.sort(cmp)]: in place, and the result is [a] itself. *)
Definition array_sort (cmp : record -> record -> Z) (a : loc) : M loc :=
  fun σ =>
    let sorted :=
      sort (fun x y => cmp (deref σ x) (deref σ y)) (read_array σ a) in
    (a, {| objects := objects σ; arrays := <[a := sorted]> (arrays σ) |}).

(** [a.slice(start, end)] *)
Definition array_slice (start end_ : Z) (a : loc) : M loc :=
  fun σ => alloc_array (slice start end_ (read_array σ a)) σ.

Definition filteredData_st (data : loc) (globalFilter : string) : M loc :=
  if is_empty globalFilter then mret data
  else array_filter (item_matches globalFilter) data.

Definition sortedData_st (filtered : loc) (cfg : SortConfig) : M loc :=
  match active_key cfg with
  | None => mret filtered
  | Some k =>
      copy ← array_spread filtered;
      array_sort (compareFn k (direction cfg)) copy
  end.

Definition paginatedData_st (sorted : loc) (currentPage itemsPerPage : Z)
  : M loc :=
  let startIndex := (currentPage - 1) * itemsPerPage in
  array_slice startIndex (startIndex + itemsPerPage) sorted.

(** One render: the three memoised arrays, in the order they are computed. *)
Definition pipeline_st (data : loc) (globalFilter : string)
    (cfg : SortConfig) (currentPage itemsPerPage : Z) : M (loc * loc) :=
  filtered ← filteredData_st data globalFilter;
  sorted ← sortedData_st filtered cfg;
  page ← paginatedData_st sorted currentPage itemsPerPage;
  mret (sorted, page).

(** The same render with the spread left out: [filteredData.sort(...)]. *)
Definition sort_in_place_st (data : loc) (globalFilter : string)
    (k : string) (d : Direction) : M loc :=
  filtered ← filteredData_st data globalFilter;
  array_sort (compareFn k d) filtered.

(* ===================================================================== *)
(** * Inputs and predicates used in the statements *)
(* ===================================================================== *)

Definition nl : string := String newline "".

(** The file of the scenario: two columns, two data rows, a final newline. *)
Definition scenario_text : string :=
  ("Name,Amount" ++ nl ++ "Alice,$10.50" ++ nl ++ "Bob,20.00" ++ nl)%string.

Definition scenario_columns (amount_type : ColumnType) : list Column :=
  [ {| key := "name"; label := "Name"; sortable := true;
       filterable := true; type := TString |};
    {| key := "amount"; label := "Amount"; sortable := true;
       filterable := true; type := amount_type |} ].

Definition scenario_records : list record :=
  [ {[ "id" := VNum (of_Z 1); "name" := VStr "Alice";
       "amount" := VNum (of_decimal false 105 (-1)) ]};
    {[ "id" := VNum (of_Z 2); "name" := VStr "Bob";
       "amount" := VNum (of_Z 20) ]} ].

(** The state of a component mounted without data. *)
Definition empty_state : State := updateTableData [] [].

(** The type the four detection rules give to a cell: [string] when none of
    the first three applies. *)
Definition infer (value : string) : ColumnType :=
  default TString (snd (detectType value)).

(** The last type written by a sequence of detections, starting from [t0]. *)
Definition last_write (t0 : ColumnType) (ts : list (option ColumnType))
  : ColumnType :=
  foldl (fun t o => default t o) t0 ts.

(** A stored value has the representation of a column type: a number for
    [number] and [currency], text for [date] and [string]. *)
Definition represents (t : ColumnType) (v : Value) : bool :=
  match t with
  | TNumber | TCurrency => is_number v
  | TDate | TString => is_string v
  end.

(** Every record of the table stores, under each column's key, a value in
    the representation of that column's type. *)
Definition consistent_table (st : State) : Prop :=
  ∀ col item, col ∈ columns st → item ∈ data st →
    represents (type col) (get item (key col)) = true.

(** A key for the order of the numbers other than NaN: the sign class,
    then the exponent, then the mantissa; the two zeros share a key. *)
Definition rank (x : number) : Z * Z * Z :=
  match x with
  | S754_zero _ => (0, 0, 0)
  | S754_infinity s => (if s then -2 else 2, 0, 0)
  | S754_nan => (0, 0, 0)
  | S754_finite s m e =>
      if s then (-1, - e, Z.neg m) else (1, e, Z.pos m)
  end.

(** The lexicographic order of the keys. *)
Definition lex_lt (a b : Z * Z * Z) : Prop :=
  let '(a1, a2, a3) := a in
  let '(b1, b2, b3) := b in
  a1 < b1 ∨ (a1 = b1 ∧ (a2 < b2 ∨ (a2 = b2 ∧ a3 < b3))).

(** ECMAScript's consistent comparator, on the elements of [l]: every
    element equals itself, swapping the arguments negates the result, and
    the order is transitive. *)
Definition consistent_on {A : Type} (cmp : A -> A -> Z) (l : list A) : Prop :=
  ∀ a b c, a ∈ l → b ∈ l → c ∈ l →
    cmp a a = 0 ∧ cmp a b = - cmp b a ∧
    (cmp a b <= 0 → cmp b c <= 0 → cmp a c <= 0).

(** The same, as a test that can be run on a given array. *)
Definition consistentb {A : Type} (cmp : A -> A -> Z) (l : list A) : bool :=
  forallb (fun a => forallb (fun b => forallb (fun c =>
    (cmp a a =? 0) && (cmp a b =? - cmp b a) &&
    implb ((cmp a b <=? 0) && (cmp b c <=? 0)) (cmp a c <=? 0)) l) l) l.

(** No two positions of [l] hold records with the same value under [k]. *)
Definition distinct_on (k : string) (l : list record) : Prop :=
  ∀ i j a b, l !! i = Some a → l !! j = Some b →
    strict_eq (get a k) (get b k) = true → i = j.

(** The same, as a test that can be run on a given array. *)
Fixpoint distinctb (k : string) (l : list record) : bool :=
  match l with
  | [] => true
  | a :: l' =>
      forallb (fun b => negb (strict_eq (get a k) (get b k))
                        && negb (strict_eq (get b k) (get a k))) l'
      && distinctb k l'
  end.

(** The records of [l] whose value under [k] is [v], in order. *)
Definition with_value (k : string) (v : Value) (l : list record)
  : list record :=
  filter (fun r => strict_eq (get r k) v = true) l.

Definition sort_by (k : string) (d : Direction) : SortConfig :=
  {| sortKey := Some k; direction := d |}.

(** [σ'] has the objects of [σ], and every array of [σ] as it was. *)
Definition preserves (σ σ' : Store) : Prop :=
  objects σ' = objects σ
  ∧ ∀ a, is_Some (arrays σ !! a) → arrays σ' !! a = arrays σ !! a.

(** What a step returns and what it leaves in the store. *)
Definition refines {T : Type} (m : M T) (σ : Store)
    (post : T → Store → Prop) : Prop :=
  let '(x, σ') := m σ in preserves σ σ' ∧ post x σ'.

(** A store with one table: two row objects, listed with the larger
    value under [a] first. *)
Definition example_store : Store :=
  {| objects :=
       {[ 1%positive := {[ "id" := VNum (of_Z 1); "a" := VNum (of_Z 2) ]};
          2%positive := {[ "id" := VNum (of_Z 2); "a" := VNum (of_Z 1) ]} ]};
     arrays := {[ 1%positive := [1%positive; 2%positive] ]} |}.

(* ===================================================================== *)
(** * Theorems *)
(* ===================================================================== *)

(** ** The scenario file *)

(** C1, the code at the failing input.  Loading the scenario file yields
    the columns with keys [name] and [amount] and exactly the records
    [{id: 1, name: Alice, amount: 10.5}] and [{id: 2, name: Bob, amount: 20}],
    and nothing is notified; but the [amount] column ends with the type
    [number], not [currency].  The cell of the last row, [20.00], is of the
    form that the currency branch tests for (digits, a point, two digits),
    and the number test, which comes first, has already taken it. *)
Theorem scenario_load :
  ∀ st,
    handleFileUpload_csv scenario_text st =
      (updateTableData (scenario_columns TNumber) scenario_records, [])
    ∧ match_two_decimals "20.00" = true
    ∧ snd (detectType "20.00") = Some TNumber.
Proof. intros st. repeat split; vm_compute; reflexivity. Qed.

(** ** Empty input *)

(** C7.  The CSV load fails, with the notice that the uploaded file is
    empty, exactly when no line is left after the lines that are empty once
    trimmed have been dropped; and a load that fails leaves the whole state
    (records, columns, filter text, sort, page, column visibility) as it
    was. *)
Theorem empty_input_is_the_only_failure :
  ∀ text st,
    (csv_lines text = [] ↔
       snd (handleFileUpload_csv text st) = [Toast "Uploaded file is empty"])
    ∧ (snd (handleFileUpload_csv text st) ≠ [] →
         fst (handleFileUpload_csv text st) = st)
    ∧ (csv_lines text ≠ [] →
         snd (handleFileUpload_csv text st) = []).
Proof.
  intros text st. unfold handleFileUpload_csv.
  destruct (csv_lines text) as [|header_line data_lines]; simpl.
  - split; [tauto | split; [reflexivity | congruence]].
  - destruct (parse_csv header_line data_lines) as [newData newColumns].
    simpl. split; [split; discriminate | split; congruence].
Qed.

(** ** Type detection across rows *)

Section detection.
Context {R : Type} (cell : R -> nat -> string).

Lemma write_type_types i t cols :
  type <$> write_type i t cols =
    alter (fun t0 => default t0 t) i (type <$> cols).
Proof.
  destruct t as [t|]; simpl.
  - unfold set_type. apply list_fmap_alter, Forall_true. reflexivity.
  - symmetry. apply list_alter_id. reflexivity.
Qed.

Lemma write_type_length i t cols :
  length (write_type i t cols) = length cols.
Proof. destruct t; simpl; [apply length_alter | reflexivity]. Qed.

(** The values written by one pass over the headers do not depend on the
    column objects. *)
Lemma forEach_header_fst (c : nat -> string) i headers row cols cols' :
  fst (forEach_header c i headers row cols) =
  fst (forEach_header c i headers row cols').
Proof.
  revert i row cols cols'.
  induction headers as [|h hs IH]; intros i row cols cols'; simpl.
  - reflexivity.
  - destruct (detectType (c i)) as [v t]. apply IH.
Qed.

(** One pass over the headers writes column [j] exactly when [j] is one of
    the indices visited and the detection of its cell yields a type. *)
Lemma forEach_header_types (c : nat -> string) headers i row cols j :
  (type <$> snd (forEach_header c i headers row cols)) !! j =
    (fun t0 => if decide (i ≤ j < i + length headers)%nat
               then default t0 (snd (detectType (c j))) else t0)
      <$> (type <$> cols) !! j.
Proof.
  revert i row cols.
  induction headers as [|h hs IH]; intros i row cols; simpl.
  - case_decide; [lia|]. by destruct ((type <$> cols) !! j).
  - destruct (detectType (c i)) as [v t] eqn:Hd.
    rewrite IH, write_type_types. simpl in *.
    destruct (decide (i = j)) as [->|Hij].
    + rewrite list_lookup_alter_eq, Hd. simpl.
      destruct ((type <$> cols) !! j); simpl; [|reflexivity].
      repeat case_decide; try lia. reflexivity.
    + rewrite list_lookup_alter_ne by done.
      destruct ((type <$> cols) !! j); simpl; [|reflexivity].
      repeat case_decide; try lia; reflexivity.
Qed.

Lemma forEach_header_length (c : nat -> string) headers i row cols :
  length (snd (forEach_header c i headers row cols)) = length cols.
Proof.
  revert i row cols.
  induction headers as [|h hs IH]; intros i row cols; simpl.
  - reflexivity.
  - destruct (detectType (c i)) as [v t].
    rewrite IH. apply write_type_length.
Qed.

Lemma map_rows_length headers index rows cols :
  length (fst (map_rows cell headers index rows cols)) = length rows
  ∧ length (snd (map_rows cell headers index rows cols)) = length cols.
Proof.
  revert index cols.
  induction rows as [|r rows IH]; intros index cols; simpl; [done|].
  destruct (build_row (cell r) headers index cols) as [row cols1] eqn:Hb.
  destruct (map_rows cell headers (S index) rows cols1)
    as [rows' cols2] eqn:Hm.
  simpl. pose proof (IH (S index) cols1) as [H1 H2].
  rewrite Hm in H1, H2. simpl in *. rewrite H1, H2. split; [done|].
  unfold build_row in Hb.
  pose proof (forEach_header_length (cell r) headers 0
                {[ "id" := VNum (of_Z (Z.of_nat index + 1)) ]} cols) as Hl.
  by rewrite Hb in Hl.
Qed.

(** After all rows, the type of column [j] is the last type written for
    it, row after row. *)
Lemma map_rows_types headers index rows cols j :
  (j < length headers)%nat →
  (type <$> snd (map_rows cell headers index rows cols)) !! j =
    (fun t0 => last_write t0
                 ((fun r => snd (detectType (cell r j))) <$> rows))
      <$> (type <$> cols) !! j.
Proof.
  intros Hj. revert index cols.
  induction rows as [|r rows IH]; intros index cols; simpl.
  - by destruct ((type <$> cols) !! j).
  - destruct (build_row (cell r) headers index cols) as [row cols1] eqn:Hb.
    destruct (map_rows cell headers (S index) rows cols1)
      as [rows' cols2] eqn:Hm.
    simpl. pose proof (IH (S index) cols1) as IH'. rewrite Hm in IH'.
    simpl in IH'. rewrite IH'.
    unfold build_row in Hb.
    pose proof (forEach_header_types (cell r) headers 0
                  {[ "id" := VNum (of_Z (Z.of_nat index + 1)) ]} cols j)
      as Ht.
    rewrite Hb in Ht. simpl in Ht. rewrite Ht.
    destruct ((type <$> cols) !! j); simpl; [|reflexivity].
    case_decide; [reflexivity | lia].
Qed.
End detection.

Lemma last_write_app t0 ts1 ts2 :
  last_write t0 (ts1 ++ ts2) = last_write (last_write t0 ts1) ts2.
Proof. apply foldl_app. Qed.

Lemma last_write_all_None t0 ts :
  Forall (fun o => o = None) ts → last_write t0 ts = t0.
Proof.
  intros H. revert t0. induction H as [|o ts -> _ IH]; intros t0; simpl.
  - reflexivity.
  - apply IH.
Qed.

(** The type of column [j] after a CSV parse. *)
Lemma parse_csv_type header_line data_lines j col :
  snd (parse_csv header_line data_lines) !! j = Some col →
  type col =
    last_write TString
      ((fun line => snd (detectType (csv_cell line j))) <$> data_lines).
Proof.
  intros Hcol. unfold parse_csv in Hcol.
  set (headers := csv_fields header_line) in *.
  assert (j < length headers)%nat as Hj.
  { apply lookup_lt_Some in Hcol.
    rewrite (proj2 (map_rows_length csv_cell headers 0 data_lines _)) in Hcol.
    by rewrite length_map in Hcol. }
  pose proof (map_rows_types csv_cell headers 0 data_lines
                (map new_column headers) j Hj) as Ht.
  rewrite list_lookup_fmap, Hcol in Ht. simpl in Ht.
  destruct (lookup_lt_is_Some_2 headers j Hj) as [h Hh].
  rewrite list_lookup_fmap in Ht.
  change (map new_column headers) with (new_column <$> headers) in Ht.
  rewrite list_lookup_fmap, Hh in Ht. simpl in Ht. congruence.
Qed.

(** C2 as stated fails: with the header [A] and the data rows [1] and [x],
    the column ends with the type [number], while the rules give the cell of
    the last row the type [string]. *)
Lemma string_cell_does_not_overwrite :
  ¬ (∀ header_line data_lines last_line j col,
       last data_lines = Some last_line →
       snd (parse_csv header_line data_lines) !! j = Some col →
       type col = infer (csv_cell last_line j)).
Proof.
  intros H.
  specialize (H "A" ["1"; "x"] "x" 0%nat
                {| key := "a"; label := "A"; sortable := true;
                   filterable := true; type := TNumber |}).
  vm_compute in H. specialize (H eq_refl eq_refl). discriminate.
Qed.

(** C2 (amended).  After a CSV parse, the type of a column is the type
    detected for its cell in the last data row whose cell passes one of the
    three tests (number, date, currency); a cell that passes none of them
    writes nothing, so the type is [string] when no row has such a cell.  In
    particular the last row decides whenever its cell is not classified as
    [string]. *)
Theorem last_detected_type_wins :
  ∀ header_line data_lines j col,
    snd (parse_csv header_line data_lines) !! j = Some col →
    (∀ before line after t,
       data_lines = (before ++ line :: after)%list →
       snd (detectType (csv_cell line j)) = Some t →
       Forall (fun l => snd (detectType (csv_cell l j)) = None) after →
       type col = t)
    ∧ (Forall (fun l => snd (detectType (csv_cell l j)) = None) data_lines →
       type col = TString)
    ∧ (∀ last_line,
         last data_lines = Some last_line →
         infer (csv_cell last_line j) ≠ TString →
         type col = infer (csv_cell last_line j)).
Proof.
  intros header_line data_lines j col Hcol.
  pose proof (parse_csv_type _ _ _ _ Hcol) as Ht.
  assert (∀ before line after t,
            data_lines = (before ++ line :: after)%list →
            snd (detectType (csv_cell line j)) = Some t →
            Forall (fun l => snd (detectType (csv_cell l j)) = None) after →
            type col = t) as Hlast.
  { intros before line after t -> Hline Hafter.
    rewrite Ht, fmap_app, last_write_app. simpl. rewrite Hline. simpl.
    apply last_write_all_None. by apply Forall_fmap. }
  split; [exact Hlast | split].
  - intros Hall. rewrite Ht. apply last_write_all_None. by apply Forall_fmap.
  - intros last_line Hl Hne.
    apply last_Some in Hl as [before ->].
    unfold infer in *.
    destruct (snd (detectType (csv_cell last_line j))) as [t|] eqn:Hd;
      simpl in *; [|done].
    apply (Hlast before last_line [] t); [reflexivity | exact Hd | constructor].
Qed.

Lemma last_detected_type_wins_witness :
  snd (parse_csv "A" ["$5"; "1"; "x"]) !! 0%nat
    = Some {| key := "a"; label := "A"; sortable := true;
              filterable := true; type := TNumber |}
  ∧ TNumber = infer (csv_cell "1" 0).
Proof.
  split; [vm_compute; reflexivity|].
  refine (proj1 (last_detected_type_wins "A" ["$5"; "1"; "x"] 0%nat
                   {| key := "a"; label := "A"; sortable := true;
                      filterable := true; type := TNumber |} _)
            ["$5"] "1" ["x"] TNumber _ _ _).
  - vm_compute; reflexivity.
  - reflexivity.
  - vm_compute; reflexivity.
  - repeat constructor.
Defined.

(** ** Stored cells *)

Lemma set_property_lookup_ne k k' v (row : record) :
  k ≠ k' → set_property k v row !! k' = row !! k'.
Proof.
  intros Hne. unfold set_property.
  destruct (String.eqb k "__proto__"); [done|]. by apply lookup_insert_ne.
Qed.

Lemma set_property_lookup_eq k v (row : record) :
  k ≠ "__proto__" → set_property k v row !! k = Some v.
Proof.
  intros Hne%String.eqb_neq. unfold set_property. rewrite Hne.
  apply lookup_insert_eq.
Qed.

Lemma set_property_lookup_proto k v (row : record) :
  set_property k v row !! "__proto__" = row !! "__proto__".
Proof.
  unfold set_property. destruct (String.eqb k "__proto__") eqn:E; [done|].
  apply String.eqb_neq in E. by apply lookup_insert_ne.
Qed.

Lemma set_property_dom k v (row : record) :
  dom (set_property k v row)
    = dom row ∪ (if String.eqb k "__proto__" then ∅ else {[k]}).
Proof.
  unfold set_property. destruct (String.eqb k "__proto__").
  - by rewrite (right_id_L ∅ (∪)).
  - by rewrite dom_insert_L, (comm_L (∪)).
Qed.

Section stored_cells.
Context {R : Type} (cell : R -> nat -> string).

(** A key that none of the remaining headers produces is left alone. *)
Lemma forEach_header_lookup_other (c : nat -> string) headers i row cols k :
  Forall (fun h => column_key h ≠ k) headers →
  fst (forEach_header c i headers row cols) !! k = row !! k.
Proof.
  intros H. revert i row cols.
  induction H as [|h hs Hh _ IH]; intros i row cols; simpl.
  - reflexivity.
  - destruct (detectType (c i)) as [v t].
    rewrite IH. by apply set_property_lookup_ne.
Qed.

(** No header stores anything under the name [__proto__]. *)
Lemma forEach_header_lookup_proto (c : nat -> string) headers i row cols :
  fst (forEach_header c i headers row cols) !! "__proto__"
    = row !! "__proto__".
Proof.
  revert i row cols.
  induction headers as [|h hs IH]; intros i row cols; simpl.
  - reflexivity.
  - destruct (detectType (c i)) as [v t].
    rewrite IH. apply set_property_lookup_proto.
Qed.

(** The last header that produces a key other than [__proto__] decides
    the value stored under it: the value its own cell's detection
    yields. *)
Lemma forEach_header_lookup_last (c : nat -> string) headers i row cols
    j h :
  headers !! j = Some h →
  column_key h ≠ "__proto__" →
  (∀ j' h', headers !! j' = Some h' → (j < j')%nat →
            column_key h' ≠ column_key h) →
  fst (forEach_header c i headers row cols) !! column_key h =
    Some (fst (detectType (c (i + j)%nat))).
Proof.
  revert i row cols j.
  induction headers as [|h0 hs IH]; intros i row cols j Hj Hproto Hlater;
    [done|].
  simpl. destruct (detectType (c i)) as [v t] eqn:Hd.
  destruct j as [|j]; simpl in Hj.
  - injection Hj as ->.
    rewrite forEach_header_lookup_other.
    + rewrite set_property_lookup_eq, Nat.add_0_r, Hd by done.
      reflexivity.
    + apply Forall_lookup. intros j' h' Hj'.
      apply (Hlater (S j') h'); [exact Hj' | lia].
  - replace (i + S j)%nat with (S i + j)%nat by lia.
    apply IH; [exact Hj | exact Hproto |].
    intros j' h' Hj' Hlt. apply (Hlater (S j') h'); [exact Hj' | lia].
Qed.

(** Row [n] is built from row [n] of the input alone. *)
Lemma map_rows_lookup headers index rows cols n r :
  rows !! n = Some r →
  fst (map_rows cell headers index rows cols) !! n =
    Some (fst (build_row (cell r) headers (index + n) [])).
Proof.
  revert index cols n.
  induction rows as [|r0 rows IH]; intros index cols n Hn; [done|].
  simpl.
  destruct (build_row (cell r0) headers index cols) as [row cols1] eqn:Hb.
  destruct (map_rows cell headers (S index) rows cols1)
    as [rows' cols2] eqn:Hm.
  destruct n as [|n]; simpl in *.
  - injection Hn as ->. rewrite Nat.add_0_r. f_equal.
    change row with (fst (row, cols1)). rewrite <- Hb.
    apply forEach_header_fst.
  - pose proof (IH (S index) cols1 n Hn) as IH'.
    rewrite Hm in IH'. simpl in IH'. rewrite IH'.
    replace (index + S n)%nat with (S (index + n)) by lia.
    reflexivity.
Qed.
End stored_cells.

(** C5 as stated fails: with the header [A] and the data rows [1] and
    [abc], the column has the type [number] and the second record stores
    the text [abc] under its key, neither a number nor a zero. *)
Lemma cells_are_not_recoerced :
  ¬ (∀ text st, consistent_table (fst (handleFileUpload_csv text st))).
Proof.
  intros H.
  specialize (H ("A" ++ nl ++ "1" ++ nl ++ "abc")%string empty_state
                {| key := "a"; label := "A"; sortable := true;
                   filterable := true; type := TNumber |}
                {[ "id" := VNum (of_Z 2); "a" := VStr "abc" ]}).
  assert (represents TNumber (VStr "abc") = true) as Habs; [|discriminate].
  apply H; vm_compute.
  - apply list_elem_of_here.
  - apply list_elem_of_further, list_elem_of_here.
Qed.

(** C5 (amended).  A CSV parse stores one record per data line and never
    fails.  Under the key of a header (the last header with that key, when
    several share it) a record stores the value that the detection of its
    own cell yields: the parsed number for a numeric cell and for a currency
    cell (after the first dollar sign is dropped), the text unchanged
    otherwise.  The column's final type plays no part.  The one key under
    which nothing is stored is [__proto__]: the assignment to that name
    creates no property. *)
Theorem stored_cell_is_its_own_detection :
  ∀ header_line data_lines n line i header,
    data_lines !! n = Some line →
    csv_fields header_line !! i = Some header →
    (∀ j h', csv_fields header_line !! j = Some h' → (i < j)%nat →
             column_key h' ≠ column_key header) →
    length (fst (parse_csv header_line data_lines)) = length data_lines
    ∧ ∃ item,
        fst (parse_csv header_line data_lines) !! n = Some item
        ∧ item !! column_key header =
            if String.eqb (column_key header) "__proto__" then None
            else Some (fst (detectType (csv_cell line i))).
Proof.
  intros header_line data_lines n line i header Hn Hi Hlast.
  unfold parse_csv. split.
  - apply map_rows_length.
  - eexists. split.
    + apply map_rows_lookup. exact Hn.
    + unfold build_row.
      destruct (String.eqb (column_key header) "__proto__") eqn:E.
      * apply String.eqb_eq in E. rewrite E.
        by rewrite forEach_header_lookup_proto.
      * apply String.eqb_neq in E.
        apply (forEach_header_lookup_last (csv_cell line) _ 0%nat _ _
                 i header); assumption.
Qed.

Lemma stored_cell_is_its_own_detection_witness :
  ∃ item,
    fst (parse_csv "A" ["1"; "abc"]) !! 1%nat = Some item
    ∧ item !! "a" = Some (VStr "abc").
Proof.
  refine (proj2 (stored_cell_is_its_own_detection
                   "A" ["1"; "abc"] 1%nat "abc" 0%nat "A" _ _ _)).
  - reflexivity.
  - reflexivity.
  - intros [|j] h' Hj Hlt; [lia | vm_compute in Hj; discriminate].
Defined.

(** ** Spreadsheet cells *)

(** A truthy cell value reaches the detection in its string form. *)
Lemma excel_cell_truthy (row : list (option Value)) i v :
  row !! i = Some (Some v) → truthy v = true →
  excel_cell row i = trim (ToString v).
Proof. intros Hv Ht. unfold excel_cell. rewrite Hv. by rewrite Ht. Qed.

(** A falsy cell value (a numeric zero, [false], NaN, the empty text)
    reaches the detection as the empty string, like a hole and a missing
    cell. *)
Lemma excel_cell_falsy (row : list (option Value)) i :
  match row !! i with Some (Some v) => truthy v = false | _ => True end →
  excel_cell row i = "".
Proof.
  unfold excel_cell. destruct (row !! i) as [[v|]|]; [|done..].
  by intros ->.
Qed.

(** C8, the code at the failing input.  A sheet with the header [Count]
    and one data row holding the number 0: the record stores the empty
    string and the column keeps the type [string], while the string form of
    the cell, [0], is detected as the number 0. *)
Theorem excel_zero_cell_is_blanked :
  ∀ random st,
    handleFileUpload_excel random
        (Sheet [[Some (VStr "Count")]; [Some (VNum (of_Z 0))]]) st =
      (updateTableData
         [ {| key := "count"; label := "Count"; sortable := true;
              filterable := true; type := TString |} ]
         [ {[ "id" := VNum (of_Z 1); "count" := VStr "" ]} ],
       [])
    ∧ detectType (trim (ToString (VNum (of_Z 0))))
        = (VNum (of_Z 0), Some TNumber).
Proof. intros random st. split; vm_compute; reflexivity. Qed.

(** ** Export *)

(** Outside currency columns, a text value with a comma or a double quote
    is wrapped in double quotes with its double quotes doubled, and any
    other value is exported as it is. *)
Lemma export_cell_plain item col :
  type col ≠ TCurrency →
  export_cell item col =
    match get item (key col) with
    | VStr s =>
        if contains_char "," s || contains_char dquote s
        then VStr (String dquote (double_char dquote s ++ String dquote ""))
        else VStr s
    | v => v
    end.
Proof.
  intros Hty. unfold export_cell.
  destruct (decide (type col = TCurrency)) as [|_]; [done|].
  by destruct (get item (key col)).
Qed.

(** In a currency column a stored number is exported as it is, NaN
    included; any other value is exported as the number at its head, or 0
    when there is none. *)
Lemma export_cell_currency item col :
  type col = TCurrency →
  export_cell item col =
    match get item (key col) with
    | VNum x => VNum x
    | v => parseFloat_or_0 v
    end.
Proof.
  intros Hty. unfold export_cell.
  destruct (decide (type col = TCurrency)) as [_|]; [|done].
  destruct (get item (key col)) as [| |b|x|s]; simpl; try reflexivity;
    unfold parseFloat_or_0; simpl;
    match goal with |- context [parseFloat ?a] =>
      destruct (parseFloat a) as [[]| | |] end; reflexivity.
Qed.

(** The fallback of the currency branch never yields NaN. *)
Lemma parseFloat_or_0_number v :
  ∃ x, parseFloat_or_0 v = VNum x ∧ is_nan x = false.
Proof.
  unfold parseFloat_or_0. simpl.
  destruct (parseFloat (ToString v)) as [s|s| |s m e]; simpl; eauto.
Qed.

(** C9, the code at the failing input.  The file with the header [Price]
    and the single data row [$] gives a currency column whose cell holds
    NaN; the export renders it as [NaN], not as [0]. *)
Theorem export_renders_NaN_amount :
  ∀ st,
    let st' := fst (handleFileUpload_csv ("Price" ++ nl ++ "$")%string st) in
    type <$> columns st' = [TCurrency]
    ∧ data st' = [ {[ "id" := VNum (of_Z 1); "price" := VNum NaN ]} ]
    ∧ downloadAsExcel st' = ("Price" ++ nl ++ "NaN")%string.
Proof. intros st. repeat split; vm_compute; reflexivity. Qed.

(** ** Global filter *)

(** The filter keeps a record exactly when one of its own properties, the
    synthetic [id] included, holds a value other than [null] and
    [undefined] whose string form contains the filter text, both in lower
    case. *)
Lemma item_matches_spec globalFilter (item : record) :
  item_matches globalFilter item = true ↔
  ∃ k v, item !! k = Some v ∧ value_matches globalFilter v = true.
Proof.
  unfold item_matches, Object_values. rewrite existsb_exists. split.
  - intros (v & Hin & Hv). apply list_elem_of_In in Hin.
    apply list_elem_of_fmap in Hin as ([k v'] & -> & Hkv).
    apply elem_of_map_to_list in Hkv. eauto.
  - intros (k & v & Hk & Hv). exists v. split; [|exact Hv].
    apply list_elem_of_In, list_elem_of_fmap. exists (k, v).
    split; [reflexivity|]. by apply elem_of_map_to_list.
Qed.

(** An empty filter text keeps the array itself. *)
Lemma filteredData_empty data : filteredData data "" = data.
Proof. reflexivity. Qed.

Lemma filteredData_spec data globalFilter item :
  globalFilter ≠ "" →
  item ∈ filteredData data globalFilter ↔
  item ∈ data ∧
  ∃ k v, item !! k = Some v ∧ value_matches globalFilter v = true.
Proof.
  intros Hne. unfold filteredData.
  destruct globalFilter as [|c s]; [done|]. simpl.
  rewrite list_elem_of_filter, item_matches_spec. tauto.
Qed.

(** C3, the code at the failing input.  The file with the header [Name]
    and the rows [Alice] and [Bob] has the single column [name]; the filter
    text [2] keeps the second record, whose only column value, [Bob], does
    not contain it: the match is on the record's [id]. *)
Theorem filter_matches_row_identifier :
  ∀ st,
    let st' :=
      fst (handleFileUpload_csv
             ("Name" ++ nl ++ "Alice" ++ nl ++ "Bob")%string st) in
    key <$> columns st' = ["name"]
    ∧ filteredData (data st') "2"
        = [ {[ "id" := VNum (of_Z 2); "name" := VStr "Bob" ]} ]
    ∧ value_matches "2" (VStr "Bob") = false
    ∧ value_matches "2" (VNum (of_Z 2)) = true.
Proof. intros st. repeat split; vm_compute; reflexivity. Qed.

(** ** Pagination *)

(** [slice] between two indices that are not negative. *)
Lemma slice_nonneg {A : Type} (l : list A) (s e : Z) :
  0 <= s → 0 <= e →
  slice s e l = take (Z.to_nat e - Z.to_nat s) (drop (Z.to_nat s) l).
Proof.
  intros Hs He. unfold slice.
  destruct (Z.ltb_spec s 0) as [|_]; [lia|].
  destruct (Z.ltb_spec e 0) as [|_]; [lia|].
  set (len := length l).
  destruct (decide (len ≤ Z.to_nat s)%nat) as [Hge|Hlt].
  - rewrite !drop_ge by lia. by rewrite !take_nil.
  - replace (Z.to_nat (s `min` Z.of_nat len)) with (Z.to_nat s) by lia.
    destruct (decide (Z.to_nat e ≤ len)%nat).
    + f_equal. lia.
    + rewrite !take_ge; [done | rewrite length_drop; lia..].
Qed.

(** A page is the chunk of [itemsPerPage] records that starts after the
    pages before it. *)
Lemma paginatedData_chunk sorted page itemsPerPage :
  0 < itemsPerPage → 1 <= page →
  paginatedData sorted page itemsPerPage =
    take (Z.to_nat itemsPerPage)
      (drop (Z.to_nat (page - 1) * Z.to_nat itemsPerPage) sorted).
Proof.
  intros Hn Hp. unfold paginatedData.
  rewrite slice_nonneg by nia.
  f_equal; [|f_equal]; nia.
Qed.

Lemma chunk_length {A : Type} (l : list A) (n i : nat) :
  length (take n (drop (i * n) l)) = (n `min` (length l - i * n))%nat.
Proof. by rewrite length_take, length_drop. Qed.

(** The first [t] chunks hold the first [t * n] elements between them. *)
Lemma chunks_sum {A : Type} (l : list A) (n t : nat) :
  sum_list_with (fun i => length (take n (drop (i * n) l))) (seq 0 t)
    = ((t * n) `min` length l)%nat.
Proof.
  induction t as [|t IH]; [reflexivity|].
  rewrite seq_S, sum_list_with_app, IH. simpl.
  rewrite chunk_length. lia.
Qed.

(** [totalPages] is the ceiling of the quotient. *)
Lemma totalPages_ceiling sorted itemsPerPage :
  0 < itemsPerPage →
  (totalPages sorted itemsPerPage - 1) * itemsPerPage
    < Z.of_nat (length sorted)
    <= totalPages sorted itemsPerPage * itemsPerPage.
Proof.
  intros Hn. unfold totalPages.
  set (len := Z.of_nat (length sorted)).
  pose proof (Z.div_mod (- len) itemsPerPage ltac:(lia)) as Hdm.
  pose proof (Z.mod_pos_bound (- len) itemsPerPage Hn) as Hb.
  nia.
Qed.

(** ** The sort *)

Section sort_facts.
Context {A : Type} (cmp : A -> A -> Z).

Local Abbreviation ins := (fun placed x => sort_insert cmp x placed).

Lemma sort_insert_perm x placed : sort_insert cmp x placed ≡ₚ x :: placed.
Proof.
  induction placed as [|y placed IH]; simpl; [done|].
  destruct (cmp x y <? 0); [|done].
  rewrite IH. apply Permutation_swap.
Qed.

Lemma foldl_insert_perm l acc : foldl ins acc l ≡ₚ (l ++ acc)%list.
Proof.
  revert acc. induction l as [|x l IH]; intros acc; simpl; [done|].
  rewrite IH, sort_insert_perm. by rewrite Permutation_middle.
Qed.

(** The result holds the same elements. *)
Lemma sort_perm l : sort cmp l ≡ₚ l.
Proof.
  unfold sort. rewrite reverse_Permutation, foldl_insert_perm.
  by rewrite app_nil_r.
Qed.

Lemma sort_length l : length (sort cmp l) = length l.
Proof. by rewrite sort_perm. Qed.

Lemma elem_of_sort x l : x ∈ sort cmp l ↔ x ∈ l.
Proof. by rewrite sort_perm. Qed.

(** Stability: a class of elements of [l0] that never compare below one
    another comes out in the order it went in. *)
Section stable.
Context (P : A → Prop) `{!∀ x, Decision (P x)} (l0 : list A).
Hypothesis class : ∀ x y, x ∈ l0 → y ∈ l0 → P x → P y → ¬ cmp x y < 0.

Lemma filter_sort_insert x placed :
  x ∈ l0 → placed ⊆ l0 →
  filter P (sort_insert cmp x placed) = filter P (x :: placed).
Proof.
  intros Hx Hsub.
  induction placed as [|y placed IH]; simpl; [done|].
  destruct (Z.ltb_spec (cmp x y) 0) as [Hlt|_]; [|done].
  rewrite !filter_cons, IH, !filter_cons
    by (intros z Hz; apply Hsub; by right).
  destruct (decide (P y)) as [Hy|]; [|done].
  destruct (decide (P x)) as [Hx'|]; [|done].
  destruct (class x y Hx (Hsub y ltac:(left)) Hx' Hy Hlt).
Qed.

Lemma filter_foldl_insert l acc :
  l ⊆ l0 → acc ⊆ l0 →
  filter P (foldl ins acc l)
    = (reverse (filter P l) ++ filter P acc)%list.
Proof.
  revert acc. induction l as [|x l IH]; intros acc Hl Hacc; simpl; [done|].
  assert (x ∈ l0) as Hx by (apply Hl; left).
  rewrite IH, filter_sort_insert, !filter_cons; [|done..| |].
  - destruct (decide (P x)); [|done].
    by rewrite reverse_cons, <- app_assoc.
  - intros z Hz. apply Hl. by right.
  - intros z Hz. rewrite sort_insert_perm in Hz.
    apply elem_of_cons in Hz as [->|Hz]; auto.
Qed.

Lemma filter_sort l : l ⊆ l0 → filter P (sort cmp l) = filter P l.
Proof.
  intros Hl. unfold sort.
  rewrite filter_reverse, filter_foldl_insert by (done || set_solver).
  by rewrite app_nil_r, reverse_involutive.
Qed.
End stable.

(** With a consistent comparator the result is sorted, and sorting a
    sorted array changes nothing. *)
Section consistent.
Context (l0 : list A).
Hypothesis consistent : consistent_on cmp l0.

Local Abbreviation le := (fun a b : A => cmp a b <= 0).

Lemma sort_insert_sorted x placed :
  x ∈ l0 → placed ⊆ l0 →
  StronglySorted (flip le) placed →
  StronglySorted (flip le) (sort_insert cmp x placed).
Proof.
  intros Hx Hsub Hs. induction Hs as [|y placed Hs IH Hy]; simpl.
  - repeat constructor.
  - assert (y ∈ l0) as Hy0 by (apply Hsub; left).
    assert (placed ⊆ l0) as Hsub'
      by (intros z Hz; apply Hsub; by right).
    destruct (Z.ltb_spec (cmp x y) 0) as [Hlt|Hge].
    + constructor; [by apply IH|].
      apply Forall_forall. intros z Hz.
      rewrite sort_insert_perm in Hz.
      apply elem_of_cons in Hz as [->|Hz].
      * unfold flip. lia.
      * rewrite Forall_forall in Hy. by apply Hy.
    + constructor; [by constructor|].
      destruct (consistent x y y Hx Hy0 Hy0) as (_ & Hxy & _).
      assert (flip le x y) as Hyx by (unfold flip; lia).
      constructor; [exact Hyx|].
      rewrite Forall_forall in Hy |- *. intros z Hz.
      destruct (consistent z y x (Hsub' z Hz) Hy0 Hx) as (_ & _ & Htr).
      apply Htr; [by apply Hy | exact Hyx].
Qed.

Lemma foldl_insert_sorted l acc :
  l ⊆ l0 → acc ⊆ l0 →
  StronglySorted (flip le) acc →
  StronglySorted (flip le) (foldl ins acc l).
Proof.
  revert acc. induction l as [|x l IH]; intros acc Hl Hacc Hs; simpl;
    [done|].
  assert (x ∈ l0) as Hx by (apply Hl; left).
  apply IH.
  - intros z Hz. apply Hl. by right.
  - intros z Hz. rewrite sort_insert_perm in Hz.
    apply elem_of_cons in Hz as [->|Hz]; auto.
  - by apply sort_insert_sorted.
Qed.

Lemma StronglySorted_reverse (R : relation A) l :
  StronglySorted R l → StronglySorted (flip R) (reverse l).
Proof.
  induction 1 as [|x l Hs IH Hx]; [constructor|].
  rewrite reverse_cons. apply StronglySorted_app_2.
  - intros x1 x2 Hx1 ->%list_elem_of_singleton.
    rewrite elem_of_reverse in Hx1. rewrite Forall_forall in Hx.
    by apply Hx.
  - exact IH.
  - repeat constructor.
Qed.

Lemma sort_sorted l : l ⊆ l0 → StronglySorted le (sort cmp l).
Proof.
  intros Hl. unfold sort.
  apply (StronglySorted_reverse (flip le)).
  apply foldl_insert_sorted; [exact Hl | set_solver | constructor].
Qed.

Lemma foldl_insert_sorted_id l acc :
  l ⊆ l0 → acc ⊆ l0 →
  StronglySorted le (reverse acc ++ l) →
  foldl ins acc l = (reverse l ++ acc)%list.
Proof.
  revert acc. induction l as [|x l IH]; intros acc Hl Hacc Hs; simpl;
    [done|].
  assert (x ∈ l0) as Hx by (apply Hl; left).
  assert (sort_insert cmp x acc = x :: acc) as ->.
  { destruct acc as [|y acc]; [done|]. simpl.
    assert (le y x) as Hyx.
    { apply (StronglySorted_app_1_elem_of _ _ _ _ _ Hs);
        [apply elem_of_reverse|]; left. }
    assert (y ∈ l0) as Hy by (apply Hacc; left).
    destruct (consistent x y y Hx Hy Hy) as (_ & Hxy & _).
    simpl in Hyx.
    destruct (Z.ltb_spec (cmp x y) 0); [lia | done]. }
  rewrite IH.
  - by rewrite reverse_cons, <- app_assoc.
  - intros z Hz. apply Hl. by right.
  - intros z [->|Hz]%elem_of_cons; auto.
  - by rewrite reverse_cons, <- app_assoc.
Qed.

Lemma sort_sorted_id l :
  l ⊆ l0 → StronglySorted le l → sort cmp l = l.
Proof.
  intros Hl Hs. unfold sort.
  rewrite foldl_insert_sorted_id, app_nil_r, ?reverse_involutive;
    [done | done | set_solver | done].
Qed.

(** Sorting twice is sorting once. *)
Lemma sort_idempotent l : l ⊆ l0 → sort cmp (sort cmp l) = sort cmp l.
Proof.
  intros Hl. apply sort_sorted_id; [|by apply sort_sorted].
  intros z Hz. apply Hl. by rewrite elem_of_sort in Hz.
Qed.
End consistent.
(** With a consistent comparator the sorted stable permutation is unique:
    whatever algorithm an engine runs, it returns what [sort] returns. *)
Lemma stable_sorted_unique (l0 l1 l2 : list A) :
  consistent_on cmp l0 → l1 ⊆ l0 →
  l1 ≡ₚ l2 →
  StronglySorted (fun a b => cmp a b <= 0) l1 →
  StronglySorted (fun a b => cmp a b <= 0) l2 →
  (∀ a, a ∈ l1 →
     filter (fun b => cmp a b = 0) l1 = filter (fun b => cmp a b = 0) l2) →
  l1 = l2.
Proof.
  intros Hc. revert l2.
  induction l1 as [|x l1 IH]; intros l2 Hsub Hperm Hs1 Hs2 Hcls.
  { by apply Permutation_nil_l in Hperm. }
  destruct l2 as [|y l2]; [by apply Permutation_nil_r in Hperm|].
  apply StronglySorted_cons in Hs1 as [Hx Hs1].
  apply StronglySorted_cons in Hs2 as [Hy Hs2].
  rewrite Forall_forall in Hx, Hy.
  assert (x ∈ l0) as Hx0 by (apply Hsub; left).
  assert (y ∈ x :: l1) as Hy1 by (rewrite Hperm; left).
  assert (x ∈ y :: l2) as Hx2 by (rewrite <- Hperm; left).
  assert (y ∈ l0) as Hy0 by (by apply Hsub).
  destruct (Hc x y y Hx0 Hy0 Hy0) as (Hxx & Hanti & _).
  assert (cmp x y = 0) as Hxy.
  { apply elem_of_cons in Hy1 as [->|Hy1]; [done|].
    apply elem_of_cons in Hx2 as [->|Hx2]; [done|].
    pose proof (Hx y Hy1). pose proof (Hy x Hx2). lia. }
  assert (x = y) as <-.
  { pose proof (Hcls x ltac:(left)) as Hf.
    rewrite !filter_cons in Hf.
    destruct (decide (cmp x x = 0)); [|done].
    destruct (decide (cmp x y = 0)); [|done].
    by injection Hf. }
  f_equal. apply IH.
  - intros z Hz. apply Hsub. by right.
  - by apply Permutation_cons_inv in Hperm.
  - done.
  - done.
  - intros a Ha. pose proof (Hcls a ltac:(by right)) as Hf.
    rewrite !filter_cons in Hf.
    destruct (decide (cmp a x = 0)); [by injection Hf | done].
Qed.

Lemma sort_unique (l l' : list A) :
  consistent_on cmp l →
  l' ≡ₚ l →
  StronglySorted (fun a b => cmp a b <= 0) l' →
  (∀ a, a ∈ l →
     filter (fun b => cmp a b = 0) l' = filter (fun b => cmp a b = 0) l) →
  l' = sort cmp l.
Proof.
  intros Hc Hperm Hs Hcls.
  apply (stable_sorted_unique l); try done.
  - intros z Hz. by rewrite Hperm in Hz.
  - by rewrite sort_perm.
  - by apply (sort_sorted l).
  - intros a Ha. rewrite Hperm in Ha. rewrite (Hcls a Ha).
    symmetry. apply (filter_sort _ l); [|done].
    intros x y Hx Hy Hax Hay.
    destruct (Hc a x y Ha Hx Hy) as (_ & Hanti & Htr).
    destruct (Hc x a y Hx Ha Hy) as (_ & _ & Htr').
    destruct (Hc y a x Hy Ha Hx) as (_ & Hanti' & Htr'').
    destruct (Hc x y y Hx Hy Hy) as (_ & Hxy & _).
    lia.
Qed.
End sort_facts.

Lemma StronglySorted_change {A : Type} (R R' : relation A) l :
  (∀ a b, a ∈ l → b ∈ l → R a b → R' a b) →
  StronglySorted R l → StronglySorted R' l.
Proof.
  intros Himp Hs. induction Hs as [|x l Hs IH Hx]; constructor.
  - apply IH. intros a b Ha Hb. apply Himp; by right.
  - rewrite Forall_forall in Hx |- *. intros y Hy.
    apply Himp; [left | by right | by apply Hx].
Qed.

Lemma consistentb_spec {A : Type} (cmp : A -> A -> Z) (l : list A) :
  consistentb cmp l = true → consistent_on cmp l.
Proof.
  unfold consistentb. rewrite forallb_forall. intros H a b c Ha Hb Hc.
  apply list_elem_of_In in Ha, Hb, Hc.
  specialize (H a Ha). rewrite forallb_forall in H.
  specialize (H b Hb). rewrite forallb_forall in H.
  specialize (H c Hc).
  apply andb_prop in H as [H Htr]. apply andb_prop in H as [Hr Hs].
  apply Z.eqb_eq in Hr, Hs. repeat split; [done..|].
  intros Hab Hbc.
  apply Z.leb_le in Hab, Hbc. rewrite Hab, Hbc in Htr. simpl in Htr.
  by apply Z.leb_le.
Qed.

(** ** Strict equality and the comparison function *)

Lemma SFeqb_finite s m e s' m' e' :
  SFeqb (S754_finite s m e) (S754_finite s' m' e') = true →
  s = s' ∧ m = m' ∧ e = e'.
Proof.
  unfold SFeqb. simpl.
  change (Pos.compare_cont Eq m m') with (Pos.compare m m').
  destruct s, s'; try discriminate;
    destruct (Z.compare_spec e e'); try discriminate;
    destruct (Pos.compare_spec m m'); try discriminate; by subst.
Qed.

Lemma SFeqb_finite_refl s m e :
  SFeqb (S754_finite s m e) (S754_finite s m e) = true.
Proof.
  unfold SFeqb. simpl.
  change (Pos.compare_cont Eq m m) with (Pos.compare m m).
  rewrite Z.compare_refl, Pos.compare_refl. by destruct s.
Qed.

(** Two numbers equal to a third are equal to each other. *)
Lemma num_eqb_class x y v :
  num_eqb x v = true → num_eqb y v = true → num_eqb x y = true.
Proof.
  unfold num_eqb.
  destruct x as [sx|sx| |sx mx ex], v as [sv|sv| |sv mv ev],
           y as [sy|sy| |sy my ey];
    intros H1 H2; try reflexivity; try discriminate;
    try (apply SFeqb_finite in H1 as (-> & -> & ->));
    try (apply SFeqb_finite in H2 as (-> & -> & ->));
    try apply SFeqb_finite_refl;
    repeat match goal with s : bool |- _ => destruct s end;
    try reflexivity; discriminate.
Qed.

Lemma strict_eq_class a b v :
  strict_eq a v = true → strict_eq b v = true → strict_eq a b = true.
Proof.
  destruct a as [| |x|x|x], v as [| |z|z|z]; simpl; try done;
    destruct b as [| |y|y|y]; simpl; try done.
  - intros ->%Bool.eqb_prop ->%Bool.eqb_prop. by destruct z.
  - apply num_eqb_class.
  - intros ->%String.eqb_eq ->%String.eqb_eq. apply String.eqb_refl.
Qed.

Lemma compareFn_zero k d a b :
  compareFn k d a b = 0 ↔ strict_eq (get a k) (get b k) = true.
Proof.
  unfold compareFn.
  destruct (strict_eq (get a k) (get b k)); [done|].
  destruct (gt (get a k) (get b k)), d; split; (lia || done).
Qed.

(** The descending comparison is the negated ascending one. *)
Lemma compareFn_desc k a b : compareFn k desc a b = - compareFn k asc a b.
Proof.
  unfold compareFn.
  destruct (strict_eq (get a k) (get b k)); [done|].
  by destruct (gt (get a k) (get b k)).
Qed.

Lemma consistent_on_desc k l :
  consistent_on (compareFn k asc) l → consistent_on (compareFn k desc) l.
Proof.
  intros H a b c Ha Hb Hc. rewrite !compareFn_desc.
  destruct (H a b c Ha Hb Hc) as (Hr & Hab & _).
  destruct (H c b a Hc Hb Ha) as (_ & Hcb & Htr).
  destruct (H a c c Ha Hc Hc) as (_ & Hac & _).
  destruct (H b a a Hb Ha Ha) as (_ & Hba & _).
  repeat split; lia.
Qed.

Lemma consistent_on_direction k d l :
  consistent_on (compareFn k asc) l → consistent_on (compareFn k d) l.
Proof. destruct d; [done | apply consistent_on_desc]. Qed.

Lemma sortedData_sort l k d :
  k ≠ "" → sortedData l (sort_by k d) = sort (compareFn k d) l.
Proof. intros Hk. unfold sortedData, active_key. simpl. by destruct k. Qed.

(** Sorting keeps the records, whatever the configuration. *)
Lemma sortedData_perm l cfg : sortedData l cfg ≡ₚ l.
Proof.
  unfold sortedData. destruct (active_key cfg); [apply sort_perm | done].
Qed.

(** The records with a given value keep their order. *)
Lemma sort_stable k d v l :
  with_value k v (sort (compareFn k d) l) = with_value k v l.
Proof.
  unfold with_value. apply (filter_sort _ _ l); [|done].
  intros x y _ _ Hx Hy. pose proof (strict_eq_class _ _ _ Hx Hy) as Hxy.
  apply compareFn_zero with (d := d) in Hxy. lia.
Qed.

(** On pairwise distinct values, descending is ascending reversed. *)
Lemma sort_desc_reverse k l :
  consistent_on (compareFn k asc) l → distinct_on k l →
  sort (compareFn k desc) l = reverse (sort (compareFn k asc) l).
Proof.
  intros Hc Hd.
  apply (StronglySorted_unique_strong (fun a b => compareFn k desc a b <= 0)).
  - intros x1 x2 Hx1 Hx2 H12 H21.
    rewrite elem_of_sort in Hx1. rewrite elem_of_reverse, elem_of_sort in Hx2.
    destruct (consistent_on_desc k l Hc x1 x2 x2 Hx1 Hx2 Hx2)
      as (_ & Hanti & _).
    assert (compareFn k desc x1 x2 = 0) as Hz by lia.
    apply compareFn_zero in Hz.
    apply list_elem_of_lookup in Hx1 as [i Hi].
    apply list_elem_of_lookup in Hx2 as [j Hj].
    pose proof (Hd i j x1 x2 Hi Hj Hz) as ->. congruence.
  - apply (sort_sorted _ l); [by apply consistent_on_desc | done].
  - apply (StronglySorted_change
             (flip (fun a b => compareFn k asc a b <= 0))).
    + intros a b Ha Hb Hab. unfold flip in Hab.
      rewrite elem_of_reverse, elem_of_sort in Ha, Hb.
      destruct (Hc a b b Ha Hb Hb) as (_ & Hanti & _).
      rewrite compareFn_desc. lia.
    + apply StronglySorted_reverse, (sort_sorted _ l); done.
  - by rewrite reverse_Permutation, !sort_perm.
Qed.

(** ** Orders that make the comparison consistent *)

Lemma num_ltb_rank x y :
  is_nan x = false → is_nan y = false →
  (num_ltb x y = true ↔ lex_lt (rank x) (rank y)).
Proof.
  unfold num_ltb, SFltb, lex_lt.
  destruct x as [sx|sx| |sx mx ex], y as [sy|sy| |sy my ey];
    try discriminate; intros _ _; simpl;
    repeat match goal with s : bool |- _ => destruct s end; simpl;
    try (split; [discriminate | lia]);
    try (split; [lia | reflexivity]);
    try (split; [intros _; lia | reflexivity]);
    change (Pos.compare_cont Eq mx my) with (Pos.compare mx my);
    destruct (Z.compare_spec ex ey); destruct (Pos.compare_spec mx my);
    simpl; split; intros; try reflexivity; try discriminate; try lia.
Qed.

Lemma num_eqb_rank x y :
  is_nan x = false → is_nan y = false →
  (num_eqb x y = true ↔ rank x = rank y).
Proof.
  unfold num_eqb, SFeqb.
  destruct x as [sx|sx| |sx mx ex], y as [sy|sy| |sy my ey];
    try discriminate; intros _ _; simpl;
    repeat match goal with s : bool |- _ => destruct s end; simpl;
    try (split; [discriminate | intros [=]; lia]);
    try (split; reflexivity);
    try (split; [intros _; congruence | reflexivity]);
    change (Pos.compare_cont Eq mx my) with (Pos.compare mx my);
    destruct (Z.compare_spec ex ey); destruct (Pos.compare_spec mx my);
    simpl; split; intros; try reflexivity; try discriminate;
    try (subst; reflexivity); try (simplify_eq; lia).
Qed.

Lemma lex_lt_irrefl a : ¬ lex_lt a a.
Proof. destruct a as [[a1 a2] a3]. unfold lex_lt. lia. Qed.

Lemma lex_lt_trans a b c : lex_lt a b → lex_lt b c → lex_lt a c.
Proof.
  destruct a as [[a1 a2] a3], b as [[b1 b2] b3], c as [[c1 c2] c3].
  unfold lex_lt. lia.
Qed.

Lemma lex_lt_total a b : a = b ∨ lex_lt a b ∨ lex_lt b a.
Proof.
  destruct a as [[a1 a2] a3], b as [[b1 b2] b3]. unfold lex_lt.
  destruct (Z.lt_total a1 b1) as [|[->|]]; [lia| |lia].
  destruct (Z.lt_total a2 b2) as [|[->|]]; [lia| |lia].
  destruct (Z.lt_total a3 b3) as [|[->|]]; [lia| |lia]. by left.
Qed.

Lemma code_inj a b : code a = code b → a = b.
Proof.
  unfold code. intros H.
  by rewrite <- (ascii_N_embedding a), <- (ascii_N_embedding b), H.
Qed.

Lemma str_ltb_irrefl s : str_ltb s s = false.
Proof.
  induction s as [|c s IH]; [done|]. simpl.
  destruct (N.ltb_spec (code c) (code c)); [lia | done].
Qed.

Lemma str_ltb_trans s t u :
  str_ltb s t = true → str_ltb t u = true → str_ltb s u = true.
Proof.
  revert t u. induction s as [|a s IH]; intros [|b t] [|c u]; simpl;
    try done.
  destruct (N.ltb_spec (code a) (code b)), (N.ltb_spec (code b) (code c)),
    (N.ltb_spec (code b) (code a)), (N.ltb_spec (code c) (code b)),
    (N.ltb_spec (code a) (code c)), (N.ltb_spec (code c) (code a));
    try done; try lia.
  apply IH.
Qed.

Lemma str_ltb_total s t : s = t ∨ str_ltb s t = true ∨ str_ltb t s = true.
Proof.
  revert t. induction s as [|a s IH]; intros [|b t]; simpl; auto.
  destruct (N.ltb_spec (code a) (code b)); [auto|].
  destruct (N.ltb_spec (code b) (code a)); [auto|].
  assert (a = b) as -> by (apply code_inj; lia).
  destruct (IH t) as [->|[|]]; auto.
Qed.

Section order.
Context {X : Type} (lt : X → X → Prop).
Hypothesis lt_irrefl : ∀ x, ¬ lt x x.
Hypothesis lt_trans : ∀ x y z, lt x y → lt y z → lt x z.
Hypothesis lt_total : ∀ x y, x = y ∨ lt x y ∨ lt y x.

(** A key whose values are read in a strict total order: equal values
    are equal keys, a greater value is a greater key. *)
Lemma consistent_on_order (f : record → X) k (l : list record) :
  (∀ a b, a ∈ l → b ∈ l →
     (strict_eq (get a k) (get b k) = true ↔ f a = f b)
     ∧ (gt (get a k) (get b k) = true ↔ lt (f b) (f a))) →
  consistent_on (compareFn k asc) l.
Proof.
  intros H.
  assert (∀ a b, a ∈ l → b ∈ l →
            (compareFn k asc a b = 0 ∧ f a = f b)
            ∨ (compareFn k asc a b = 1 ∧ lt (f b) (f a))
            ∨ (compareFn k asc a b = -1 ∧ lt (f a) (f b))) as Hcases.
  { intros a b Ha Hb. destruct (H a b Ha Hb) as [Heq Hgt].
    unfold compareFn.
    destruct (strict_eq (get a k) (get b k)).
    - left. split; [done | by apply Heq].
    - destruct (gt (get a k) (get b k)).
      + right; left. split; [done | by apply Hgt].
      + right; right. split; [done|].
        destruct (lt_total (f a) (f b)) as [Hab|[Hab|Hab]]; [|done|].
        * apply Heq in Hab. discriminate.
        * apply Hgt in Hab. discriminate. }
  intros a b c Ha Hb Hc.
pose proof (Hcases a a Ha Ha) as Haa.
pose proof (Hcases a b Ha Hb) as Hab.
pose proof (Hcases b a Hb Ha) as Hba.
pose proof (Hcases b c Hb Hc) as Hbc.
pose proof (Hcases a c Ha Hc) as Hac.
clear Hcases H.
generalize dependent (compareFn k asc a a).
generalize dependent (compareFn k asc a b).
generalize dependent (compareFn k asc b a).
generalize dependent (compareFn k asc b c).
generalize dependent (compareFn k asc a c).
generalize dependent (f a). generalize dependent (f b).
generalize dependent (f c).
intros z y x ac Hac bc Hbc ba Hba ab Hab aa Haa.
destruct Haa as [[-> _]|[[_ Haa]|[_ Haa]]];
  try (destruct (lt_irrefl _ Haa)).
destruct Hab as [[-> Eab]|[[-> Eab]|[-> Eab]]],
         Hba as [[-> Eba]|[[-> Eba]|[-> Eba]]],
         Hbc as [[-> Ebc]|[[-> Ebc]|[-> Ebc]]],
         Hac as [[-> Eac]|[[-> Eac]|[-> Eac]]];
  repeat split; try lia; exfalso; subst;
  solve [ eapply lt_irrefl; eauto 4 using lt_trans ].
Qed.
End order.

(** A column of text is ordered consistently. *)
Lemma all_text_consistent k (l : list record) :
  (∀ a, a ∈ l → ∃ s, get a k = VStr s) →
  consistent_on (compareFn k asc) l.
Proof.
  intros Htext.
  apply (consistent_on_order (fun s t => str_ltb s t = true))
    with (f := fun a => match get a k with VStr s => s | _ => "" end).
  - intros x Hx. by rewrite str_ltb_irrefl in Hx.
  - apply str_ltb_trans.
  - apply str_ltb_total.
  - intros a b Ha Hb.
    destruct (Htext a Ha) as [s ->], (Htext b Hb) as [t ->]. simpl.
    split; [apply String.eqb_eq | done].
Qed.

(** A column of numbers without NaN is ordered consistently. *)
Lemma all_numbers_consistent k (l : list record) :
  (∀ a, a ∈ l → ∃ x, get a k = VNum x ∧ is_nan x = false) →
  consistent_on (compareFn k asc) l.
Proof.
  intros Hnum.
  apply (consistent_on_order lex_lt)
    with (f := fun a => match get a k with
                        | VNum x => rank x
                        | _ => (0, 0, 0)
                        end).
  - apply lex_lt_irrefl.
  - apply lex_lt_trans.
  - apply lex_lt_total.
  - intros a b Ha Hb.
    destruct (Hnum a Ha) as (x & -> & Hx), (Hnum b Hb) as (y & -> & Hy).
    simpl. split; [by apply num_eqb_rank | by apply num_ltb_rank].
Qed.

Lemma distinctb_spec k l : distinctb k l = true → distinct_on k l.
Proof.
  induction l as [|a l IH]; intros Hd i j x y Hi Hj Heq; [done|].
  simpl in Hd. apply andb_prop in Hd as [Ha Hl].
  rewrite forallb_forall in Ha.
  assert (∀ n b, l !! n = Some b →
            strict_eq (get a k) (get b k) = false
            ∧ strict_eq (get b k) (get a k) = false) as Hhead.
  { intros n b Hb. apply list_elem_of_lookup_2, list_elem_of_In in Hb.
    specialize (Ha b Hb). apply andb_prop in Ha as [H1 H2].
    by rewrite negb_true_iff in H1, H2. }
  destruct i as [|i], j as [|j]; simpl in Hi, Hj; simplify_eq.
  - reflexivity.
  - destruct (Hhead j y Hj). congruence.
  - destruct (Hhead i x Hi). congruence.
  - f_equal. by apply (IH Hl i j x y).
Qed.

(** C4 as stated fails: the file with the header [A] and the rows [$] and
    [1] gives the records with NaN and 1 under [a]; it is not the case that
    in both directions sorting the sorted records again leaves their order
    as it is.  (The comparison returns -1 for NaN against 1 and for 1
    against NaN.) *)
Lemma resort_changes_order_with_NaN :
  ¬ (∀ (l : list record) k d,
       k ≠ "" →
       sortedData (sortedData l (sort_by k d)) (sort_by k d)
         = sortedData l (sort_by k d)).
Proof.
  intros H.
  pose proof (H (fst (parse_csv "A" ["$"; "1"])) "a" asc
                ltac:(discriminate)) as Hasc.
  apply (f_equal (fmap (fun r => ToString (get r "a")))) in Hasc.
  vm_compute in Hasc. discriminate.
Qed.

(** C4 (amended).  Take a key and records whose values under it the
    comparison orders consistently (each value equals itself, and for any
    two either they are equal or exactly one is greater, transitively: for
    instance all text, or all numbers other than NaN).  Then in both
    directions the records with a given value keep their relative order,
    sorting the sorted records again by the same key and direction changes
    nothing, and when the values are pairwise distinct the descending order
    is exactly the reverse of the ascending one. *)
Theorem sort_is_stable_and_reversible :
  ∀ (l : list record) k,
    k ≠ "" →
    consistent_on (compareFn k asc) l →
    (∀ d v,
       with_value k v (sortedData l (sort_by k d)) = with_value k v l)
    ∧ (∀ d,
         sortedData (sortedData l (sort_by k d)) (sort_by k d)
           = sortedData l (sort_by k d))
    ∧ (distinct_on k l →
         sortedData l (sort_by k desc)
           = reverse (sortedData l (sort_by k asc))).
Proof.
  intros l k Hk Hc. repeat split.
  - intros d v. rewrite sortedData_sort by done. apply sort_stable.
  - intros d. rewrite !sortedData_sort by done.
    apply (sort_idempotent _ l); [by apply consistent_on_direction | done].
  - intros Hd. rewrite !sortedData_sort by done. by apply sort_desc_reverse.
Qed.

Lemma sort_is_stable_and_reversible_witness :
  let l := fst (parse_csv "A,B" ["3,x"; "1,y"; "2,z"]) in
  with_value "a" (VNum (of_Z 2)) (sortedData l (sort_by "a" desc))
    = with_value "a" (VNum (of_Z 2)) l
  ∧ sortedData (sortedData l (sort_by "a" asc)) (sort_by "a" asc)
      = sortedData l (sort_by "a" asc)
  ∧ sortedData l (sort_by "a" desc)
      = reverse (sortedData l (sort_by "a" asc)).
Proof.
  pose proof (sort_is_stable_and_reversible
                (fst (parse_csv "A,B" ["3,x"; "1,y"; "2,z"])) "a"
                ltac:(discriminate)
                (consistentb_spec (compareFn "a" asc)
                   (fst (parse_csv "A,B" ["3,x"; "1,y"; "2,z"]))
                   ltac:(vm_compute; reflexivity)))
    as (Hstable & Hidem & Hrev).
  split; [apply Hstable | split; [apply Hidem | apply Hrev]].
  apply distinctb_spec. vm_compute. reflexivity.
Defined.

(** ** The view *)

Lemma seqZ_pages (t : nat) :
  seqZ 1 (Z.of_nat t) = (fun i => Z.of_nat i + 1) <$> seq 0 t.
Proof. unfold seqZ. by rewrite Nat2Z.id. Qed.

Lemma sum_list_with_fmap {A B : Type} (f : B → nat) (g : A → B) l :
  sum_list_with f (g <$> l) = sum_list_with (f ∘ g) l.
Proof. induction l as [|x l IH]; csimpl; [done | by rewrite IH]. Qed.

Lemma sum_list_with_ext {A : Type} (f g : A → nat) l :
  (∀ x, f x = g x) → sum_list_with f l = sum_list_with g l.
Proof.
  intros H. induction l as [|x l IH]; simpl; [done | by rewrite H, IH].
Qed.

(** C6.  For a page size and a page number that are positive: the rows of
    the view are the records of the filtered and sorted sequence from index
    [(page - 1) * pageSize] up to, not including, [page * pageSize], and
    there are none on a page beyond the last; the number of matches is the
    number of records after filtering; the number of pages is the ceiling
    of matches over page size (0 when nothing matches); the pages 1 to the
    last hold as many rows as there are matches; and every page before the
    last is full. *)
Theorem view_pagination :
  ∀ st itemsPerPage,
    0 < itemsPerPage → 1 <= currentPage st →
    let filtered := filteredData (data st) (globalFilter st) in
    let sorted := sortedData filtered (sortConfig st) in
    let v := query st itemsPerPage in
    rows v =
      take (Z.to_nat itemsPerPage)
        (drop (Z.to_nat ((currentPage st - 1) * itemsPerPage)) sorted)
    ∧ (pages v < currentPage st → rows v = [])
    ∧ totalMatched v = Z.of_nat (length filtered)
    ∧ (pages v - 1) * itemsPerPage < totalMatched v
        <= pages v * itemsPerPage
    ∧ (totalMatched v = 0 → pages v = 0)
    ∧ Z.of_nat
        (sum_list_with
           (fun page => length (paginatedData sorted page itemsPerPage))
           (seqZ 1 (pages v)))
        = totalMatched v
    ∧ (∀ page, 1 <= page < pages v →
         Z.of_nat (length (paginatedData sorted page itemsPerPage))
           = itemsPerPage).
Proof.
  intros st n Hn Hp filtered sorted v.
  pose proof (totalPages_ceiling sorted n Hn) as Hceil.
  assert (rows v = paginatedData sorted (currentPage st) n) as Hrows
    by reflexivity.
  assert (pages v = totalPages sorted n) as Hpages by reflexivity.
  assert (totalMatched v = Z.of_nat (length sorted)) as Hmatched
    by reflexivity.
  rewrite Hrows, Hpages, Hmatched. clear Hrows Hpages Hmatched v.
  set (t := totalPages sorted n) in *.
  assert (0 <= t) as Ht by nia.
  split; [|split; [|split; [|split; [|split; [|split]]]]].
  - rewrite paginatedData_chunk by done. do 2 f_equal. nia.
  - intros Hbeyond. rewrite paginatedData_chunk by done.
    rewrite drop_ge; [apply take_nil | nia].
  - f_equal. subst sorted. by rewrite sortedData_perm.
  - exact Hceil.
  - nia.
  - rewrite <- (Z2Nat.id t Ht), seqZ_pages, sum_list_with_fmap.
    rewrite (sum_list_with_ext _
               (fun i => length (take (Z.to_nat n)
                                   (drop (i * Z.to_nat n) sorted)))).
    + rewrite chunks_sum. nia.
    + intros i. simpl. rewrite paginatedData_chunk by lia.
      do 3 f_equal. lia.
  - intros page Hpage. rewrite paginatedData_chunk by lia.
    rewrite length_take, length_drop. nia.
Qed.

Lemma view_pagination_witness :
  let st := {| data := scenario_records;
               columns := scenario_columns TNumber;
               currentPage := 2;
               sortConfig := {| sortKey := None; direction := asc |};
               globalFilter := "";
               visibleColumns := ∅ |} in
  rows (query st 1) = drop 1 scenario_records
  ∧ pages (query st 1) = 2
  ∧ totalMatched (query st 1) = 2.
Proof.
  pose proof (view_pagination
                {| data := scenario_records;
                   columns := scenario_columns TNumber;
                   currentPage := 2;
                   sortConfig := {| sortKey := None; direction := asc |};
                   globalFilter := "";
                   visibleColumns := ∅ |} 1 ltac:(lia) ltac:(simpl; lia))
    as (Hrows & _ & Hmatched & Hceil & _).
  simpl in *. split; [exact Hrows | split; [lia | exact Hmatched]].
Defined.

(** ** The pipeline and the store *)

Lemma preserves_refl σ : preserves σ σ.
Proof. by split. Qed.

Lemma preserves_trans σ1 σ2 σ3 :
  preserves σ1 σ2 → preserves σ2 σ3 → preserves σ1 σ3.
Proof.
  intros [Ho1 Ha1] [Ho2 Ha2]. split; [congruence|].
  intros a Ha. rewrite Ha2, Ha1; [done..|]. by rewrite Ha1.
Qed.

Lemma fresh_not_allocated σ :
  arrays σ !! fresh (dom (arrays σ)) = None.
Proof. apply not_elem_of_dom, is_fresh. Qed.

(** Allocation touches no array that exists. *)
Lemma alloc_array_spec xs σ :
  let '(a, σ') := alloc_array xs σ in
  arrays σ !! a = None
  ∧ arrays σ' = <[a := xs]> (arrays σ)
  ∧ objects σ' = objects σ
  ∧ preserves σ σ'.
Proof.
  unfold alloc_array. simpl.
  pose proof (fresh_not_allocated σ) as Hf.
  repeat split; [done|]. simpl.
  intros a [ys Ha]. apply lookup_insert_ne. congruence.
Qed.

Lemma contents_preserved σ σ' a :
  preserves σ σ' → is_Some (arrays σ !! a) → contents σ' a = contents σ a.
Proof.
  intros [Ho Ha] Hs. unfold contents, read_array, deref.
  by rewrite Ho, (Ha a Hs).
Qed.

Lemma deref_preserved σ σ' o : preserves σ σ' → deref σ' o = deref σ o.
Proof. intros [Ho _]. unfold deref. by rewrite Ho. Qed.

Lemma contents_of_insert σ σ' a xs m :
  arrays σ' = <[a := xs]> m → objects σ' = objects σ →
  contents σ' a = deref σ <$> xs.
Proof.
  intros Ha Ho. unfold contents, read_array.
  rewrite Ha, lookup_insert_eq. simpl.
  apply list_fmap_ext. intros. unfold deref. by rewrite Ho.
Qed.

(** The pure functions commute with reading the row objects. *)
Lemma filter_deref {A : Type} (f : A → record) (p : record → bool)
    (l : list A) :
  f <$> filter (fun o => p (f o) = true) l
    = filter (fun r => p r = true) (f <$> l).
Proof.
  induction l as [|x l IH]; [done|].
  rewrite fmap_cons, !filter_cons. destruct (decide (p (f x) = true)).
  - by rewrite fmap_cons, IH.
  - exact IH.
Qed.

Lemma sort_insert_fmap {A B : Type} (f : A → B) (cmp : B → B → Z) x
    (placed : list A) :
  f <$> sort_insert (fun a b => cmp (f a) (f b)) x placed
    = sort_insert cmp (f x) (f <$> placed).
Proof.
  induction placed as [|y placed IH]; [done|]. simpl.
  destruct (cmp (f x) (f y) <? 0); [|done].
  by rewrite fmap_cons, IH.
Qed.

Lemma sort_fmap {A B : Type} (f : A → B) (cmp : B → B → Z) (l : list A) :
  f <$> sort (fun a b => cmp (f a) (f b)) l = sort cmp (f <$> l).
Proof.
  unfold sort. rewrite fmap_reverse. f_equal.
  change [] with (f <$> @nil A) at 2. generalize (@nil A).
  induction l as [|x l IH]; intros acc; [done|]. simpl.
  by rewrite IH, sort_insert_fmap.
Qed.

Lemma slice_fmap {A B : Type} (f : A → B) s e (l : list A) :
  f <$> slice s e l = slice s e (f <$> l).
Proof. unfold slice. by rewrite fmap_take, fmap_drop, length_fmap. Qed.

Lemma filteredData_st_spec data globalFilter σ :
  is_Some (arrays σ !! data) →
  refines (filteredData_st data globalFilter) σ
    (fun filtered σ' =>
       is_Some (arrays σ' !! filtered)
       ∧ contents σ' filtered = filteredData (contents σ data) globalFilter).
Proof.
  intros Hdata. unfold refines, filteredData_st, filteredData.
  destruct (is_empty globalFilter).
  - simpl. split; [apply preserves_refl | done].
  - unfold array_filter.
    pose proof (alloc_array_spec
      (filter (fun o => item_matches globalFilter (deref σ o) = true)
              (read_array σ data)) σ) as Hspec.
    destruct (alloc_array _ σ) as [a σ'].
    destruct Hspec as (Hnone & Harr & Hobj & Hpres).
    split; [done|]. split.
    + rewrite Harr, lookup_insert_eq. eauto.
    + rewrite (contents_of_insert σ σ' a _ _ Harr Hobj).
      apply filter_deref.
Qed.

Lemma sortedData_st_spec filtered cfg σ :
  is_Some (arrays σ !! filtered) →
  refines (sortedData_st filtered cfg) σ
    (fun sorted σ' =>
       is_Some (arrays σ' !! sorted)
       ∧ contents σ' sorted = sortedData (contents σ filtered) cfg).
Proof.
  intros Hf. unfold refines, sortedData_st, sortedData.
  destruct (active_key cfg) as [k|].
  - unfold mbind, M_bind, array_spread.
    pose proof (alloc_array_spec (read_array σ filtered) σ) as Hspec.
    destruct (alloc_array _ σ) as [copy σ1].
    destruct Hspec as (Hnone & Harr & Hobj & Hpres).
    unfold array_sort. simpl. split; [split|split]; simpl.
    + exact Hobj.
    + intros a Ha. rewrite lookup_insert_ne.
      * by apply Hpres.
      * intros ->. destruct Ha as [? Ha]. congruence.
    + rewrite lookup_insert_eq. eauto.
    + rewrite (contents_of_insert σ1 _ copy _ (arrays σ1)) by done.
      rewrite (sort_fmap (deref σ1)). f_equal.
      unfold read_array at 1. rewrite Harr, lookup_insert_eq. simpl.
      apply list_fmap_ext. intros; by apply deref_preserved.
  - simpl. split; [apply preserves_refl | done].
Qed.

Lemma paginatedData_st_spec sorted page n σ :
  refines (paginatedData_st sorted page n) σ
    (fun rows σ' =>
       contents σ' rows = paginatedData (contents σ sorted) page n).
Proof.
  unfold refines, paginatedData_st, paginatedData, array_slice.
  pose proof (alloc_array_spec
    (slice ((page - 1) * n) ((page - 1) * n + n) (read_array σ sorted)) σ)
    as Hspec.
  destruct (alloc_array _ σ) as [a σ'].
  destruct Hspec as (Hnone & Harr & Hobj & Hpres).
  split; [done|].
  rewrite (contents_of_insert σ σ' a _ _ Harr Hobj).
  apply slice_fmap.
Qed.

(** One render computes what the functions on lists compute from the
    records of [data]. *)
Lemma pipeline_st_spec data globalFilter cfg page n σ :
  is_Some (arrays σ !! data) →
  refines (pipeline_st data globalFilter cfg page n) σ
    (fun '(sorted, rows) σ' =>
       let pure :=
         sortedData (filteredData (contents σ data) globalFilter) cfg in
       contents σ' sorted = pure
       ∧ contents σ' rows = paginatedData pure page n).
Proof.
  intros Hdata. unfold refines, pipeline_st, mbind, M_bind, mret, M_ret.
  pose proof (filteredData_st_spec data globalFilter σ Hdata) as H1.
  unfold refines in H1.
  destruct (filteredData_st data globalFilter σ) as [filtered σ1].
  destruct H1 as (Hp1 & Hf & Hc1).
  pose proof (sortedData_st_spec filtered cfg σ1 Hf) as H2.
  unfold refines in H2.
  destruct (sortedData_st filtered cfg σ1) as [sorted σ2].
  destruct H2 as (Hp2 & Hs & Hc2).
  pose proof (paginatedData_st_spec sorted page n σ2) as H3.
  unfold refines in H3.
  destruct (paginatedData_st sorted page n σ2) as [rows σ3].
  destruct H3 as (Hp3 & Hc3).
  split; [eauto using preserves_trans|].
  rewrite Hc3, (contents_preserved σ2 σ3) by done.
  by rewrite Hc2, Hc1.
Qed.

(** C10.  Computing a view leaves the table as it was: the array [data]
    holds the same row objects in the same order, every row object has the
    fields it had, and so has every other array that existed.  The sort
    works on the copy made by the spread. *)
Theorem pipeline_leaves_table_unchanged :
  ∀ σ data globalFilter cfg page itemsPerPage,
    is_Some (arrays σ !! data) →
    let σ' :=
      snd (pipeline_st data globalFilter cfg page itemsPerPage σ) in
    arrays σ' !! data = arrays σ !! data
    ∧ objects σ' = objects σ
    ∧ contents σ' data = contents σ data
    ∧ ∀ a, is_Some (arrays σ !! a) → arrays σ' !! a = arrays σ !! a.
Proof.
  intros σ data globalFilter cfg page n Hdata σ'.
  pose proof (pipeline_st_spec data globalFilter cfg page n σ Hdata) as H.
  unfold refines in H. subst σ'.
  destruct (pipeline_st data globalFilter cfg page n σ) as [[sorted rows] σ'].
  destruct H as (Hpres & _). simpl.
  pose proof Hpres as [Hobj Harr].
  repeat split; auto using contents_preserved.
Qed.

Lemma pipeline_leaves_table_unchanged_witness :
  let σ' :=
    snd (pipeline_st 1%positive "" (sort_by "a" asc) 1 10 example_store) in
  arrays σ' !! 1%positive = Some [1%positive; 2%positive]
  ∧ objects σ' = objects example_store.
Proof.
  pose proof (pipeline_leaves_table_unchanged example_store 1%positive ""
                (sort_by "a" asc) 1 10 (mk_is_Some _ _ eq_refl))
    as (Harr & Hobj & _).
  split; [exact Harr | exact Hobj].
Defined.

(** The sort does reorder the array it is given: in the same store the
    render finds the records in ascending order in the copy, and without
    the spread the array [data] itself would be reordered. *)
Lemma sort_in_place_reorders_data :
  (let '(sorted, _, σ') :=
     pipeline_st 1%positive "" (sort_by "a" asc) 1 10 example_store in
   arrays σ' !! sorted = Some [2%positive; 1%positive]
   ∧ sorted ≠ 1%positive)
  ∧ arrays (snd (sort_in_place_st 1%positive "" "a" asc example_store))
      !! 1%positive = Some [2%positive; 1%positive].
Proof. split; [split|]; vm_compute; (reflexivity || discriminate). Qed.

(* ===================================================================== *)
(** * Further properties *)
(* ===================================================================== *)

(** The global filter keeps a subsequence of the records; with an empty
    text it keeps them all; with any other text it keeps exactly the
    records one of whose own properties holds a value, other than [null]
    and [undefined], whose string form contains the text, case aside. *)
Theorem filter_keeps_records_with_a_matching_property :
  ∀ (data : list record) globalFilter,
    filteredData data globalFilter `sublist_of` data
    ∧ (globalFilter = "" → filteredData data globalFilter = data)
    ∧ (globalFilter ≠ "" →
       ∀ item,
         item ∈ filteredData data globalFilter ↔
         item ∈ data ∧
         ∃ k v, item !! k = Some v ∧ v ≠ VNull ∧ v ≠ VUndefined ∧
                includes (toLowerCase globalFilter)
                         (toLowerCase (ToString v)) = true).
Proof.
  intros data globalFilter. split; [|split].
  - unfold filteredData. destruct (is_empty globalFilter); [done|].
    apply sublist_filter.
  - by intros ->.
  - intros Hne item. rewrite filteredData_spec by done.
    split; intros (Hin & k & v & Hk & Hv); (split; [done|]); exists k, v.
    + split; [done|]. by destruct v.
    + split; [done|]. destruct Hv as (Hn & Hu & Hv). by destruct v.
Qed.

(** A CSV parse gives one record per data line and one column per header
    field, with the header as label and its normalised form as key. *)
Theorem parse_csv_shape :
  ∀ header_line data_lines,
    length (fst (parse_csv header_line data_lines)) = length data_lines
    ∧ length (snd (parse_csv header_line data_lines))
        = length (csv_fields header_line).
Proof.
  intros header_line data_lines. unfold parse_csv.
  destruct (map_rows_length csv_cell (csv_fields header_line) 0 data_lines
              (map new_column (csv_fields header_line))) as [H1 H2].
  split; [exact H1|]. by rewrite H2, length_map.
Qed.

(** A load that notifies the user leaves the state as it was, whatever the
    file. *)
Theorem notified_load_keeps_state :
  ∀ random file st,
    snd (handleFileUpload random file st) ≠ [] →
    fst (handleFileUpload random file st) = st.
Proof.
  intros random [f|] st; [|done]. unfold handleFileUpload.
  destruct (String.eqb _ "csv").
  - unfold handleFileUpload_csv. destruct (csv_lines (text f)); [done|].
    by destruct (parse_csv _ _).
  - destruct (String.eqb _ "xlsx" || String.eqb _ "xls"); [|done].
    unfold handleFileUpload_excel.
    destruct (decoded f) as [|[|header_row data_rows]]; [done..|].
    by destruct (parse_excel _ _ _).
Qed.

Lemma notified_load_keeps_state_witness :
  fst (handleFileUpload (fun _ => "x")
         (Some {| name := "notes.txt"; text := "a,b"; decoded := Thrown |})
         (updateTableData (scenario_columns TNumber) scenario_records))
  = updateTableData (scenario_columns TNumber) scenario_records.
Proof.
  apply (notified_load_keeps_state (fun _ => "x")
           (Some {| name := "notes.txt"; text := "a,b"; decoded := Thrown |})).
  vm_compute. discriminate.
Defined.

(** An array that is not allocated after a step was not allocated
    before it. *)
Lemma not_allocated_before σ σ' a :
  preserves σ σ' → arrays σ' !! a = None → arrays σ !! a = None.
Proof.
  intros [_ Hp] Hnone. destruct (arrays σ !! a) as [xs|] eqn:E; [|done].
  assert (arrays σ' !! a = arrays σ !! a) as H by (apply Hp; by rewrite E).
  congruence.
Qed.

(** Where the results of the three steps live: the filter returns [data]
    itself for an empty text, the sort returns its argument itself without
    a sort key, and every other result is a new array. *)
Lemma filteredData_st_loc data globalFilter σ :
  let '(filtered, σ') := filteredData_st data globalFilter σ in
  if is_empty globalFilter then filtered = data
  else arrays σ !! filtered = None.
Proof.
  unfold filteredData_st. destruct (is_empty globalFilter); [done|].
  apply fresh_not_allocated.
Qed.

Lemma sortedData_st_loc filtered cfg σ :
  let '(sorted, σ') := sortedData_st filtered cfg σ in
  match active_key cfg with
  | None => sorted = filtered
  | Some _ => arrays σ !! sorted = None
  end.
Proof.
  unfold sortedData_st. destruct (active_key cfg) as [k|]; [|done].
  apply fresh_not_allocated.
Qed.

Lemma paginatedData_st_loc sorted page n σ :
  let '(rows, σ') := paginatedData_st sorted page n σ in
  arrays σ !! rows = None.
Proof. apply fresh_not_allocated. Qed.

(** One render computes the sorted records and the page that the functions
    on lists compute from the records of [data].  The page is always a new
    array.  The sorted records are in [data] itself when there is neither a
    filter text nor a sort key, as [filteredData] and [sortedData] then
    return their argument, and in a new array otherwise. *)
Theorem render_computes_the_view :
  ∀ σ data globalFilter cfg page itemsPerPage,
    is_Some (arrays σ !! data) →
    let '(sorted, rows, σ') :=
      pipeline_st data globalFilter cfg page itemsPerPage σ in
    let records :=
      sortedData (filteredData (contents σ data) globalFilter) cfg in
    contents σ' sorted = records
    ∧ contents σ' rows = paginatedData records page itemsPerPage
    ∧ arrays σ !! rows = None
    ∧ match active_key cfg with
      | None => if is_empty globalFilter then sorted = data
                else arrays σ !! sorted = None
      | Some _ => arrays σ !! sorted = None
      end.
Proof.
  intros σ data globalFilter cfg page n Hdata.
  pose proof (pipeline_st_spec data globalFilter cfg page n σ Hdata) as H.
  unfold refines in H. revert H.
  unfold pipeline_st, mbind, M_bind, mret, M_ret.
  pose proof (filteredData_st_spec data globalFilter σ Hdata) as H1.
  pose proof (filteredData_st_loc data globalFilter σ) as L1.
  unfold refines in H1.
  destruct (filteredData_st data globalFilter σ) as [filtered σ1].
  destruct H1 as (Hp1 & Hf & _).
  pose proof (sortedData_st_spec filtered cfg σ1 Hf) as H2.
  pose proof (sortedData_st_loc filtered cfg σ1) as L2.
  unfold refines in H2.
  destruct (sortedData_st filtered cfg σ1) as [sorted σ2].
  destruct H2 as (Hp2 & _ & _).
  pose proof (paginatedData_st_loc sorted page n σ2) as L3.
  destruct (paginatedData_st sorted page n σ2) as [rows σ3].
  intros (_ & Hc1 & Hc2).
  split; [exact Hc1|]. split; [exact Hc2|]. split.
  - eauto using not_allocated_before.
  - destruct (active_key cfg) as [k|].
    + eauto using not_allocated_before.
    + subst sorted. exact L1.
Qed.

Lemma render_computes_the_view_witness :
  let '(sorted, rows, σ') :=
    pipeline_st 1%positive "" (sort_by "a" asc) 1 1 example_store in
  contents σ' sorted = reverse (contents example_store 1%positive)
  ∧ contents σ' rows = drop 1 (contents example_store 1%positive)
  ∧ arrays example_store !! rows = None
  ∧ arrays example_store !! sorted = None.
Proof.
  pose proof (render_computes_the_view example_store 1%positive ""
                (sort_by "a" asc) 1 1 (mk_is_Some _ _ eq_refl)) as H.
  destruct (pipeline_st 1%positive "" (sort_by "a" asc) 1 1 example_store)
    as [[sorted rows] σ'].
  exact H.
Defined.

(** The exported cell.  Outside currency columns a text value with a comma
    or a double quote is wrapped in double quotes with its double quotes
    doubled, and any other value is exported as it is.  In a currency
    column a stored number is exported as it is, and any other value as the
    number at its head, or 0 when there is none. *)
Theorem exported_cell :
  ∀ item col,
    (type col ≠ TCurrency →
     export_cell item col =
       match get item (key col) with
       | VStr s =>
           if contains_char "," s || contains_char dquote s
           then VStr (String dquote
                        (double_char dquote s ++ String dquote ""))
           else VStr s
       | v => v
       end)
    ∧ (type col = TCurrency →
       export_cell item col =
         match get item (key col) with
         | VNum x => VNum x
         | v => parseFloat_or_0 v
         end
       ∧ (is_number (get item (key col)) = false →
          ∃ x, export_cell item col = VNum x ∧ is_nan x = false)).
Proof.
  intros item col. split; [apply export_cell_plain|].
  intros Hty. rewrite (export_cell_currency _ _ Hty). split; [done|].
  intros Hnum. destruct (get item (key col)); try done;
    apply parseFloat_or_0_number.
Qed.

(** With a consistent comparison, [sortedData] is the only arrangement of
    the records that is sorted and keeps equal records in their order: the
    result does not depend on the sorting algorithm. *)
Theorem sortedData_is_the_stable_sorted_arrangement :
  ∀ (l l' : list record) k d,
    k ≠ "" →
    consistent_on (compareFn k asc) l →
    l' ≡ₚ l →
    StronglySorted (fun a b => compareFn k d a b <= 0) l' →
    (∀ a, a ∈ l →
       filter (fun b => compareFn k d a b = 0) l'
         = filter (fun b => compareFn k d a b = 0) l) →
    l' = sortedData l (sort_by k d).
Proof.
  intros l l' k d Hk Hc Hperm Hs Hcls.
  rewrite sortedData_sort by done.
  apply sort_unique; try done. by apply consistent_on_direction.
Qed.

Lemma sortedData_is_the_stable_sorted_arrangement_witness :
  let l := fst (parse_csv "A" ["2"; "1"]) in
  reverse l = sortedData l (sort_by "a" asc).
Proof.
  apply (sortedData_is_the_stable_sorted_arrangement
           (fst (parse_csv "A" ["2"; "1"]))
           (reverse (fst (parse_csv "A" ["2"; "1"]))) "a" asc).
  - discriminate.
  - apply consistentb_spec. vm_compute. reflexivity.
  - apply reverse_Permutation.
  - match goal with |- StronglySorted ?R ?l =>
      let l' := eval vm_compute in l in change (StronglySorted R l')
    end.
    repeat first [ apply SSorted_nil | apply SSorted_cons
                 | apply Forall_nil_2 | apply Forall_cons_2 ];
      vm_compute; discriminate.
  - apply Forall_forall.
    match goal with |- Forall ?P ?l =>
      let l' := eval vm_compute in l in change (Forall P l')
    end.
    repeat first [ apply Forall_nil_2 | apply Forall_cons_2 ];
      vm_compute; reflexivity.
Defined.

(** A column that holds only text, or only numbers none of which is NaN,
    is ordered consistently by the comparison. *)
Theorem homogeneous_column_is_consistent :
  ∀ (l : list record) k,
    (∀ a, a ∈ l → ∃ s, get a k = VStr s)
    ∨ (∀ a, a ∈ l → ∃ x, get a k = VNum x ∧ is_nan x = false) →
    consistent_on (compareFn k asc) l.
Proof.
  intros l k [Htext|Hnum];
    [by apply all_text_consistent | by apply all_numbers_consistent].
Qed.

Lemma homogeneous_column_is_consistent_witness :
  consistent_on (compareFn "name" asc) scenario_records.
Proof.
  apply homogeneous_column_is_consistent. left.
  intros a Ha. unfold scenario_records in Ha.
  apply elem_of_cons in Ha as [->|Ha];
    [|apply elem_of_cons in Ha as [->|Ha]; [|by apply elem_of_nil in Ha]];
    eexists; vm_compute; reflexivity.
Defined.


(** ** Sorting by clicking a header *)

(** A click on a header sorts by that column: ascending when the table was
    not sorted by it, otherwise the other direction, so a third click is a
    first click.  The click touches nothing but the sort: the same
    records match, in another order, and the page number stays. *)
Theorem header_click_alternates_direction :
  ∀ k st,
    sortKey (sortConfig (handleSort k st)) = Some k
    ∧ (is_sort_key (sortConfig st) k = false →
       direction (sortConfig (handleSort k st)) = asc)
    ∧ direction (sortConfig (handleSort k (handleSort k st)))
        ≠ direction (sortConfig (handleSort k st))
    ∧ handleSort k (handleSort k (handleSort k st)) = handleSort k st
    ∧ sorted_of (handleSort k st) ≡ₚ sorted_of st
    ∧ (∀ itemsPerPage,
         totalMatched (query (handleSort k st) itemsPerPage)
           = totalMatched (query st itemsPerPage)
         ∧ pages (query (handleSort k st) itemsPerPage)
             = pages (query st itemsPerPage))
    ∧ currentPage (handleSort k st) = currentPage st.
Proof.
  intros k st.
  assert (sorted_of (handleSort k st) ≡ₚ sorted_of st) as Hperm.
  { unfold sorted_of. simpl. by rewrite !sortedData_perm. }
  split; [done|]. split.
  { intros Hk. unfold handleSort. simpl. by rewrite Hk. }
  split.
  { unfold handleSort, is_sort_key. simpl. rewrite String.eqb_refl. simpl.
    by destruct (_ && _). }
  split.
  { unfold handleSort, is_sort_key. simpl. rewrite !String.eqb_refl. simpl.
    by destruct (_ && _). }
  split; [done|]. split; [|done].
  intros n. unfold query, totalPages.
  change (sortedData (filteredData (data ?s) (globalFilter ?s)) (sortConfig ?s))
    with (sorted_of s).
  simpl. fold (sorted_of (handleSort k st)). fold (sorted_of st).
  by rewrite Hperm.
Qed.


(** ** Column visibility *)

Lemma visibleColumnsArray_ext cols (vis vis' : gmap string bool) :
  (∀ col, col ∈ cols →
     (vis !! key col = Some true ↔ vis' !! key col = Some true)) →
  visibleColumnsArray cols vis = visibleColumnsArray cols vis'.
Proof.
  intros H. unfold visibleColumnsArray.
  induction cols as [|c cols IH]; [done|].
  rewrite !filter_cons.
  rewrite IH by (intros col Hcol; apply H; by right).
  pose proof (H c ltac:(left)) as Hc.
  destruct (decide (vis !! key c = Some true)),
           (decide (vis' !! key c = Some true)); tauto.
Qed.

Lemma visible_after_inserts (cols : list Column) (acc : gmap string bool) k :
  foldl (fun acc col => <[key col := true]> acc) acc cols !! k = Some true
  ↔ acc !! k = Some true ∨ k ∈ key <$> cols.
Proof.
  revert acc. induction cols as [|c cols IH]; intros acc.
  - simpl. rewrite elem_of_nil. tauto.
  - rewrite fmap_cons, elem_of_cons. simpl. rewrite IH.
    destruct (decide (key c = k)) as [->|Hne].
    + rewrite lookup_insert_eq. tauto.
    + rewrite lookup_insert_ne by done. split; [|intros [|[|]]]; try tauto.
      congruence.
Qed.

Lemma filter_Forall_id {A : Type} (P : A → Prop) `{!∀ x, Decision (P x)}
    (l : list A) :
  Forall P l → filter P l = l.
Proof.
  induction 1 as [|x l Hx _ IH]; [done|].
  by rewrite filter_cons_True, IH.
Qed.

(** With the visibility map built by [updateTableData], and at mount, every
    column is visible. *)
Lemma all_columns_visible (cols : list Column) :
  visibleColumnsArray cols
    (foldl (fun acc col => <[key col := true]> acc) ∅ cols) = cols.
Proof.
  unfold visibleColumnsArray.
  apply filter_Forall_id. apply Forall_forall. intros c Hc.
  apply visible_after_inserts. right.
  apply list_elem_of_fmap. by exists c.
Qed.

(** Toggling a column twice shows the columns that were shown, and the
    export is what it was; one toggle changes the columns with that key
    and no other. *)
Theorem toggling_twice_restores_columns :
  ∀ k st,
    let once := toggleColumnVisibility k st in
    let twice := toggleColumnVisibility k once in
    visibleColumnsArray (columns twice) (visibleColumns twice)
      = visibleColumnsArray (columns st) (visibleColumns st)
    ∧ downloadAsExcel twice = downloadAsExcel st
    ∧ (∀ col, col ∈ columns st →
         (col ∈ visibleColumnsArray (columns once) (visibleColumns once)
          ↔ if decide (key col = k)
            then col ∉ visibleColumnsArray (columns st) (visibleColumns st)
            else col ∈ visibleColumnsArray (columns st) (visibleColumns st))).
Proof.
  intros k st once twice.
  assert (visibleColumnsArray (columns twice) (visibleColumns twice)
          = visibleColumnsArray (columns st) (visibleColumns st)) as Htwice.
  { apply visibleColumnsArray_ext. intros col _. simpl.
    destruct (decide (k = key col)) as [->|Hne].
    - rewrite !lookup_insert_eq. simpl.
      destruct (visibleColumns st !! key col) as [[]|]; simpl;
        split; congruence.
    - by rewrite !lookup_insert_ne. }
  split; [exact Htwice|]. split.
  { unfold downloadAsExcel. by rewrite Htwice. }
  intros col Hcol. unfold visibleColumnsArray.
  rewrite !list_elem_of_filter. simpl.
  destruct (decide (key col = k)) as [<-|Hne].
  - rewrite lookup_insert_eq.
    rewrite list_elem_of_filter.
    destruct (visibleColumns st !! key col) as [b|] eqn:Hv;
      [destruct b|]; simpl.
    + split; [intros [[=] _] | intros H; destruct H; by split].
    + split; [intros _ [[=] _] | intros _; by split].
    + split; [intros _ [[=] _] | intros _; by split].
  - rewrite lookup_insert_ne, list_elem_of_filter by done. tauto.
Qed.


(** ** Paging through the records *)

Lemma chunks_join {A : Type} (l : list A) (n t : nat) :
  mjoin ((fun i => take n (drop (i * n) l)) <$> seq 0 t) = take (t * n) l.
Proof.
  induction t as [|t IH]; [done|].
  rewrite seq_S, fmap_app, join_app, IH. simpl.
  rewrite app_nil_r, take_take_drop. f_equal. lia.
Qed.

Lemma pages_join (sorted : list record) itemsPerPage :
  0 < itemsPerPage →
  mjoin ((fun page => paginatedData sorted page itemsPerPage)
           <$> seqZ 1 (totalPages sorted itemsPerPage)) = sorted.
Proof.
  intros Hn.
  pose proof (totalPages_ceiling sorted itemsPerPage Hn) as Hceil.
  set (t := totalPages sorted itemsPerPage) in *.
  assert (0 <= t) as Ht by nia.
  rewrite <- (Z2Nat.id t Ht), seqZ_pages, <- list_fmap_compose.
  rewrite (list_fmap_ext _
             (fun i => take (Z.to_nat itemsPerPage)
                         (drop (i * Z.to_nat itemsPerPage) sorted))
             (seq 0 (Z.to_nat t))).
  - rewrite chunks_join. apply take_ge. nia.
  - intros i x _. simpl. rewrite paginatedData_chunk by lia.
    do 2 f_equal. lia.
Qed.

(** The rows of a page inside the range: the chunk, never empty. *)
Lemma page_in_range (sorted : list record) page itemsPerPage :
  0 < itemsPerPage →
  1 <= page <= totalPages sorted itemsPerPage →
  paginatedData sorted page itemsPerPage ≠ []
  ∧ Z.of_nat (length (paginatedData sorted page itemsPerPage))
      = Z.min itemsPerPage
          (Z.of_nat (length sorted) - (page - 1) * itemsPerPage).
Proof.
  intros Hn Hp.
  pose proof (totalPages_ceiling sorted itemsPerPage Hn) as Hceil.
  rewrite paginatedData_chunk by lia.
  assert (Z.of_nat (length (take (Z.to_nat itemsPerPage)
            (drop (Z.to_nat (page - 1) * Z.to_nat itemsPerPage) sorted)))
          = Z.min itemsPerPage
              (Z.of_nat (length sorted) - (page - 1) * itemsPerPage)) as Hlen.
  { rewrite length_take, length_drop. nia. }
  split; [|exact Hlen].
  intros Hnil. rewrite Hnil in Hlen. simpl in Hlen. nia.
Qed.

(** Going through the pages from the first to the last shows every
    matching record once, in the order of the sort. *)
Theorem pages_show_every_record_once :
  ∀ st itemsPerPage,
    0 < itemsPerPage →
    mjoin ((fun page => rows (query (setCurrentPage page st) itemsPerPage))
             <$> seqZ 1 (pages (query st itemsPerPage)))
      = sorted_of st.
Proof.
  intros st n Hn. apply (pages_join (sorted_of st) n Hn).
Qed.

Lemma pages_show_every_record_once_witness :
  let st := updateTableData (scenario_columns TNumber) scenario_records in
  mjoin ((fun page => rows (query (setCurrentPage page st) 1))
           <$> seqZ 1 (pages (query st 1)))
    = scenario_records.
Proof.
  apply (pages_show_every_record_once
           (updateTableData (scenario_columns TNumber) scenario_records) 1).
  lia.
Defined.

(** While there is something to show and the page is in the range 1 to
    [totalPages], each of the four buttons leads to a page in that range,
    which shows at least one row; Previous on the first page and Next on
    the last change nothing. *)
Theorem pagination_buttons_stay_in_range :
  ∀ st itemsPerPage,
    0 < itemsPerPage →
    1 <= currentPage st <= totalPages_of st itemsPerPage →
    Forall (fun st' =>
              totalPages_of st' itemsPerPage = totalPages_of st itemsPerPage
              ∧ 1 <= currentPage st' <= totalPages_of st' itemsPerPage
              ∧ rows (query st' itemsPerPage) ≠ [])
           [onFirstPage st; onPreviousPage st;
            onNextPage itemsPerPage st; onLastPage itemsPerPage st]
    ∧ (currentPage st = 1 → onPreviousPage st = st)
    ∧ (currentPage st = totalPages_of st itemsPerPage →
       onNextPage itemsPerPage st = st).
Proof.
  intros st n Hn Hp.
  assert (∀ p, 1 <= p <= totalPages_of st n →
            totalPages_of (setCurrentPage p st) n = totalPages_of st n
            ∧ 1 <= currentPage (setCurrentPage p st)
                <= totalPages_of (setCurrentPage p st) n
            ∧ rows (query (setCurrentPage p st) n) ≠ []) as Hset.
  { intros p Hrange. split; [done|]. split; [exact Hrange|].
    apply (page_in_range (sorted_of st) p n Hn Hrange). }
  split.
  - repeat constructor; apply Hset; lia.
  - split; intros Heq.
    + unfold onPreviousPage.
      replace (Z.max (currentPage st - 1) 1) with (currentPage st) by lia.
      by destruct st.
    + unfold onNextPage. rewrite <- Heq.
      replace (Z.min (currentPage st + 1) (currentPage st))
        with (currentPage st) by lia.
      by destruct st.
Qed.

Lemma pagination_buttons_stay_in_range_witness :
  let st := updateTableData (scenario_columns TNumber) scenario_records in
  currentPage (onNextPage 1 st) = 2
  ∧ onNextPage 1 (onNextPage 1 st) = onNextPage 1 st.
Proof.
  pose proof (pagination_buttons_stay_in_range
                (updateTableData (scenario_columns TNumber) scenario_records)
                1 ltac:(lia) ltac:(vm_compute; split; discriminate))
    as [_ [_ Hlast]].
  split; [reflexivity|].
  pose proof (pagination_buttons_stay_in_range
                (onNextPage 1
                   (updateTableData (scenario_columns TNumber)
                      scenario_records))
                1 ltac:(lia) ltac:(vm_compute; split; discriminate))
    as [_ [_ Hlast']].
  apply Hlast'. reflexivity.
Defined.

(** On a page in the range, the line under the table counts the rows that
    are shown: they are the records number [showingFrom] to [showingTo] of
    the sorted sequence, counting from 1. *)
Theorem showing_line_matches_rows :
  ∀ st itemsPerPage,
    0 < itemsPerPage →
    1 <= currentPage st <= totalPages_of st itemsPerPage →
    let from := showingFrom st itemsPerPage in
    let to := showingTo st itemsPerPage in
    1 <= from <= to
    ∧ to <= Z.of_nat (length (sorted_of st))
    ∧ from = (currentPage st - 1) * itemsPerPage + 1
    ∧ rows (query st itemsPerPage)
        = take (Z.to_nat (to - from + 1))
            (drop (Z.to_nat (from - 1)) (sorted_of st)).
Proof.
  intros st n Hn Hp from to.
  pose proof (totalPages_ceiling (sorted_of st) n Hn) as Hceil.
  fold (totalPages_of st n) in Hceil.
  subst from to. unfold showingFrom, showingTo.
  set (len := Z.of_nat (length (sorted_of st))) in *.
  repeat split; try nia.
  change (rows (query st n))
    with (paginatedData (sorted_of st) (currentPage st) n).
  rewrite paginatedData_chunk by lia.
  replace (Z.to_nat (Z.min ((currentPage st - 1) * n + 1) len - 1))
    with (Z.to_nat (currentPage st - 1) * Z.to_nat n)%nat by nia.
  destruct (Z.le_gt_cases (currentPage st * n) len) as [Hfull|Hpart].
  - f_equal. nia.
  - rewrite !take_ge; [done | rewrite length_drop; nia..].
Qed.

Lemma showing_line_matches_rows_witness :
  let st := setCurrentPage 2
              (updateTableData (scenario_columns TNumber) scenario_records) in
  showingFrom st 1 = 2 ∧ showingTo st 1 = 2
  ∧ rows (query st 1) = drop 1 scenario_records.
Proof.
  pose proof (showing_line_matches_rows
                (setCurrentPage 2
                   (updateTableData (scenario_columns TNumber)
                      scenario_records))
                1 ltac:(lia) ltac:(vm_compute; split; discriminate))
    as (_ & _ & Hfrom & Hrows).
  split; [exact Hfrom | split; [reflexivity | exact Hrows]].
Defined.

(** When nothing matches, [totalPages] is 0 while the page is 1: Next and
    Last are not disabled, and a click leads to page 0, where no row is
    shown and the line under the table starts at [1 - itemsPerPage]. *)
Theorem empty_result_leads_to_page_zero :
  ∀ st itemsPerPage,
    0 < itemsPerPage →
    sorted_of st = [] →
    currentPage st = 1 →
    totalPages_of st itemsPerPage = 0
    ∧ nextDisabled st itemsPerPage = false
    ∧ showingFrom st itemsPerPage = 0 ∧ showingTo st itemsPerPage = 0
    ∧ Forall (fun st' =>
                currentPage st' = 0
                ∧ rows (query st' itemsPerPage) = []
                ∧ showingFrom st' itemsPerPage = 1 - itemsPerPage
                ∧ showingTo st' itemsPerPage = 0)
             [onNextPage itemsPerPage st; onLastPage itemsPerPage st].
Proof.
  intros st n Hn Hempty Hpage.
  assert (totalPages_of st n = 0) as Ht.
  { unfold totalPages_of, totalPages. rewrite Hempty.
    change (- Z.of_nat (length (@nil record))) with 0.
    rewrite Z.div_0_l by lia. reflexivity. }
  assert (∀ st', sorted_of st' = [] → currentPage st' = 0 →
            currentPage st' = 0
            ∧ rows (query st' n) = []
            ∧ showingFrom st' n = 1 - n
            ∧ showingTo st' n = 0) as Hzero.
  { intros st' He Hp. split; [done|]. split.
    - change (rows (query st' n))
        with (paginatedData (sorted_of st') (currentPage st') n).
      rewrite He. unfold paginatedData, slice. simpl.
      by rewrite drop_nil, take_nil.
    - unfold showingFrom, showingTo. rewrite He, Hp. simpl. lia. }
  split; [exact Ht|]. split.
  { unfold nextDisabled. rewrite Ht, Hpage. reflexivity. }
  split; [|split].
  - unfold showingFrom. rewrite Hempty, Hpage. simpl. lia.
  - unfold showingTo. rewrite Hempty, Hpage. simpl. lia.
  - repeat constructor; apply Hzero; try exact Hempty;
      unfold onNextPage, onLastPage; simpl; rewrite ?Hpage, ?Ht;
      reflexivity.
Qed.

Lemma empty_result_leads_to_page_zero_witness :
  currentPage (onNextPage 10 empty_state) = 0
  ∧ showingFrom (onNextPage 10 empty_state) 10 = -9.
Proof.
  pose proof (empty_result_leads_to_page_zero empty_state 10
                ltac:(lia) eq_refl eq_refl) as (_ & _ & _ & _ & H).
  apply Forall_cons in H as [(Hp & _ & Hfrom & _) _].
  split; [exact Hp | exact Hfrom].
Defined.


(** ** Sorting and filtering together *)

Lemma StronglySorted_filter {A : Type} (R : relation A) (P : A → Prop)
    `{!∀ x, Decision (P x)} (l : list A) :
  StronglySorted R l → StronglySorted R (filter P l).
Proof.
  induction 1 as [|x l Hs IH Hx]; [constructor|].
  rewrite filter_cons. destruct (decide (P x)); [|exact IH].
  constructor; [exact IH|].
  rewrite Forall_forall in Hx |- *. intros y Hy.
  apply list_elem_of_filter in Hy as [_ Hy]. by apply Hx.
Qed.

Lemma consistent_on_subseteq {A : Type} (cmp : A → A → Z) (l l' : list A) :
  l' ⊆ l → consistent_on cmp l → consistent_on cmp l'.
Proof. intros Hsub Hc a b c Ha Hb Hc'. apply Hc; by apply Hsub. Qed.

(** Filtering a sorted array is sorting the filtered one. *)
Lemma filter_sort_commute {A : Type} (cmp : A → A → Z) (P : A → Prop)
    `{!∀ x, Decision (P x)} (l : list A) :
  consistent_on cmp l →
  filter P (sort cmp l) = sort cmp (filter P l).
Proof.
  intros Hc.
  assert (filter P l ⊆ l) as Hsub by apply list_subseteq_filter.
  apply sort_unique.
  - by apply (consistent_on_subseteq cmp l).
  - by rewrite sort_perm.
  - apply StronglySorted_filter. by apply (sort_sorted cmp l).
  - intros a Ha. rewrite !list_filter_filter.
    apply (filter_sort cmp _ l); [|done].
    intros x y Hx Hy [Hax _] [Hay _].
    destruct (Hc a x y (Hsub a Ha) Hx Hy) as (_ & Hanti & _).
    destruct (Hc x a y Hx (Hsub a Ha) Hy) as (_ & _ & Htr).
    destruct (Hc x y y Hx Hy Hy) as (_ & Hxy & _).
    destruct (Hc y a x Hy (Hsub a Ha) Hx) as (_ & Hya & Htr').
    lia.
Qed.

(** The sorted records are the filtered ones, none lost and none added;
    without a sort key they are in the order of the filter; with a key that
    the comparison orders consistently they are in order: no record
    compares above a later one. *)
Theorem sortedData_is_a_sorted_permutation :
  ∀ (l : list record) cfg,
    sortedData l cfg ≡ₚ l
    ∧ (active_key cfg = None → sortedData l cfg = l)
    ∧ (∀ k, active_key cfg = Some k →
         consistent_on (compareFn k asc) l →
         StronglySorted (fun a b => compareFn k (direction cfg) a b <= 0)
           (sortedData l cfg)).
Proof.
  intros l cfg. split; [apply sortedData_perm|]. unfold sortedData.
  split.
  - by intros ->.
  - intros k -> Hc. apply (sort_sorted _ l); [|done].
    by apply consistent_on_direction.
Qed.

(** With a consistent comparison it makes no difference whether the
    records are filtered before the sort, as the component does, or
    after it. *)
Theorem filter_and_sort_commute :
  ∀ (data : list record) globalFilter cfg k,
    active_key cfg = Some k →
    consistent_on (compareFn k asc) data →
    filteredData (sortedData data cfg) globalFilter
      = sortedData (filteredData data globalFilter) cfg.
Proof.
  intros data f cfg k Hk Hc. unfold filteredData, sortedData. rewrite Hk.
  destruct (is_empty f); [done|].
  apply filter_sort_commute. by apply consistent_on_direction.
Qed.

Lemma filter_and_sort_commute_witness :
  filteredData (sortedData scenario_records (sort_by "name" desc)) "o"
    = sortedData (filteredData scenario_records "o") (sort_by "name" desc).
Proof.
  apply (filter_and_sort_commute scenario_records "o"
           (sort_by "name" desc) "name" eq_refl).
  apply consistentb_spec. vm_compute. reflexivity.
Defined.


(** ** Narrowing the search *)

Lemma string_app_cons x (a b : string) :
  (String x a ++ b = String x (a ++ b))%string.
Proof. reflexivity. Qed.

Lemma string_app_assoc (a b c : string) :
  ((a ++ b) ++ c = a ++ (b ++ c))%string.
Proof.
  induction a as [|x a IH]; [done|].
  rewrite !string_app_cons. by f_equal.
Qed.

Lemma startsWith_spec p s :
  startsWith p s = true ↔ ∃ b, s = (p ++ b)%string.
Proof.
  revert s. induction p as [|x p IH]; intros s; simpl.
  - split; [intros _; by exists s | done].
  - destruct s as [|y s].
    + split; [done | intros [b [=]]].
    + rewrite andb_true_iff, IH. split.
      * intros [->%Ascii.eqb_eq [b ->]]. by exists b.
      * intros [b [= -> ->]]. split; [apply Ascii.eqb_refl | by exists b].
Qed.

Lemma includes_spec p s :
  includes p s = true ↔ ∃ a b, s = (a ++ p ++ b)%string.
Proof.
  induction s as [|y s IH].
  - simpl. rewrite orb_false_r, startsWith_spec. split.
    + intros [b ->]. by exists "", b.
    + intros (a & b & H). destruct a as [|x a]; [by exists b | done].
  - cbn [includes]. rewrite orb_true_iff, IH, startsWith_spec. split.
    + intros [[b ->]|(a & b & ->)].
      * by exists "", b.
      * by exists (String y a), b.
    + intros (a & b & H). destruct a as [|x a].
      * left. by exists b.
      * right. injection H as -> ->. by exists a, b.
Qed.

Lemma toLowerCase_app a b :
  toLowerCase (a ++ b) = (toLowerCase a ++ toLowerCase b)%string.
Proof.
  induction a as [|x a IH]; [done|].
  rewrite !string_app_cons. cbn [toLowerCase]. rewrite string_app_cons.
  by f_equal.
Qed.

Lemma includes_trans p q s :
  includes p q = true → includes q s = true → includes p s = true.
Proof.
  rewrite !includes_spec. intros (a & b & ->) (c & d & ->).
  exists (c ++ a)%string, (b ++ d)%string.
  by rewrite !string_app_assoc.
Qed.

(** A longer search text never shows more: when the new text contains the
    old one, whatever the case of the letters, the records it keeps are
    among those the old text kept, in the same order. *)
Theorem longer_search_text_narrows :
  ∀ (data : list record) old new,
    includes (toLowerCase old) (toLowerCase new) = true →
    filteredData data new `sublist_of` filteredData data old.
Proof.
  intros data old new Hinc. unfold filteredData.
  destruct (is_empty old) eqn:Hold.
  - destruct (is_empty new); [done | apply sublist_filter].
  - destruct (is_empty new) eqn:Hnew.
    + destruct new; [|done]. destruct old as [|x old]; [done|].
      apply includes_spec in Hinc as (a & b & H).
      destruct a; discriminate.
    + rewrite <- (list_filter_filter_l
                   (fun item => item_matches new item = true)
                   (fun item => item_matches old item = true)).
      * apply sublist_filter.
      * intros item. rewrite !item_matches_spec.
        intros (k & v & Hk & Hv). exists k, v. split; [done|].
        destruct v; try done; simpl in *;
          by apply (includes_trans _ _ _ Hinc).
Qed.

Lemma longer_search_text_narrows_witness :
  filteredData scenario_records "BO"
    `sublist_of` filteredData scenario_records "o".
Proof.
  apply longer_search_text_narrows. reflexivity.
Defined.

(** ** Searching *)

(** Typing in the search box goes back to page 1, which shows the first
    rows of the matches, so some row is shown whenever something matches;
    clearing the box brings all records back, whatever was typed. *)
Theorem search_shows_first_matches :
  ∀ value st itemsPerPage,
    0 < itemsPerPage →
    let st' := onSearchChange value st in
    rows (query st' itemsPerPage)
      = take (Z.to_nat itemsPerPage) (sorted_of st')
    ∧ sorted_of st' ≡ₚ filteredData (data st) value
    ∧ (filteredData (data st) value ≠ [] → rows (query st' itemsPerPage) ≠ [])
    ∧ clearGlobalFilter st' = clearGlobalFilter st
    ∧ sorted_of (clearGlobalFilter st') ≡ₚ data st.
Proof.
  intros value st n Hn st'.
  assert (rows (query st' n) = take (Z.to_nat n) (sorted_of st')) as Hrows.
  { change (rows (query st' n)) with (paginatedData (sorted_of st') 1 n).
    rewrite paginatedData_chunk by lia. simpl. by rewrite drop_0. }
  assert (sorted_of st' ≡ₚ filteredData (data st) value) as Hperm
    by apply sortedData_perm.
  split; [exact Hrows|]. split; [exact Hperm|]. split; [|split].
  - intros Hne. rewrite Hrows. intros Hnil.
    apply (f_equal length) in Hnil. rewrite length_take, Hperm in Hnil.
    destruct (filteredData (data st) value); [done|]. simpl in Hnil. lia.
  - reflexivity.
  - unfold sorted_of. simpl. apply sortedData_perm.
Qed.

Lemma search_shows_first_matches_witness :
  let st := onSearchChange "bob"
              (setCurrentPage 2
                 (updateTableData (scenario_columns TNumber)
                    scenario_records)) in
  rows (query st 1) = take 1 (sorted_of st).
Proof.
  apply (search_shows_first_matches "bob"
           (setCurrentPage 2
              (updateTableData (scenario_columns TNumber) scenario_records))
           1).
  lia.
Defined.

(** ** The shape of a loaded table *)

Lemma set_property_dom_step k v (row : record) (later : gset string) :
  dom (set_property k v row) ∪ (later ∖ {["__proto__"]})
    = dom row ∪ (({[k]} ∪ later) ∖ {["__proto__"]}).
Proof.
  rewrite set_property_dom.
  destruct (String.eqb k "__proto__") eqn:E.
  - apply String.eqb_eq in E as ->. apply set_eq. intros x.
    rewrite !elem_of_union, !elem_of_difference, elem_of_union,
      !elem_of_singleton, elem_of_empty. tauto.
  - apply String.eqb_neq in E. apply set_eq. intros x.
    rewrite !elem_of_union, !elem_of_difference, elem_of_union,
      !elem_of_singleton.
    split; [|tauto]. intros [[?| ->]|?]; tauto.
Qed.

Section shape.
Context {R : Type} (cell : R -> nat -> string).

Lemma write_type_fields i t cols :
  key <$> write_type i t cols = key <$> cols
  ∧ label <$> write_type i t cols = label <$> cols
  ∧ sortable <$> write_type i t cols = sortable <$> cols
  ∧ filterable <$> write_type i t cols = filterable <$> cols.
Proof.
  destruct t as [t|]; simpl; [|done]. unfold set_type.
  repeat split;
    (etrans; [apply (list_fmap_alter _ _ id), Forall_true; reflexivity
             | by apply list_alter_id]).
Qed.

(** One pass over the headers adds the headers' keys, [__proto__] apart,
    to the row and changes nothing but the types of the columns. *)
Lemma forEach_header_shape (c : nat -> string) headers i row cols :
  dom (fst (forEach_header c i headers row cols))
    = dom row ∪ (list_to_set (column_key <$> headers) ∖ {["__proto__"]})
  ∧ key <$> snd (forEach_header c i headers row cols) = key <$> cols
  ∧ label <$> snd (forEach_header c i headers row cols) = label <$> cols
  ∧ sortable <$> snd (forEach_header c i headers row cols)
      = sortable <$> cols
  ∧ filterable <$> snd (forEach_header c i headers row cols)
      = filterable <$> cols.
Proof.
  revert i row cols.
  induction headers as [|h hs IH]; intros i row cols; cbn [forEach_header].
  - split; [|done]. rewrite fmap_nil, list_to_set_nil.
    apply set_eq. intros x.
    rewrite elem_of_union, elem_of_difference, elem_of_empty. tauto.
  - destruct (detectType (c i)) as [v t].
    destruct (IH (S i) (set_property (column_key h) v row)
                (write_type i t cols)) as (Hd & Hk & Hl & Hs & Hf).
    destruct (write_type_fields i t cols) as (Hk' & Hl' & Hs' & Hf').
    rewrite Hd, Hk, Hl, Hs, Hf, Hk', Hl', Hs', Hf'.
    split; [|done]. rewrite fmap_cons, list_to_set_cons.
    apply set_property_dom_step.
Qed.

Lemma map_rows_shape headers index rows cols :
  Forall (fun item : record =>
            dom item = {["id"]} ∪ (list_to_set (column_key <$> headers)
                                     ∖ {["__proto__"]}))
         (fst (map_rows cell headers index rows cols))
  ∧ key <$> snd (map_rows cell headers index rows cols) = key <$> cols
  ∧ label <$> snd (map_rows cell headers index rows cols) = label <$> cols
  ∧ sortable <$> snd (map_rows cell headers index rows cols)
      = sortable <$> cols
  ∧ filterable <$> snd (map_rows cell headers index rows cols)
      = filterable <$> cols.
Proof.
  revert index cols.
  induction rows as [|r rows IH]; intros index cols; simpl; [done|].
  destruct (build_row (cell r) headers index cols) as [row cols1] eqn:Hb.
  destruct (map_rows cell headers (S index) rows cols1)
    as [rows' cols2] eqn:Hm.
  pose proof (IH (S index) cols1) as IH'. rewrite Hm in IH'.
  destruct IH' as (Hd & Hk & Hl & Hs & Hf). simpl in *.
  unfold build_row in Hb.
  pose proof (forEach_header_shape (cell r) headers 0
                {[ "id" := VNum (of_Z (Z.of_nat index + 1)) ]} cols) as H.
  rewrite Hb in H. destruct H as (Hd' & Hk' & Hl' & Hs' & Hf'). simpl in *.
  rewrite Hk, Hl, Hs, Hf, Hk', Hl', Hs', Hf'.
  split; [|done]. constructor; [|done].
  by rewrite Hd', dom_singleton_L.
Qed.

(** The identifier of row [n] is its number, unless a header has the key
    [id]. *)
Lemma map_rows_id headers index rows cols n item :
  Forall (fun h => column_key h ≠ "id") headers →
  fst (map_rows cell headers index rows cols) !! n = Some item →
  item !! "id" = Some (VNum (of_Z (Z.of_nat (index + n) + 1))).
Proof.
  intros Hh Hn.
  destruct (lookup_lt_is_Some_2 rows n) as [r Hr].
  { apply lookup_lt_Some in Hn.
    by rewrite (proj1 (map_rows_length cell headers index rows cols)) in Hn. }
  rewrite (map_rows_lookup cell headers index rows cols n r Hr) in Hn.
  injection Hn as <-. unfold build_row.
  rewrite forEach_header_lookup_other by done.
  apply lookup_singleton_eq.
Qed.
End shape.

(** *** The rows of a sheet *)

Lemma elements_fmap {A B : Type} (f : A → B) (l : list (option A)) :
  elements ((fun x : option A => f <$> x) <$> l) = f <$> elements l.
Proof.
  unfold elements.
  induction l as [|[x|] l IH]; [done|..]; csimpl; by rewrite IH.
Qed.

Lemma elements_alter {A B : Type} (g : A → B) (f : A → A) i
    (l : list (option A)) :
  (∀ x, g (f x) = g x) →
  g <$> elements (alter (fmap f) i l) = g <$> elements l.
Proof.
  intros Hg. unfold elements. revert i.
  induction l as [|[x|] l IH]; intros [|i]; try done; csimpl;
    rewrite ?Hg, ?IH; done.
Qed.

Lemma write_type_sparse_fields i t cols :
  key <$> elements (write_type_sparse i t cols) = key <$> elements cols
  ∧ label <$> elements (write_type_sparse i t cols)
      = label <$> elements cols
  ∧ sortable <$> elements (write_type_sparse i t cols)
      = sortable <$> elements cols
  ∧ filterable <$> elements (write_type_sparse i t cols)
      = filterable <$> elements cols.
Proof.
  destruct t as [t|]; simpl; [|done].
  repeat split; by apply elements_alter.
Qed.

(** The record a pass builds does not depend on the columns. *)
Lemma forEach_header_sparse_fst (c : nat -> string) i headers row cols cols' :
  fst (forEach_header_sparse c i headers row cols) =
  fst (forEach_header_sparse c i headers row cols').
Proof.
  revert i row cols cols'.
  induction headers as [|[h|] hs IH]; intros i row cols cols'; simpl.
  - reflexivity.
  - destruct (detectType (c i)) as [v t]. apply IH.
  - apply IH.
Qed.

Lemma forEach_header_sparse_lookup_other (c : nat -> string) headers i row
    cols k :
  Forall (fun h => column_key h ≠ k) (elements headers) →
  fst (forEach_header_sparse c i headers row cols) !! k = row !! k.
Proof.
  revert i row cols.
  induction headers as [|[h|] hs IH]; intros i row cols H; simpl.
  - reflexivity.
  - unfold elements in H. csimpl in H. apply Forall_cons in H as [Hh H].
    destruct (detectType (c i)) as [v t].
    rewrite IH by exact H. by apply set_property_lookup_ne.
  - apply IH. exact H.
Qed.

Lemma forEach_header_sparse_lookup_proto (c : nat -> string) headers i row
    cols :
  fst (forEach_header_sparse c i headers row cols) !! "__proto__"
    = row !! "__proto__".
Proof.
  revert i row cols.
  induction headers as [|[h|] hs IH]; intros i row cols; simpl.
  - reflexivity.
  - destruct (detectType (c i)) as [v t].
    rewrite IH. apply set_property_lookup_proto.
  - apply IH.
Qed.

(** The last header that produces a key other than [__proto__] decides
    the value stored under it. *)
Lemma forEach_header_sparse_lookup_last (c : nat -> string) headers i row
    cols j h :
  headers !! j = Some (Some h) →
  column_key h ≠ "__proto__" →
  (∀ j' h', headers !! j' = Some (Some h') → (j < j')%nat →
            column_key h' ≠ column_key h) →
  fst (forEach_header_sparse c i headers row cols) !! column_key h =
    Some (fst (detectType (c (i + j)%nat))).
Proof.
  revert i row cols j.
  induction headers as [|h0 hs IH]; intros i row cols j Hj Hproto Hlater;
    [done|].
  destruct j as [|j]; simpl in Hj.
  - injection Hj as ->. simpl.
    destruct (detectType (c i)) as [v t] eqn:Hd.
    rewrite forEach_header_sparse_lookup_other.
    + rewrite set_property_lookup_eq, Nat.add_0_r, Hd by done.
      reflexivity.
    + apply Forall_forall. intros h' Hh'.
      unfold elements in Hh'. apply list_elem_of_omap in Hh' as (o & Ho & Hs).
      simpl in Hs. subst o.
      apply list_elem_of_lookup in Ho as [j' Hj'].
      apply (Hlater (S j') h'); [exact Hj' | lia].
  - replace (i + S j)%nat with (S i + j)%nat by lia.
    assert (∀ j' h', hs !! j' = Some (Some h') → (j < j')%nat →
                     column_key h' ≠ column_key h) as Hlater'.
    { intros j' h' Hj' Hlt. apply (Hlater (S j') h'); [exact Hj' | lia]. }
    destruct h0 as [h0|]; cbn [forEach_header_sparse].
    + destruct (detectType (c i)) as [v t]. by apply IH.
    + by apply IH.
Qed.

Lemma forEach_header_sparse_shape (c : nat -> string) headers i row cols :
  dom (fst (forEach_header_sparse c i headers row cols))
    = dom row ∪ (list_to_set (column_key <$> elements headers)
                   ∖ {["__proto__"]})
  ∧ key <$> elements (snd (forEach_header_sparse c i headers row cols))
      = key <$> elements cols
  ∧ label <$> elements (snd (forEach_header_sparse c i headers row cols))
      = label <$> elements cols
  ∧ sortable <$> elements (snd (forEach_header_sparse c i headers row cols))
      = sortable <$> elements cols
  ∧ filterable <$> elements (snd (forEach_header_sparse c i headers row cols))
      = filterable <$> elements cols.
Proof.
  revert i row cols.
  induction headers as [|[h|] hs IH]; intros i row cols;
    cbn [forEach_header_sparse].
  - split; [|done]. unfold elements. simpl.
    apply set_eq. intros x.
    rewrite elem_of_union, elem_of_difference, elem_of_empty. tauto.
  - destruct (detectType (c i)) as [v t].
    destruct (IH (S i) (set_property (column_key h) v row)
                (write_type_sparse i t cols)) as (Hd & Hk & Hl & Hs & Hf).
    destruct (write_type_sparse_fields i t cols) as (Hk' & Hl' & Hs' & Hf').
    rewrite Hd, Hk, Hl, Hs, Hf, Hk', Hl', Hs', Hf'.
    split; [|done].
    change (elements (Some h :: hs)) with (h :: elements hs).
    rewrite fmap_cons, list_to_set_cons.
    apply set_property_dom_step.
  - apply IH.
Qed.

Lemma map_rows_sparse_shape headers index rows cols :
  length (fst (map_rows_sparse headers index rows cols)) = length rows
  ∧ Forall (fun item : record =>
              dom item = {["id"]} ∪ (list_to_set
                                       (column_key <$> elements headers)
                                       ∖ {["__proto__"]}))
           (fst (map_rows_sparse headers index rows cols))
  ∧ key <$> elements (snd (map_rows_sparse headers index rows cols))
      = key <$> elements cols
  ∧ label <$> elements (snd (map_rows_sparse headers index rows cols))
      = label <$> elements cols
  ∧ sortable <$> elements (snd (map_rows_sparse headers index rows cols))
      = sortable <$> elements cols
  ∧ filterable <$> elements (snd (map_rows_sparse headers index rows cols))
      = filterable <$> elements cols.
Proof.
  revert index cols.
  induction rows as [|r rows IH]; intros index cols; simpl; [done|].
  pose proof (forEach_header_sparse_shape (excel_cell r) headers 0
                {[ "id" := VNum (of_Z (Z.of_nat index + 1)) ]} cols) as H.
  destruct (forEach_header_sparse (excel_cell r) 0 headers _ cols)
    as [row cols1].
  pose proof (IH (S index) cols1) as IH'.
  destruct (map_rows_sparse headers (S index) rows cols1) as [rows' cols2].
  destruct IH' as (Hn & Hd & Hk & Hl & Hs & Hf).
  destruct H as (Hd' & Hk' & Hl' & Hs' & Hf'). simpl in *.
  rewrite Hn, Hk, Hl, Hs, Hf, Hk', Hl', Hs', Hf'.
  split; [done|]. split; [|done]. constructor; [|done].
  by rewrite Hd', dom_singleton_L.
Qed.

(** Row [n] is built from row [n] of the sheet alone. *)
Lemma map_rows_sparse_lookup headers index rows cols n r :
  rows !! n = Some r →
  fst (map_rows_sparse headers index rows cols) !! n =
    Some (fst (forEach_header_sparse (excel_cell r) 0 headers
                 {[ "id" := VNum (of_Z (Z.of_nat (index + n) + 1)) ]} [])).
Proof.
  revert index cols n.
  induction rows as [|r0 rows IH]; intros index cols n Hn; [done|].
  simpl.
  pose proof (forEach_header_sparse_fst (excel_cell r0) 0 headers
                {[ "id" := VNum (of_Z (Z.of_nat index + 1)) ]} cols [])
    as Hfst.
  destruct (forEach_header_sparse (excel_cell r0) 0 headers _ cols)
    as [row cols1].
  pose proof (IH (S index) cols1) as IH'.
  destruct (map_rows_sparse headers (S index) rows cols1) as [rows' cols2].
  destruct n as [|n]; simpl in *.
  - injection Hn as ->. rewrite Nat.add_0_r. by rewrite Hfst.
  - rewrite (IH' n Hn).
    replace (index + S n)%nat with (S (index + n)) by lia.
    reflexivity.
Qed.

(** *** Both branches *)

(** A load that notifies nothing has set the table from a parse. *)
Lemma silent_load_is_an_update random f st :
  snd (handleFileUpload random (Some f) st) = [] →
  ∃ newColumns newData,
    fst (handleFileUpload random (Some f) st)
      = updateTableData newColumns newData.
Proof.
  unfold handleFileUpload.
  destruct (String.eqb _ "csv").
  - unfold handleFileUpload_csv.
    destruct (csv_lines (text f)) as [|header_line data_lines]; [done|].
    destruct (parse_csv header_line data_lines) as [newData newColumns].
    intros _. by exists newColumns, newData.
  - destruct (String.eqb _ "xlsx" || String.eqb _ "xls"); [|done].
    unfold handleFileUpload_excel.
    destruct (decoded f) as [|[|header_row data_rows]]; [done..|].
    destruct (parse_excel random header_row data_rows)
      as [newData newColumns].
    intros _. by exists newColumns, newData.
Qed.

(** What a parse of either kind gives: the headers it has read decide the
    columns, the keys of the records and their identifiers. *)
Lemma silent_load_shape random f st :
  snd (handleFileUpload random (Some f) st) = [] →
  ∃ (headers : list string) newColumns newData,
    fst (handleFileUpload random (Some f) st)
      = updateTableData newColumns newData
    ∧ key <$> newColumns = column_key <$> headers
    ∧ label <$> newColumns = headers
    ∧ sortable <$> newColumns = (fun _ => true) <$> headers
    ∧ filterable <$> newColumns = (fun _ => true) <$> headers
    ∧ Forall (fun item : record =>
                dom item = {["id"]} ∪ (list_to_set (column_key <$> headers)
                                         ∖ {["__proto__"]})) newData
    ∧ (Forall (fun h => column_key h ≠ "id") headers →
       ∀ n item, newData !! n = Some item →
         item !! "id" = Some (VNum (of_Z (Z.of_nat n + 1)))).
Proof.
  unfold handleFileUpload.
  destruct (String.eqb _ "csv").
  - unfold handleFileUpload_csv.
    destruct (csv_lines (text f)) as [|header_line data_lines]; [done|].
    intros _. unfold parse_csv.
    set (headers := csv_fields header_line).
    destruct (map_rows_shape csv_cell headers 0 data_lines
                (map new_column headers)) as (Hd & Hk & Hl & Hs & Hf).
    pose proof (map_rows_id csv_cell headers 0 data_lines
                  (map new_column headers)) as Hid.
    destruct (map_rows csv_cell headers 0 data_lines
                (map new_column headers)) as [newData newColumns].
    simpl in *. exists headers, newColumns, newData.
    change (map new_column headers) with (new_column <$> headers) in *.
    rewrite <- list_fmap_compose in Hk, Hl, Hs, Hf.
    split; [done|]. split; [exact Hk|].
    split; [by rewrite Hl, list_fmap_id|].
    split; [exact Hs|]. split; [exact Hf|]. split; [exact Hd|].
    intros Hh n item Hn. by apply (Hid n item Hh).
  - destruct (String.eqb _ "xlsx" || String.eqb _ "xls"); [|done].
    unfold handleFileUpload_excel.
    destruct (decoded f) as [|[|header_row data_rows]]; [done..|].
    intros _. unfold parse_excel.
    set (headers := excel_headers random header_row).
    set (cols0 := (fun header : option string => new_column <$> header)
                    <$> headers).
    destruct (map_rows_sparse_shape headers 0 data_rows cols0)
      as (Hlen & Hd & Hk & Hl & Hs & Hf).
    pose proof (map_rows_sparse_lookup headers 0 data_rows cols0) as Hrow.
    destruct (map_rows_sparse headers 0 data_rows cols0)
      as [newData newColumns].
    simpl in *. exists (elements headers), (elements newColumns), newData.
    subst cols0. rewrite elements_fmap in Hk, Hl, Hs, Hf.
    rewrite <- list_fmap_compose in Hk, Hl, Hs, Hf.
    split; [done|]. split; [exact Hk|].
    split; [by rewrite Hl, list_fmap_id|].
    split; [exact Hs|]. split; [exact Hf|]. split; [exact Hd|].
    intros Hh n item Hn.
    destruct (lookup_lt_is_Some_2 data_rows n) as [r Hr].
    { rewrite <- Hlen. by apply lookup_lt_Some in Hn. }
    rewrite (Hrow n r Hr) in Hn. injection Hn as <-.
    rewrite forEach_header_sparse_lookup_other by exact Hh.
    apply lookup_singleton_eq.
Qed.

(** After a load that notifies nothing, from a CSV file or a spreadsheet,
    every record has the same keys: [id] and the keys of the columns, except
    that no record has the key [__proto__], which a column can have.  Each
    column is sortable and filterable and its key is its label in lower
    case with every run of white space replaced by one underscore.  When no
    column has the key [id], the records are numbered 1, 2, ... in the
    order of the rows of the file. *)
Theorem loaded_table_is_well_formed :
  ∀ random f st,
    snd (handleFileUpload random (Some f) st) = [] →
    let st' := fst (handleFileUpload random (Some f) st) in
    Forall (fun item : record =>
              dom item = {["id"]} ∪ (list_to_set (key <$> columns st')
                                       ∖ {["__proto__"]}))
           (data st')
    ∧ Forall (fun col => key col = column_key (label col)
                         ∧ sortable col = true ∧ filterable col = true)
             (columns st')
    ∧ (Forall (fun col => key col ≠ "id") (columns st') →
       ∀ n item, data st' !! n = Some item →
         item !! "id" = Some (VNum (of_Z (Z.of_nat n + 1)))).
Proof.
  intros random f st Hsilent st'. subst st'.
  destruct (silent_load_shape random f st Hsilent)
    as (headers & cols & newData & -> & Hkeys & Hlabels & Hs & Hf & Hd & Hid).
  simpl. split; [by rewrite Hkeys|]. split.
  - apply Forall_lookup. intros j col Hj.
    assert ((key <$> cols) !! j = Some (key col)) as Hkj
      by (by rewrite list_lookup_fmap, Hj).
    assert ((label <$> cols) !! j = Some (label col)) as Hlj
      by (by rewrite list_lookup_fmap, Hj).
    assert ((sortable <$> cols) !! j = Some (sortable col)) as Hsj
      by (by rewrite list_lookup_fmap, Hj).
    assert ((filterable <$> cols) !! j = Some (filterable col)) as Hfj
      by (by rewrite list_lookup_fmap, Hj).
    rewrite Hkeys, list_lookup_fmap in Hkj.
    rewrite Hlabels in Hlj. rewrite Hlj in Hkj. simpl in Hkj.
    rewrite Hs, list_lookup_fmap, Hlj in Hsj.
    rewrite Hf, list_lookup_fmap, Hlj in Hfj.
    simpl in *. split; [congruence | split; congruence].
  - intros Hcid n item Hn. apply (Hid); [|exact Hn].
    apply Forall_lookup. intros j h Hj.
    assert ((key <$> cols) !! j = Some (column_key h)) as Hkj
      by (by rewrite Hkeys, list_lookup_fmap, Hj).
    rewrite list_lookup_fmap in Hkj.
    destruct (cols !! j) as [col|] eqn:Hc; [|done].
    injection Hkj as <-. exact (Forall_lookup_1 _ _ _ _ Hcid Hc).
Qed.

Lemma loaded_table_is_well_formed_witness :
  let st' := fst (handleFileUpload (fun _ => "x")
                    (Some {| name := "t.xlsx"; text := "";
                             decoded :=
                               Sheet [ [Some (VStr "Name"); None;
                                        Some (VStr "__proto__")];
                                       [Some (VStr "Ann"); Some (VStr "?");
                                        Some (VStr "x")] ] |})
                    empty_state) in
  key <$> columns st' = ["name"; "__proto__"]
  ∧ Forall (fun item : record => dom item = {["id"; "name"]}) (data st').
Proof.
  pose proof (loaded_table_is_well_formed (fun _ => "x")
                {| name := "t.xlsx"; text := "";
                   decoded :=
                     Sheet [ [Some (VStr "Name"); None;
                              Some (VStr "__proto__")];
                             [Some (VStr "Ann"); Some (VStr "?");
                              Some (VStr "x")] ] |}
                empty_state eq_refl) as (Hdom & _).
  split; [reflexivity|].
  eapply Forall_impl; [exact Hdom|]. intros item ->.
  apply set_eq. intros x.
  rewrite elem_of_union, elem_of_difference.
  change (x ∈ ({["id"]} : gset string) ∨
          x ∈ (list_to_set ["name"; "__proto__"] : gset string)
          ∧ x ∉ ({["__proto__"]} : gset string)
          ↔ x ∈ ({["id"; "name"]} : gset string)).
  rewrite !elem_of_list_to_set, !elem_of_cons, elem_of_nil,
    !elem_of_union, !elem_of_singleton.
  split; [intros [-> | [[-> | [-> | []]] Hx]]; tauto | intros [-> | ->]; [tauto|]].
  right. split; [tauto | discriminate].
Defined.

(** ** Numbers read from text *)

Lemma shr_1_nonneg mrs : 0 <= shr_m mrs → 0 <= shr_m (shr_1 mrs).
Proof. destruct mrs as [[|[p|p|]|p] r s]; simpl; lia. Qed.

Lemma iter_pos_invariant {A : Type} (f : A → A) (P : A → Prop) :
  (∀ x, P x → P (f x)) → ∀ p x, P x → P (SpecFloat.iter_pos f p x).
Proof. intros Hf p. induction p; simpl; auto. Qed.

Lemma shr_fexp_nonneg m e l :
  0 <= m → 0 <= shr_m (fst (shr_fexp prec emax m e l)).
Proof.
  intros Hm. unfold shr_fexp, shr.
  assert (0 <= shr_m (shr_record_of_loc m l)) as H0
    by (by destruct l as [|[]]).
  destruct (fexp prec emax (Zdigits2 m + e) - e); simpl; try done.
  apply (iter_pos_invariant shr_1 (fun x => 0 <= shr_m x));
    [apply shr_1_nonneg | exact H0].
Qed.

Lemma round_nearest_even_nonneg m l :
  0 <= m → 0 <= round_nearest_even m l.
Proof.
  intros Hm. destruct l as [|[]]; simpl; try lia.
  destruct (Z.even m); lia.
Qed.

(** Rounding a magnitude never gives NaN. *)
Lemma binary_round_aux_not_nan sx mx ex lx :
  0 <= mx → is_nan (binary_round_aux prec emax sx mx ex lx) = false.
Proof.
  intros Hm. unfold binary_round_aux.
  pose proof (shr_fexp_nonneg mx ex lx Hm) as H1.
  destruct (shr_fexp prec emax mx ex lx) as [mrs' e'].
  pose proof (shr_fexp_nonneg
                (round_nearest_even (shr_m mrs') (loc_of_shr_record mrs'))
                e' loc_Exact
                (round_nearest_even_nonneg _ _ H1)) as H2.
  destruct (shr_fexp prec emax _ e' loc_Exact) as [mrs'' e''].
  simpl in H2. destruct (shr_m mrs''); [done | | lia].
  by destruct (e'' <=? emax - prec).
Qed.

Lemma of_decimal_not_nan neg m e : is_nan (of_decimal neg m e) = false.
Proof.
  unfold of_decimal. destruct m as [|p]; [done|].
  destruct (0 <=? e).
  - unfold binary_round.
    destruct (shl_align _ _ _) as [mz ez].
    by apply binary_round_aux_not_nan.
  - unfold SFdiv, SFdiv_core_binary.
    set (s := _ - _ - _). set (m' := match s with Z0 => _ | _ => _ end).
    assert (0 <= m') as Hm'.
    { subst m'. destruct s; try lia. by apply Z.shiftl_nonneg. }
    pose proof (Z.div_pos m' (Z.pos (Z.to_pos (10 ^ (- e)))) Hm' ltac:(lia))
      as Hq.
    unfold Z.div in Hq.
    destruct (Z.div_eucl m' _) as [q r]. simpl in Hq.
    by apply binary_round_aux_not_nan.
Qed.

Lemma of_Z_not_nan z : is_nan (of_Z z) = false.
Proof.
  unfold of_Z, binary_normalize. destruct z as [|p|p]; [done|..];
    unfold binary_round; destruct (shl_align _ _ _) as [mz ez];
    by apply binary_round_aux_not_nan.
Qed.

Lemma literal_value_not_nan l : is_nan (literal_value l) = false.
Proof. destruct l; [done | apply of_decimal_not_nan]. Qed.

(** ** The type detection *)

Lemma digit_not_ws c : is_digit c = true → is_ws c = false.
Proof. destruct c as [[] [] [] [] [] [] [] []]; done. Qed.

Lemma parse_sign_digit c s :
  is_digit c = true → parse_sign (String c s) = (false, String c s).
Proof. destruct c as [[] [] [] [] [] [] [] []]; done. Qed.

Lemma startsWith_Infinity_digit c s :
  is_digit c = true → startsWith "Infinity" (String c s) = false.
Proof. destruct c as [[] [] [] [] [] [] [] []]; done. Qed.

Lemma non_decimal_prefix_digit c0 c1 s :
  is_digit c0 = true →
  is_digit c1 = true ∨ c1 = "."%char →
  non_decimal_prefix (String c0 (String c1 s)) = None.
Proof.
  intros H0 H1.
  destruct c0 as [[] [] [] [] [] [] [] []]; try done.
  destruct H1 as [H1| ->]; [|done].
  destruct c1 as [[] [] [] [] [] [] [] []]; done.
Qed.

Lemma trimEnd_not_ws s :
  all_chars (fun c => negb (is_ws c)) s = true → trimEnd s = s.
Proof.
  induction s as [|c s IH]; [done|]. simpl.
  intros [Hc Hs]%andb_true_iff. rewrite IH by done.
  by destruct (is_ws c).
Qed.

Lemma span_app p s : (fst (span p s) ++ snd (span p s))%string = s.
Proof.
  induction s as [|c s IH]; [done|]. simpl.
  destruct (p c); [|done]. destruct (span p s) as [a b]. simpl in *.
  by rewrite string_app_cons, IH.
Qed.

Lemma span_all p s : all_chars p (fst (span p s)) = true.
Proof.
  induction s as [|c s IH]; [done|]. simpl.
  destruct (p c) eqn:Hc; [|done]. destruct (span p s) as [a b]. simpl in *.
  by rewrite Hc.
Qed.

Lemma all_chars_app p a b :
  all_chars p (a ++ b) = all_chars p a && all_chars p b.
Proof.
  induction a as [|c a IH]; [done|].
  rewrite string_app_cons. simpl. by rewrite IH, andb_assoc.
Qed.

Lemma all_chars_impl (p q : ascii → bool) s :
  (∀ c, p c = true → q c = true) →
  all_chars p s = true → all_chars q s = true.
Proof.
  intros Hpq. induction s as [|c s IH]; [done|]. simpl.
  intros [Hc Hs]%andb_true_iff. by rewrite (Hpq c Hc), IH.
Qed.

Lemma span_digits_then (ds r : string) :
  all_chars is_digit ds = true →
  match r with String c _ => is_digit c = false | EmptyString => True end →
  span is_digit (ds ++ r) = (ds, r).
Proof.
  intros Hds Hr. induction ds as [|c ds IH].
  - destruct r as [|c r]; [done|]. simpl. by rewrite Hr.
  - simpl in Hds. apply andb_true_iff in Hds as [Hc Hds].
    rewrite string_app_cons. simpl. by rewrite Hc, IH.
Qed.

Lemma string_length_app (a b : string) :
  String.length (a ++ b) = (String.length a + String.length b)%nat.
Proof.
  induction a as [|c a IH]; [done|].
  rewrite string_app_cons. simpl. by rewrite IH.
Qed.

(** A text of digits, a point and two digits is a decimal literal. *)
Lemma two_decimals_parse s :
  match_two_decimals s = true →
  ∃ m, parse_decimal s = Some (LitDecimal false m (-2), "")
       ∧ trim s = s ∧ trimStart s = s ∧ is_empty s = false
       ∧ non_decimal_prefix s = None.
Proof.
  unfold match_two_decimals.
  pose proof (span_app is_digit s) as Happ.
  pose proof (span_all is_digit s) as Hall.
  destruct (span is_digit s) as [ds r] eqn:Hspan. simpl in *.
  intros [Hds Hr]%andb_true_iff.
  destruct r as [|c0 [|a [|b [|? ?]]]]; try done.
  { by destruct c0 as [[] [] [] [] [] [] [] []]. }
  { by destruct c0 as [[] [] [] [] [] [] [] []]. }
  2:{ by destruct c0 as [[] [] [] [] [] [] [] []]. }
  assert (c0 = "."%char) as ->
    by (by destruct c0 as [[] [] [] [] [] [] [] []]).
  apply andb_true_iff in Hr as [Ha Hb].
  destruct ds as [|d ds]; [done|]. clear Hds.
  simpl in Hall. apply andb_true_iff in Hall as [Hd Hall].
  rewrite string_app_cons in Happ. subst s.
  set (tail := (ds ++ String "." (String a (String b "")))%string) in *.
  assert (all_chars (fun c => negb (is_ws c)) (String d tail) = true)
    as Hnows.
  { subst tail. rewrite <- string_app_cons, all_chars_app.
    apply andb_true_iff. split.
    - apply (all_chars_impl is_digit); [|by simpl; rewrite Hd, Hall].
      intros c Hc. by rewrite digit_not_ws.
    - simpl. by rewrite (digit_not_ws a), (digit_not_ws b). }
  assert (trimStart (String d tail) = String d tail) as Hts
    by (simpl; by rewrite digit_not_ws).
  exists (digits_val 10 0
            (String d ds ++ String a (String b ""))%string).
  split; [|split; [|split; [|split]]].
  - unfold parse_decimal. rewrite parse_sign_digit by done.
    unfold parse_unsigned. rewrite startsWith_Infinity_digit by done.
    rewrite Hspan. simpl. rewrite Ha, Hb. simpl. reflexivity.
  - unfold trim. rewrite Hts. by apply trimEnd_not_ws.
  - exact Hts.
  - done.
  - subst tail. destruct ds as [|d' ds].
    + apply non_decimal_prefix_digit; auto.
    + simpl in Hall. apply andb_true_iff in Hall as [Hd' _].
      rewrite string_app_cons. apply non_decimal_prefix_digit; auto.
Qed.

(** Such a text passes the number test: the branch for it after the test
    for the dollar sign is never reached. *)
Lemma two_decimals_is_a_number s :
  match_two_decimals s = true →
  detectType s = (VNum (parseFloat s), Some TNumber).
Proof.
  intros H. destruct (two_decimals_parse s H)
    as (m & Hp & Htrim & Hts & Hne & Hnd).
  unfold detectType, isNaN, StringToNumber, parseFloat.
  rewrite Htrim, Hts, Hne, Hnd, Hp. simpl.
  by rewrite of_decimal_not_nan.
Qed.

Lemma match_iso_date_digit c s :
  match_iso_date (String c s) = true → is_digit c = true.
Proof.
  unfold match_iso_date. intros H.
  destruct (is_digit c) eqn:Hc; [done|].
  repeat case_match; done.
Qed.

Lemma one_or_two_digits_slash_digit c s r :
  one_or_two_digits_slash (String c s) = Some r → is_digit c = true.
Proof.
  unfold one_or_two_digits_slash. intros H.
  destruct (is_digit c) eqn:Hc; [done|].
  repeat case_match; done.
Qed.

Lemma match_us_date_digit c s :
  match_us_date (String c s) = true → is_digit c = true.
Proof.
  unfold match_us_date. intros H.
  destruct (one_or_two_digits_slash (String c s)) as [r|] eqn:E; [|done].
  by apply one_or_two_digits_slash_digit in E.
Qed.

(** A text that starts with the dollar sign passes the currency test and
    no earlier one. *)
Lemma dollar_is_currency s :
  detectType (String "$" s) = (VNum (parseFloat s), Some TCurrency).
Proof.
  unfold detectType.
  assert (isNaN (String "$" s) = true) as ->.
  { unfold isNaN, StringToNumber, trim. simpl.
    destruct (is_ws "$" && is_empty (trimEnd s)) eqn:E; [done|]. simpl.
    reflexivity. }
  assert (match_iso_date (String "$" s) = false) as ->.
  { destruct (match_iso_date _) eqn:E; [|done].
    by apply match_iso_date_digit in E. }
  assert (match_us_date (String "$" s) = false) as ->.
  { destruct (match_us_date _) eqn:E; [|done].
    by apply match_us_date_digit in E. }
  reflexivity.
Qed.

(** The column type [currency] is written for a cell exactly when the
    cell starts with the dollar sign, and the record then holds the number
    read from the text after the sign, NaN when there is none.  The other
    test of that branch, for digits, a point and two digits, never decides:
    such a cell has already been taken as a number. *)
Theorem currency_cells_start_with_dollar :
  ∀ value,
    (snd (detectType value) = Some TCurrency ↔ startsWith "$" value = true)
    ∧ (∀ rest, value = String "$" rest →
         fst (detectType value) = VNum (parseFloat rest))
    ∧ (match_two_decimals value = true →
         detectType value = (VNum (parseFloat value), Some TNumber)).
Proof.
  intros value. split; [|split].
  - split.
    + intros H. destruct (startsWith "$" value) eqn:Hs; [done|].
      destruct (match_two_decimals value) eqn:Hm.
      * rewrite (two_decimals_is_a_number value Hm) in H. done.
      * unfold detectType in H. rewrite Hs, Hm in H.
        repeat case_match; done.
    + intros H. destruct value as [|c s]; [done|].
      change (Ascii.eqb "$" c && true = true) in H.
      rewrite andb_true_r in H. apply Ascii.eqb_eq in H as <-.
      by rewrite dollar_is_currency.
  - intros rest ->. by rewrite dollar_is_currency.
  - apply two_decimals_is_a_number.
Qed.

(** ** Cells and columns of a parsed file *)

Lemma detectType_not_string value : snd (detectType value) ≠ Some TString.
Proof. unfold detectType. repeat case_match; done. Qed.

Lemma detectType_None value :
  snd (detectType value) = None → detectType value = (VStr value, None).
Proof. unfold detectType. repeat case_match; done. Qed.

Lemma last_write_string ts :
  Forall (fun o => o ≠ Some TString) ts →
  last_write TString ts = TString →
  Forall (fun o => o = None) ts.
Proof.
  induction ts as [|o ts IH] using rev_ind; [done|].
  rewrite Forall_app, Forall_singleton, last_write_app.
  intros [Hts Ho] H. simpl in H.
  destruct o as [t|]; simpl in H; [congruence|].
  rewrite Forall_app, Forall_singleton. auto.
Qed.

Lemma parse_csv_keys header_line data_lines :
  key <$> snd (parse_csv header_line data_lines)
    = column_key <$> csv_fields header_line.
Proof.
  unfold parse_csv.
  destruct (map_rows_shape csv_cell (csv_fields header_line) 0 data_lines
              (map new_column (csv_fields header_line))) as (_ & Hk & _).
  rewrite Hk. change (map new_column ?l) with (new_column <$> l).
  by rewrite <- list_fmap_compose.
Qed.

(** The cell of column [j] in the record of data line [n]: nothing under
    the key [__proto__], else what the detection makes of the field. *)
Lemma parse_csv_cell header_line data_lines j col n line :
  snd (parse_csv header_line data_lines) !! j = Some col →
  (∀ j' col', snd (parse_csv header_line data_lines) !! j' = Some col' →
              (j < j')%nat → key col' ≠ key col) →
  data_lines !! n = Some line →
  ∃ item, fst (parse_csv header_line data_lines) !! n = Some item
          ∧ item !! key col =
              if String.eqb (key col) "__proto__" then None
              else Some (fst (detectType (csv_cell line j))).
Proof.
  intros Hcol Hlater Hn.
  pose proof (parse_csv_keys header_line data_lines) as Hkeys.
  assert (∀ i c, snd (parse_csv header_line data_lines) !! i = Some c →
            ∃ h, csv_fields header_line !! i = Some h
                 ∧ key c = column_key h) as Hhdr.
  { intros i c Hc.
    assert ((key <$> snd (parse_csv header_line data_lines)) !! i
            = Some (key c)) as Hi by (by rewrite list_lookup_fmap, Hc).
    rewrite Hkeys, list_lookup_fmap in Hi.
    destruct (csv_fields header_line !! i) as [h|]; [|done].
    exists h. split; [done|]. simpl in Hi. congruence. }
  destruct (Hhdr j col Hcol) as (h & Hh & Hkey).
  eexists. split.
  - unfold parse_csv. apply map_rows_lookup. exact Hn.
  - rewrite Hkey. unfold build_row.
    destruct (String.eqb (column_key h) "__proto__") eqn:E.
    { apply String.eqb_eq in E. rewrite E.
      by rewrite forEach_header_lookup_proto. }
    apply String.eqb_neq in E.
    apply (forEach_header_lookup_last (csv_cell line) _ 0%nat _ _ j h);
      [exact Hh | exact E |].
    intros j' h' Hj' Hlt.
    assert (is_Some (snd (parse_csv header_line data_lines) !! j'))
      as [col' Hcol'].
    { apply lookup_lt_is_Some.
      rewrite <- (length_fmap key), Hkeys, length_fmap.
      by apply lookup_lt_Some in Hj'. }
    destruct (Hhdr j' col' Hcol') as (h'' & Hh'' & Hkey').
    rewrite Hj' in Hh''. injection Hh'' as <-.
    rewrite <- Hkey, <- Hkey'. by apply (Hlater j' col').
Qed.



(** A data line with fewer fields than the header has columns is padded:
    the records hold the empty text under the keys of the missing fields
    (nothing under the key [__proto__]), and such a cell writes no column
    type. *)
Theorem short_lines_are_padded_with_empty_text :
  ∀ header_line data_lines j col n line,
    snd (parse_csv header_line data_lines) !! j = Some col →
    (∀ j' col', snd (parse_csv header_line data_lines) !! j' = Some col' →
                (j < j')%nat → key col' ≠ key col) →
    data_lines !! n = Some line →
    (length (csv_fields line) ≤ j)%nat →
    snd (detectType (csv_cell line j)) = None
    ∧ ∃ item, fst (parse_csv header_line data_lines) !! n = Some item
              ∧ item !! key col =
                  if String.eqb (key col) "__proto__" then None
                  else Some (VStr "").
Proof.
  intros header_line data_lines j col n line Hcol Hlater Hn Hshort.
  assert (csv_cell line j = "") as Hblank.
  { unfold csv_cell. by rewrite lookup_ge_None_2. }
  split; [by rewrite Hblank|].
  destruct (parse_csv_cell _ _ _ _ _ _ Hcol Hlater Hn) as (item & Hi & Hv).
  exists item. split; [exact Hi|]. by rewrite Hv, Hblank.
Qed.

Lemma short_lines_are_padded_with_empty_text_witness :
  ∃ item, fst (parse_csv "A,B" ["7"]) !! 0%nat = Some item
          ∧ item !! "b" = Some (VStr "").
Proof.
  refine (proj2 (short_lines_are_padded_with_empty_text "A,B" ["7"] 1%nat
                   {| key := "b"; label := "B"; sortable := true;
                      filterable := true; type := TString |}
                   0%nat "7" _ _ _ _)).
  - reflexivity.
  - intros [|[|j']] col' Hj' Hlt; try lia. vm_compute in Hj'. discriminate.
  - reflexivity.
  - vm_compute. lia.
Defined.

Section cells_read.
Context {R : Type} (cell cell' : R -> nat -> string).

Lemma forEach_header_ext (c c' : nat -> string) headers i row cols :
  (∀ j, (i ≤ j < i + length headers)%nat → c j = c' j) →
  forEach_header c i headers row cols = forEach_header c' i headers row cols.
Proof.
  revert i row cols.
  induction headers as [|h hs IH]; intros i row cols Hc; [done|].
  simpl in *. rewrite (Hc i) by lia.
  destruct (detectType (c' i)) as [v t]. apply IH.
  intros j Hj. apply Hc. lia.
Qed.

Lemma map_rows_ext headers index rows rows' cols :
  Forall2 (fun r r' => ∀ j, (j < length headers)%nat → cell r j = cell' r' j)
          rows rows' →
  map_rows cell headers index rows cols
    = map_rows cell' headers index rows' cols.
Proof.
  intros H. revert index cols.
  induction H as [|r r' rows rows' Hr _ IH]; intros index cols; [done|].
  simpl. unfold build_row.
  rewrite (forEach_header_ext (cell r) (cell' r'))
    by (intros j Hj; apply Hr; lia).
  destruct (forEach_header (cell' r') 0 headers _ cols) as [row cols1].
  by rewrite IH.
Qed.
End cells_read.

(** Only as many fields of a data line are read as the header has: two
    files whose lines agree on those fields give the same records and the
    same columns. *)
Theorem fields_beyond_the_header_are_ignored :
  ∀ header_line data_lines data_lines',
    Forall2 (fun line line' =>
               take (length (csv_fields header_line)) (csv_fields line)
               = take (length (csv_fields header_line)) (csv_fields line'))
            data_lines data_lines' →
    parse_csv header_line data_lines = parse_csv header_line data_lines'.
Proof.
  intros header_line data_lines data_lines' H. unfold parse_csv.
  apply map_rows_ext. eapply Forall2_impl; [exact H|].
  intros line line' Htake j Hj. unfold csv_cell.
  rewrite <- (lookup_take_lt (csv_fields line) _ j Hj).
  rewrite <- (lookup_take_lt (csv_fields line') _ j Hj).
  by rewrite Htake.
Qed.

Lemma fields_beyond_the_header_are_ignored_witness :
  parse_csv "A" ["1,2"; "x"] = parse_csv "A" ["1,9,9"; "x,"].
Proof.
  apply fields_beyond_the_header_are_ignored.
  repeat constructor.
Defined.

(** ** Spreadsheet cells, in general *)

Lemma parse_excel_fst random header_row data_rows :
  fst (parse_excel random header_row data_rows)
    = fst (map_rows_sparse (excel_headers random header_row) 0 data_rows
             ((fun header : option string => new_column <$> header)
                <$> excel_headers random header_row)).
Proof. unfold parse_excel. by destruct (map_rows_sparse _ _ _ _). Qed.

Lemma parse_excel_snd random header_row data_rows :
  snd (parse_excel random header_row data_rows)
    = elements
        (snd (map_rows_sparse (excel_headers random header_row) 0 data_rows
                ((fun header : option string => new_column <$> header)
                   <$> excel_headers random header_row))).
Proof. unfold parse_excel. by destruct (map_rows_sparse _ _ _ _). Qed.

(** In a record read from a spreadsheet, the value under the key of a
    header (the last header with that key) is what the detection makes of
    the text of the cell, and nothing under the key [__proto__]; a cell
    that is a hole, is missing or holds a falsy value (the number 0, NaN,
    [false], the empty text, [null]) is read as the empty text and writes
    no type.  A hole in the header row gives no column: the keys of the
    columns are those of the headers present. *)
Theorem spreadsheet_cell_is_its_own_detection :
  ∀ random header_row data_rows n row i header,
    data_rows !! n = Some row →
    excel_headers random header_row !! i = Some (Some header) →
    (∀ j h', excel_headers random header_row !! j = Some (Some h') →
             (i < j)%nat → column_key h' ≠ column_key header) →
    (∃ item,
       fst (parse_excel random header_row data_rows) !! n = Some item
       ∧ item !! column_key header =
           if String.eqb (column_key header) "__proto__" then None
           else Some (fst (detectType (excel_cell row i))))
    ∧ (match row !! i with
       | Some (Some v) => truthy v = false
       | _ => True
       end →
       detectType (excel_cell row i) = (VStr "", None))
    ∧ key <$> snd (parse_excel random header_row data_rows)
        = column_key <$> elements (excel_headers random header_row).
Proof.
  intros random header_row data_rows n row i header Hn Hi Hlast.
  split; [|split].
  - rewrite parse_excel_fst. eexists. split.
    + apply map_rows_sparse_lookup. exact Hn.
    + destruct (String.eqb (column_key header) "__proto__") eqn:E.
      * apply String.eqb_eq in E. rewrite E.
        by rewrite forEach_header_sparse_lookup_proto.
      * apply String.eqb_neq in E.
        apply (forEach_header_sparse_lookup_last (excel_cell row) _ 0%nat
                 _ _ i header); assumption.
  - intros Hfalsy. by rewrite (excel_cell_falsy row i Hfalsy).
  - rewrite parse_excel_snd.
    destruct (map_rows_sparse_shape (excel_headers random header_row) 0
                data_rows
                ((fun header : option string => new_column <$> header)
                   <$> excel_headers random header_row))
      as (_ & _ & Hk & _).
    rewrite Hk, elements_fmap, <- list_fmap_compose. reflexivity.
Qed.

Lemma spreadsheet_cell_is_its_own_detection_witness :
  (∃ item,
     fst (parse_excel (fun _ => "x")
            [Some (VStr "Count"); None; Some (VStr "Total")]
            [[Some (VNum (of_Z 0)); Some (VStr "skipped");
              Some (VNum (of_Z 7))]]) !! 0%nat = Some item
     ∧ item !! "total" = Some (VNum (of_Z 7)))
  ∧ key <$> snd (parse_excel (fun _ => "x")
                   [Some (VStr "Count"); None; Some (VStr "Total")]
                   [[Some (VNum (of_Z 0)); Some (VStr "skipped");
                     Some (VNum (of_Z 7))]])
      = ["count"; "total"].
Proof.
  destruct (spreadsheet_cell_is_its_own_detection (fun _ => "x")
              [Some (VStr "Count"); None; Some (VStr "Total")]
              [[Some (VNum (of_Z 0)); Some (VStr "skipped");
                Some (VNum (of_Z 7))]]
              0%nat
              [Some (VNum (of_Z 0)); Some (VStr "skipped");
               Some (VNum (of_Z 7))]
              2%nat "Total")
    as ((item & Hitem & Hv) & _ & Hkeys).
  - reflexivity.
  - reflexivity.
  - intros [|[|[|j]]] h' Hj Hlt; try lia. vm_compute in Hj. discriminate.
  - split; [|exact Hkeys].
    exists item. split; [exact Hitem|].
    refine (eq_trans Hv _). vm_compute. reflexivity.
Defined.

(** ** Number cells that are not decimal literals *)

Lemma radix_digit_not_ws radix c :
  is_radix_digit radix c = true → is_ws c = false.
Proof.
  unfold is_radix_digit, radix_val.
  destruct c as [[] [] [] [] [] [] [] []]; done.
Qed.

Lemma non_decimal_prefix_inv s radix ds :
  non_decimal_prefix s = Some (radix, ds) →
  ∃ c, s = String "0" (String c ds)
       ∧ is_digit c = false ∧ is_ws c = false
       ∧ c ≠ "."%char ∧ c ≠ "e"%char ∧ c ≠ "E"%char.
Proof.
  destruct s as [|c0 [|c r]]; try done.
  { by destruct c0 as [[] [] [] [] [] [] [] []]. }
  destruct c0 as [[] [] [] [] [] [] [] []]; try done.
  unfold non_decimal_prefix.
  destruct (Ascii.eqb c "x") eqn:E1; [apply Ascii.eqb_eq in E1 as ->|];
  [|destruct (Ascii.eqb c "X") eqn:E2; [apply Ascii.eqb_eq in E2 as ->|];
  [|destruct (Ascii.eqb c "o") eqn:E3; [apply Ascii.eqb_eq in E3 as ->|];
  [|destruct (Ascii.eqb c "O") eqn:E4; [apply Ascii.eqb_eq in E4 as ->|];
  [|destruct (Ascii.eqb c "b") eqn:E5; [apply Ascii.eqb_eq in E5 as ->|];
  [|destruct (Ascii.eqb c "B") eqn:E6; [apply Ascii.eqb_eq in E6 as ->|];
  [|done]]]]]];
  simpl; intros [= <- <-]; eexists; (split; [reflexivity|]); done.
Qed.

(** A cell written as a hexadecimal, octal or binary literal passes the
    number test, which converts the whole text, and the record then holds
    what [parseFloat] reads, the 0 before the letter. *)
Theorem prefixed_literal_is_stored_as_zero :
  ∀ value radix ds,
    non_decimal_prefix value = Some (radix, ds) →
    is_empty ds = false →
    all_chars (is_radix_digit radix) ds = true →
    StringToNumber value = of_Z (Z.of_N (digits_val radix 0 ds))
    ∧ detectType value = (VNum (S754_zero false), Some TNumber).
Proof.
  intros value radix ds Hp Hne Hds.
  destruct (non_decimal_prefix_inv value radix ds Hp)
    as (c & -> & Hdig & Hws & Hpoint & He & HE).
  assert (trim (String "0" (String c ds)) = String "0" (String c ds))
    as Htrim.
  { unfold trim. change (trimStart (String "0" (String c ds)))
      with (String "0" (String c ds)).
    apply trimEnd_not_ws. simpl. rewrite Hws. simpl.
    apply (all_chars_impl (is_radix_digit radix)); [|done].
    intros c' Hc'. by rewrite (radix_digit_not_ws radix). }
  assert (StringToNumber (String "0" (String c ds))
          = of_Z (Z.of_N (digits_val radix 0 ds))) as Hnum.
  { unfold StringToNumber. rewrite Htrim, Hp.
    change (is_empty (String "0" (String c ds))) with false.
    cbv iota. by rewrite Hne, Hds. }
  assert (parseFloat (String "0" (String c ds)) = S754_zero false) as Hpf.
  { unfold parseFloat.
    change (trimStart (String "0" (String c ds)))
      with (String "0" (String c ds)).
    unfold parse_decimal.
    change (parse_sign (String "0" (String c ds)))
      with (false, String "0" (String c ds)).
    unfold parse_unsigned.
    change (startsWith "Infinity" (String "0" (String c ds))) with false.
    cbv iota.
    assert (span is_digit (String "0" (String c ds))
            = ("0", String c ds)) as ->.
    { simpl. by rewrite Hdig. }
    assert (parse_exponent (String c ds) = None) as Hexp.
    { unfold parse_exponent.
      destruct (Ascii.eqb c "e") eqn:E1;
        [by apply Ascii.eqb_eq in E1|].
      destruct (Ascii.eqb c "E") eqn:E2;
        [by apply Ascii.eqb_eq in E2|]. done. }
    destruct c as [[] [] [] [] [] [] [] []]; try done;
      simpl; by rewrite Hexp. }
  split; [exact Hnum|].
  unfold detectType, isNaN. rewrite Hnum, Hpf, of_Z_not_nan. reflexivity.
Qed.

Lemma prefixed_literal_is_stored_as_zero_witness :
  StringToNumber "0x1F" = of_Z 31
  ∧ detectType "0x1F" = (VNum (S754_zero false), Some TNumber).
Proof.
  apply (prefixed_literal_is_stored_as_zero "0x1F" 16%N "1F");
    reflexivity.
Defined.

(** ** The fields of a line *)

Lemma contains_char_cons x c s :
  contains_char x (String c s) = Ascii.eqb x c || contains_char x s.
Proof.
  unfold contains_char. cbn [includes startsWith].
  by destruct (Ascii.eqb x c).
Qed.

Lemma contains_char_trimStart x s :
  contains_char x s = false → contains_char x (trimStart s) = false.
Proof.
  induction s as [|c s IH]; [done|]. cbn [trimStart].
  destruct (is_ws c); [|done].
  rewrite contains_char_cons. intros [_ H]%orb_false_iff. auto.
Qed.

Lemma contains_char_trimEnd x s :
  contains_char x s = false → contains_char x (trimEnd s) = false.
Proof.
  induction s as [|c s IH]; [done|]. cbn [trimEnd].
  rewrite contains_char_cons. intros [Hc H]%orb_false_iff.
  destruct (is_ws c && is_empty (trimEnd s)); [done|].
  rewrite contains_char_cons, Hc. auto.
Qed.

Lemma contains_char_remove_char x y s :
  contains_char x (remove_char y s)
    = contains_char x s && negb (Ascii.eqb x y).
Proof.
  induction s as [|c s IH]; [done|]. cbn [remove_char].
  destruct (Ascii.eqb c y) eqn:E.
  - apply Ascii.eqb_eq in E as ->. rewrite IH, contains_char_cons.
    by destruct (Ascii.eqb x y), (contains_char x s).
  - rewrite !contains_char_cons, IH.
    destruct (Ascii.eqb x c) eqn:E'; [|done].
    apply Ascii.eqb_eq in E' as ->. by rewrite E.
Qed.

Lemma split_no_separator sep s :
  Forall (fun f => contains_char sep f = false) (split sep s).
Proof.
  induction s as [|c s IH]; [by repeat constructor|].
  cbn [split]. destruct (Ascii.eqb c sep) eqn:E.
  - by constructor.
  - destruct (split sep s) as [|w ws].
    + repeat constructor.
      rewrite contains_char_cons, Ascii.eqb_sym. by rewrite E.
    + inversion IH as [|? ? Hw Hws]; subst. constructor; [|done].
      rewrite contains_char_cons, Hw, Ascii.eqb_sym. by rewrite E.
Qed.

Lemma split_length sep s :
  length (split sep s)
    = S (length (filter (fun c => c = sep) (list_ascii_of_string s))).
Proof.
  induction s as [|c s IH]; [done|].
  cbn [split list_ascii_of_string]. rewrite filter_cons.
  destruct (Ascii.eqb c sep) eqn:E.
  - apply Ascii.eqb_eq in E as ->. rewrite decide_True by done.
    simpl. by rewrite IH.
  - apply Ascii.eqb_neq in E. rewrite decide_False by done.
    destruct (split sep s); [done|]. by rewrite <- IH.
Qed.

(** A line is cut at every comma, inside double quotes as well: there is
    one field more than the line has commas, and no field holds a comma or
    a double quote. *)
Theorem line_is_cut_at_every_comma :
  ∀ line,
    length (csv_fields line)
      = S (length (filter (fun c => c = ","%char)
                          (list_ascii_of_string line)))
    ∧ Forall (fun f => contains_char "," f = false
                       ∧ contains_char dquote f = false)
             (csv_fields line).
Proof.
  intros line. unfold csv_fields. split.
  - by rewrite length_map, split_length.
  - change (map ?f ?l) with (f <$> l). apply Forall_fmap.
    eapply Forall_impl; [apply (split_no_separator "," line)|].
    intros f Hf. simpl. rewrite !contains_char_remove_char.
    split; [|by rewrite Ascii.eqb_refl, andb_false_r].
    unfold trim.
    by rewrite contains_char_trimEnd by (by apply contains_char_trimStart).
Qed.

(** ** White space at the end of a line *)

Lemma trimEnd_ws w : all_chars is_ws w = true → trimEnd w = "".
Proof.
  induction w as [|c w IH]; [done|]. simpl.
  intros [Hc Hw]%andb_true_iff. by rewrite IH, Hc.
Qed.

Lemma trimStart_ws w : all_chars is_ws w = true → trimStart w = "".
Proof.
  induction w as [|c w IH]; [done|]. simpl.
  intros [Hc Hw]%andb_true_iff. rewrite Hc. auto.
Qed.

Lemma trimEnd_app_ws s w :
  all_chars is_ws w = true → trimEnd (s ++ w) = trimEnd s.
Proof.
  intros Hw. induction s as [|c s IH]; [by apply trimEnd_ws|].
  rewrite string_app_cons. cbn [trimEnd]. by rewrite IH.
Qed.

Lemma trim_app_ws s w :
  all_chars is_ws w = true → trim (s ++ w) = trim s.
Proof.
  intros Hw. unfold trim. induction s as [|c s IH].
  - change ("" ++ w)%string with w. by rewrite trimStart_ws.
  - rewrite string_app_cons. cbn [trimStart].
    destruct (is_ws c); [exact IH|].
    rewrite <- string_app_cons. by apply trimEnd_app_ws.
Qed.

Lemma split_ws w : all_chars is_ws w = true → split "," w = [w].
Proof.
  induction w as [|c w IH]; [done|]. simpl.
  intros [Hc Hw]%andb_true_iff. rewrite IH by done.
  destruct (Ascii.eqb c ",") eqn:E; [|done].
  apply Ascii.eqb_eq in E as ->. done.
Qed.

Lemma split_nonempty sep s : split sep s ≠ [].
Proof.
  destruct s as [|c s]; [done|]. cbn [split].
  destruct (Ascii.eqb c sep); [done|]. by destruct (split sep s).
Qed.

Lemma split_app_last sep s w init last :
  split sep w = [w] →
  split sep s = (init ++ [last])%list →
  split sep (s ++ w) = (init ++ [(last ++ w)%string])%list.
Proof.
  intros Hw. revert init last.
  induction s as [|c s IH]; intros init last Hs.
  - destruct init as [|? [|? ?]]; simplify_eq/=. done.
  - rewrite string_app_cons. cbn [split] in *.
    destruct (Ascii.eqb c sep).
    + destruct init as [|i0 init].
      * simpl in Hs. injection Hs as _ Hs. by apply split_nonempty in Hs.
      * simpl in Hs. injection Hs as <- Hs. by rewrite (IH init last).
    + destruct (split sep s) as [|w0 ws] eqn:Hsp.
      * by apply split_nonempty in Hsp.
      * destruct init as [|i0 init]; simpl in Hs.
        -- injection Hs as <- ->. by rewrite (IH [] w0).
        -- injection Hs as <- ->. by rewrite (IH (w0 :: init) last).
Qed.

Lemma split_snoc sep s : ∃ init last, split sep s = (init ++ [last])%list.
Proof.
  destruct (split sep s) as [|w ws] eqn:E using rev_ind.
  - by apply split_nonempty in E.
  - eauto.
Qed.

Lemma csv_fields_app_ws line w :
  all_chars is_ws w = true → csv_fields (line ++ w) = csv_fields line.
Proof.
  intros Hw. unfold csv_fields.
  destruct (split_snoc "," line) as (init & last & Hs).
  rewrite (split_app_last "," line w init last (split_ws w Hw) Hs), Hs.
  rewrite !map_app. simpl. by rewrite trim_app_ws.
Qed.

(** White space at the end of the lines, such as the carriage return of a
    file with Windows line ends, changes neither which lines count as empty
    nor the records and columns read. *)
Theorem white_space_at_line_end_is_ignored :
  ∀ w header_line data_lines,
    all_chars is_ws w = true →
    parse_csv (header_line ++ w) ((fun line => line ++ w)%string <$> data_lines)
      = parse_csv header_line data_lines
    ∧ ∀ line, trim (line ++ w) = trim line.
Proof.
  intros w header_line data_lines Hw. split.
  - unfold parse_csv. rewrite csv_fields_app_ws by done.
    apply map_rows_ext. apply Forall2_fmap_l, Forall_Forall2_diag.
    apply Forall_forall. intros line _ j _. unfold csv_cell.
    by rewrite csv_fields_app_ws.
  - intros line. by apply trim_app_ws.
Qed.

Lemma white_space_at_line_end_is_ignored_witness :
  let cr := String (ascii_of_N 13) "" in
  parse_csv ("A,B" ++ cr) ["1,x" ++ cr; "2,y" ++ cr]
    = parse_csv "A,B" ["1,x"; "2,y"].
Proof.
  apply (white_space_at_line_end_is_ignored
           (String (ascii_of_N 13) "") "A,B" ["1,x"; "2,y"]).
  reflexivity.
Defined.

(** ** The kind of an uploaded file *)

Lemma split_app_sep sep base ext :
  split sep (base ++ String sep ext)
    = (split sep base ++ split sep ext)%list.
Proof.
  induction base as [|c base IH].
  - change ("" ++ String sep ext)%string with (String sep ext).
    cbn [split]. by rewrite Ascii.eqb_refl.
  - rewrite string_app_cons. cbn [split]. rewrite IH.
    destruct (Ascii.eqb c sep); [done|].
    pose proof (split_nonempty sep base) as Hne.
    by destruct (split sep base).
Qed.

Lemma split_without_separator sep s :
  contains_char sep s = false → split sep s = [s].
Proof.
  induction s as [|c s IH]; [done|].
  rewrite contains_char_cons. intros [Hc Hs]%orb_false_iff.
  cbn [split]. rewrite Ascii.eqb_sym, Hc, IH; done.
Qed.

(** The kind of a file is decided by the text after the last dot of its
    name, the whole name when it has no dot, whatever the case of its
    letters: [csv] is read as text, [xlsx] and [xls] as a spreadsheet, and
    anything else is refused with an alert and changes nothing. *)
Theorem file_kind_is_the_text_after_the_last_dot :
  ∀ random f st ext,
    (name f = ext ∨ ∃ base, name f = (base ++ String "." ext)%string) →
    contains_char "." ext = false →
    handleFileUpload random (Some f) st =
      if String.eqb (toLowerCase ext) "csv"
      then handleFileUpload_csv (text f) st
      else if String.eqb (toLowerCase ext) "xlsx"
              || String.eqb (toLowerCase ext) "xls"
      then handleFileUpload_excel random (decoded f) st
      else (st, [Alert
             "Please upload a CSV or Excel file (.csv, .xlsx, .xls)"]).
Proof.
  intros random f st ext Hname Hext. unfold handleFileUpload.
  assert (last (split "." (name f)) = Some ext) as ->; [|done].
  destruct Hname as [->|[base ->]].
  - by rewrite split_without_separator.
  - rewrite split_app_sep, (split_without_separator "." ext) by done.
    apply last_snoc.
Qed.

Lemma file_kind_is_the_text_after_the_last_dot_witness :
  handleFileUpload (fun _ => "x")
      (Some {| name := "report.v2.CSV"; text := scenario_text;
               decoded := Thrown |}) empty_state
    = handleFileUpload_csv scenario_text empty_state.
Proof.
  apply (file_kind_is_the_text_after_the_last_dot (fun _ => "x")
           {| name := "report.v2.CSV"; text := scenario_text;
              decoded := Thrown |} empty_state "CSV").
  - right. by exists "report.v2".
  - reflexivity.
Defined.

(** ** Sorting a column of equal cells *)

(** Sorting on a column whose cells are all strictly equal, in particular
    on a key that no record has, leaves the records in their order, in
    both directions. *)
Theorem sorting_equal_cells_keeps_the_order :
  ∀ (l : list record) k d,
    (∀ a b, a ∈ l → b ∈ l → strict_eq (get a k) (get b k) = true) →
    sortedData l (sort_by k d) = l.
Proof.
  intros l k d Heq. unfold sortedData, sort_by, active_key. simpl.
  destruct (is_empty k); [done|].
  rewrite <- (filter_Forall_id (fun _ : record => True)
                (sort (compareFn k d) l)) by (by apply Forall_true).
  rewrite (filter_sort (compareFn k d) (fun _ => True) l); [| |done].
  - by apply filter_Forall_id, Forall_true.
  - intros x y Hx Hy _ _.
    by rewrite (proj2 (compareFn_zero k d x y) (Heq x y Hx Hy)).
Qed.

Lemma sorting_equal_cells_keeps_the_order_witness :
  sortedData scenario_records (sort_by "price" desc) = scenario_records.
Proof.
  apply sorting_equal_cells_keeps_the_order.
  intros a b Ha Hb. unfold scenario_records in *.
  repeat (apply elem_of_cons in Ha as [->|Ha]);
    try (by apply elem_of_nil in Ha);
    repeat (apply elem_of_cons in Hb as [->|Hb]);
    try (by apply elem_of_nil in Hb); vm_compute; reflexivity.
Defined.

(** ** What is shown after a load *)

(** After a load that notifies nothing, and at mount, the table shows the
    first page of all the records in the order of the file (of the given
    data), with every column: nothing is filtered out, sorted or hidden. *)
Theorem loaded_table_shows_its_first_rows :
  ∀ random f st initialData initialColumns itemsPerPage,
    0 < itemsPerPage →
    (snd (handleFileUpload random (Some f) st) = [] →
     let st' := fst (handleFileUpload random (Some f) st) in
     sorted_of st' = data st'
     ∧ rows (query st' itemsPerPage)
         = take (Z.to_nat itemsPerPage) (data st')
     ∧ totalMatched (query st' itemsPerPage) = Z.of_nat (length (data st'))
     ∧ visibleColumnsArray (columns st') (visibleColumns st') = columns st')
    ∧ (let st0 := initial_state initialData initialColumns in
       sorted_of st0 = default [] initialData
       ∧ rows (query st0 itemsPerPage)
           = take (Z.to_nat itemsPerPage) (default [] initialData)
       ∧ visibleColumnsArray (columns st0) (visibleColumns st0)
           = default [] initialColumns).
Proof.
  intros random f st initialData initialColumns n Hn.
  assert (∀ l : list record,
            paginatedData l 1 n = take (Z.to_nat n) l) as Hpage.
  { intros l. rewrite paginatedData_chunk by lia. simpl. by rewrite drop_0. }
  split.
  - intros Hsilent.
    destruct (silent_load_is_an_update random f st Hsilent)
      as (newColumns & newData & ->).
    simpl. split; [done|]. split; [|split; [done|]].
    + unfold query. simpl. apply Hpage.
    + apply all_columns_visible.
  - simpl. split; [done|]. split.
    + unfold query. simpl. apply Hpage.
    + apply all_columns_visible.
Qed.

Lemma loaded_table_shows_its_first_rows_witness :
  let st' := fst (handleFileUpload (fun _ => "x")
                    (Some {| name := "t.csv"; text := scenario_text;
                             decoded := Thrown |}) empty_state) in
  rows (query st' 1) = take 1 (data st').
Proof.
  refine (proj1 (proj2 (proj1
            (loaded_table_shows_its_first_rows (fun _ => "x")
               {| name := "t.csv"; text := scenario_text;
                  decoded := Thrown |}
               empty_state None None 1 _) _))).
  - lia.
  - vm_compute. reflexivity.
Defined.

(** ** Export and load again *)

Lemma contains_char_app x a b :
  contains_char x (a ++ b) = contains_char x a || contains_char x b.
Proof.
  induction a as [|c a IH]; [done|].
  rewrite string_app_cons, !contains_char_cons, IH. by rewrite orb_assoc.
Qed.

Lemma remove_char_id x s :
  contains_char x s = false → remove_char x s = s.
Proof.
  induction s as [|c s IH]; [done|].
  rewrite contains_char_cons. intros [Hc Hs]%orb_false_iff.
  cbn [remove_char]. rewrite Ascii.eqb_sym, Hc. by rewrite IH.
Qed.

Lemma split_join sep fs :
  fs ≠ [] →
  Forall (fun f => contains_char sep f = false) fs →
  split sep (join (String sep "") fs) = fs.
Proof.
  induction fs as [|p [|q fs] IH]; intros Hne Hfs; [done|..].
  - apply split_without_separator. by inversion Hfs.
  - inversion Hfs as [|? ? Hp Hrest]; subst.
    change (join (String sep "") (p :: q :: fs))
      with (p ++ String sep (join (String sep "") (q :: fs)))%string.
    rewrite split_app_sep, IH by done.
    by rewrite split_without_separator.
Qed.

Lemma contains_char_join x sep fs :
  contains_char x sep = false →
  Forall (fun f => contains_char x f = false) fs →
  contains_char x (join sep fs) = false.
Proof.
  intros Hsep. induction fs as [|p [|q fs] IH]; intros Hfs; [done|..].
  - by inversion Hfs.
  - inversion Hfs as [|? ? Hp Hrest]; subst.
    change (join sep (p :: q :: fs))
      with (p ++ (sep ++ join sep (q :: fs)))%string.
    by rewrite !contains_char_app, Hp, Hsep, IH.
Qed.

Lemma contains_char_split x sep s :
  contains_char x s = false →
  Forall (fun f => contains_char x f = false) (split sep s).
Proof.
  induction s as [|c s IH]; [by repeat constructor|].
  rewrite contains_char_cons. intros [Hc Hs]%orb_false_iff.
  specialize (IH Hs). cbn [split].
  destruct (Ascii.eqb c sep); [by constructor|].
  destruct (split sep s) as [|w ws].
  - repeat constructor. by rewrite contains_char_cons, Hc.
  - inversion IH; subst. constructor; [|done].
    by rewrite contains_char_cons, Hc.
Qed.

Lemma trim_keeps_char x s :
  is_ws x = false → contains_char x s = true →
  contains_char x (trim s) = true.
Proof.
  intros Hx. unfold trim.
  assert (∀ t, contains_char x t = true →
               contains_char x (trimEnd t) = true) as Hend.
  { induction t as [|c t IH]; [done|].
    rewrite contains_char_cons. cbn [trimEnd]. intros H.
    destruct (Ascii.eqb x c) eqn:E.
    - apply Ascii.eqb_eq in E as <-. rewrite Hx. simpl.
      by rewrite contains_char_cons, Ascii.eqb_refl.
    - simpl in H. specialize (IH H).
      destruct (trimEnd t) as [|c' t'] eqn:Et; [done|].
      rewrite andb_false_r, contains_char_cons, IH. apply orb_true_r. }
  intros H. apply Hend. clear Hend.
  induction s as [|c s IH]; [done|]. cbn [trimStart].
  destruct (is_ws c) eqn:Hc; [|done].
  apply IH. rewrite contains_char_cons in H.
  destruct (Ascii.eqb x c) eqn:E; [|done].
  apply Ascii.eqb_eq in E as <-. congruence.
Qed.

Lemma join_two_has_separator sep fs :
  (2 ≤ length fs)%nat →
  contains_char sep (join (String sep "") fs) = true.
Proof.
  intros H. destruct fs as [|p [|q fs]]; [simpl in H; lia..|]. clear H.
  change (join (String sep "") (p :: q :: fs))
    with (p ++ String sep (join (String sep "") (q :: fs)))%string.
  rewrite contains_char_app, contains_char_cons, Ascii.eqb_refl.
  apply orb_true_r.
Qed.

(** Clean fields, joined by commas, are read back as they are. *)
Lemma csv_fields_join fs :
  fs ≠ [] →
  Forall (fun f => contains_char "," f = false
                   ∧ contains_char dquote f = false ∧ trim f = f) fs →
  csv_fields (join "," fs) = fs.
Proof.
  intros Hne Hfs. unfold csv_fields.
  rewrite split_join; [|done|].
  - change (map ?g ?l) with (g <$> l).
    rewrite <- (list_fmap_id fs) at 2. apply Forall_fmap_ext_1.
    eapply Forall_impl; [exact Hfs|].
    intros f (_ & Hq & Ht). simpl. rewrite Ht. by apply remove_char_id.
  - eapply Forall_impl; [exact Hfs|]. by intros f (? & _).
Qed.

(** Lines without line ends, none of them blank, joined by line ends, are
    read back as they are. *)
Lemma csv_lines_join ls :
  ls ≠ [] →
  Forall (fun l => contains_char newline l = false
                   ∧ is_empty (trim l) = false) ls →
  csv_lines (join (String newline "") ls) = ls.
Proof.
  intros Hne Hls. unfold csv_lines.
  rewrite split_join; [|done|].
  - apply filter_Forall_id. eapply Forall_impl; [exact Hls|].
    by intros l (_ & ?).
  - eapply Forall_impl; [exact Hls|]. by intros l (? & _).
Qed.

(** The fields of a line hold no comma and no double quote, and no line
    end when the line has none. *)
Lemma csv_cell_clean line j :
  contains_char newline line = false →
  contains_char "," (csv_cell line j) = false
  ∧ contains_char dquote (csv_cell line j) = false
  ∧ contains_char newline (csv_cell line j) = false.
Proof.
  intros Hnl. unfold csv_cell, csv_fields.
  change (map ?g ?l) with (g <$> l). rewrite list_lookup_fmap.
  destruct (split "," line !! j) as [f|] eqn:Hf; [|done]. simpl.
  pose proof (Forall_lookup_1 _ _ _ _ (split_no_separator "," line) Hf)
    as Hcomma.
  pose proof (Forall_lookup_1 _ _ _ _
                (contains_char_split newline "," line Hnl) Hf) as Hline.
  simpl in *. rewrite !contains_char_remove_char. unfold trim.
  rewrite (contains_char_trimEnd "," (trimStart f))
    by (by apply contains_char_trimStart).
  rewrite (contains_char_trimEnd newline (trimStart f))
    by (by apply contains_char_trimStart).
  by rewrite Ascii.eqb_refl, andb_false_r.
Qed.

Section cells_agree.
Context {R R' : Type} (cell : R -> nat -> string) (cell' : R' -> nat -> string).

(** Two passes give the same row and columns when their cells agree,
    or differ only under a header with the key [__proto__], which stores
    nothing, and write the same type. *)
Lemma forEach_header_agree (c c' : nat -> string) headers i row cols :
  (∀ j h, headers !! j = Some h →
     c (i + j)%nat = c' (i + j)%nat
     ∨ (column_key h = "__proto__"
        ∧ snd (detectType (c (i + j)%nat))
            = snd (detectType (c' (i + j)%nat)))) →
  forEach_header c i headers row cols = forEach_header c' i headers row cols.
Proof.
  revert i row cols.
  induction headers as [|h hs IH]; intros i row cols H; [done|].
  cbn [forEach_header].
  assert (∀ j h', hs !! j = Some h' →
            c (S i + j)%nat = c' (S i + j)%nat
            ∨ (column_key h' = "__proto__"
               ∧ snd (detectType (c (S i + j)%nat))
                   = snd (detectType (c' (S i + j)%nat)))) as H'.
  { intros j h' Hj. replace (S i + j)%nat with (i + S j)%nat by lia.
    by apply (H (S j) h'). }
  specialize (H 0%nat h eq_refl). rewrite Nat.add_0_r in H.
  destruct H as [->|[Hkey Ht]].
  - destruct (detectType (c' i)) as [v t]. by apply IH.
  - destruct (detectType (c i)) as [v t], (detectType (c' i)) as [v' t'].
    simpl in Ht. subst t'. rewrite Hkey.
    change (set_property "__proto__" v row) with row.
    change (set_property "__proto__" v' row) with row.
    by apply IH.
Qed.

Lemma map_rows_agree headers index rows rows' cols :
  Forall2 (fun r r' =>
             ∀ j h, headers !! j = Some h →
               cell r j = cell' r' j
               ∨ (column_key h = "__proto__"
                  ∧ snd (detectType (cell r j))
                      = snd (detectType (cell' r' j))))
          rows rows' →
  map_rows cell headers index rows cols
    = map_rows cell' headers index rows' cols.
Proof.
  intros H. revert index cols.
  induction H as [|r r' rows rows' Hr _ IH]; intros index cols; [done|].
  simpl. unfold build_row.
  rewrite (forEach_header_agree (cell r) (cell' r'))
    by (intros j h Hj; by apply Hr).
  destruct (forEach_header (cell' r') 0 headers _ cols) as [row cols1].
  by rewrite IH.
Qed.
End cells_agree.

Section round_trip.
Variables (header_line : string) (data_lines : list string).
#[local] Abbreviation hs := (csv_fields header_line).
#[local] Abbreviation records := (fst (parse_csv header_line data_lines)).
#[local] Abbreviation cols := (snd (parse_csv header_line data_lines)).
#[local] Abbreviation table := (updateTableData cols records).
#[local] Abbreviation exported line :=
  (imap (fun j col => if String.eqb (key col) "__proto__" then ""
                      else csv_cell line j) cols).

Hypothesis no_line_end :
  Forall (fun l => contains_char newline l = false)
         (header_line :: data_lines).
Hypothesis all_text : Forall (fun col => type col = TString) cols.
Hypothesis distinct_keys : NoDup (key <$> cols).
Hypothesis two_columns : (2 ≤ length cols)%nat.
Hypothesis labels_trimmed : Forall (fun col => trim (label col) = label col) cols.
Hypothesis cells_trimmed :
  Forall (fun item : record =>
            Forall (fun col => match get item (key col) with
                               | VStr s => trim s = s
                               | _ => True
                               end) cols) records.

Lemma round_trip_labels : label <$> cols = hs.
Proof.
  unfold parse_csv.
  destruct (map_rows_shape csv_cell (csv_fields header_line) 0 data_lines
              (map new_column (csv_fields header_line))) as (_ & _ & Hl & _).
  rewrite Hl. change (map new_column ?l) with (new_column <$> l).
  rewrite <- list_fmap_compose. apply list_fmap_id.
Qed.

Lemma round_trip_length : length cols = length hs.
Proof. by rewrite <- round_trip_labels, length_fmap. Qed.

(** No field of a data line is a number, a date or a currency amount. *)
Lemma round_trip_detect n line j col :
  data_lines !! n = Some line → cols !! j = Some col →
  detectType (csv_cell line j) = (VStr (csv_cell line j), None).
Proof.
  intros Hn Hcol.
  assert (type col = TString) as Hty
    by exact (Forall_lookup_1 _ _ _ _ all_text Hcol).
  apply detectType_None.
  pose proof (parse_csv_type _ _ _ _ Hcol) as Ht. rewrite Hty in Ht.
  symmetry in Ht. apply last_write_string in Ht.
  - rewrite Forall_fmap in Ht. exact (Forall_lookup_1 _ _ _ _ Ht Hn).
  - apply Forall_fmap, Forall_forall. intros l _.
    apply detectType_not_string.
Qed.

(** The record of line [n] holds under the key of column [j] the text of
    field [j] of the line, and nothing under the key [__proto__]. *)
Lemma round_trip_cell n line item j col :
  data_lines !! n = Some line → records !! n = Some item →
  cols !! j = Some col →
  get item (key col) =
    if String.eqb (key col) "__proto__" then VUndefined
    else VStr (csv_cell line j).
Proof.
  intros Hn Hitem Hcol.
  destruct (parse_csv_cell header_line data_lines j col n line Hcol)
    as (item' & Hi & Hv); [|exact Hn|].
  - intros j' col' Hcol' Hlt Heq.
    assert (j' = j); [|lia].
    apply (NoDup_lookup _ _ _ (key col) distinct_keys);
      rewrite list_lookup_fmap;
      [rewrite Hcol'; simpl; by rewrite Heq | by rewrite Hcol].
  - rewrite Hitem in Hi. injection Hi as <-.
    unfold get. rewrite Hv.
    destruct (String.eqb (key col) "__proto__"); [done|].
    by rewrite (round_trip_detect n line j col Hn Hcol).
Qed.

Lemma round_trip_exported_clean n line item :
  data_lines !! n = Some line → records !! n = Some item →
  Forall (fun f => contains_char "," f = false
                   ∧ contains_char dquote f = false
                   ∧ contains_char newline f = false ∧ trim f = f)
         (exported line).
Proof.
  intros Hn Hitem.
  assert (contains_char newline line = false) as Hnl.
  { apply Forall_cons in no_line_end as [_ H].
    exact (Forall_lookup_1 _ _ _ _ H Hn). }
  apply Forall_lookup. intros j f Hf.
  rewrite list_lookup_imap in Hf.
  destruct (cols !! j) as [col|] eqn:Hcol; [|done].
  simpl in Hf. injection Hf as <-.
  pose proof (Forall_lookup_1 _ _ _ _
                (Forall_lookup_1 _ _ _ _ cells_trimmed Hitem) Hcol) as Ht.
  simpl in Ht.
  rewrite (round_trip_cell n line item j col Hn Hitem Hcol) in Ht.
  destruct (String.eqb (key col) "__proto__"); [done|].
  destruct (csv_cell_clean line j Hnl) as (? & ? & ?). done.
Qed.

Lemma round_trip_row n line item :
  data_lines !! n = Some line → records !! n = Some item →
  contains_char newline (export_row cols item) = false
  ∧ is_empty (trim (export_row cols item)) = false
  ∧ ∀ j col, cols !! j = Some col →
      csv_cell (export_row cols item) j =
        if String.eqb (key col) "__proto__" then ""
        else csv_cell line j.
Proof.
  intros Hn Hitem.
  pose proof (round_trip_exported_clean n line item Hn Hitem) as Hclean.
  assert (map join_element (map (export_cell item) cols) = exported line)
    as Hcells.
  { change (map ?g ?l) with (g <$> l). rewrite <- list_fmap_compose.
    apply list_eq. intros j. rewrite list_lookup_fmap, list_lookup_imap.
    destruct (cols !! j) as [col|] eqn:Hcol; [|done]. simpl.
    f_equal. unfold export_cell.
    rewrite (round_trip_cell n line item j col Hn Hitem Hcol).
    rewrite decide_False
      by (rewrite (Forall_lookup_1 _ _ _ _ all_text Hcol); done).
    assert (exported line !! j
            = Some (if String.eqb (key col) "__proto__" then ""
                    else csv_cell line j)) as Hexp
      by (by rewrite list_lookup_imap, Hcol).
    pose proof (Forall_lookup_1 _ _ _ _ Hclean Hexp) as Hj. simpl in Hj.
    destruct (String.eqb (key col) "__proto__"); [done|].
    destruct Hj as (-> & -> & _). done. }
  unfold export_row, join_values. rewrite Hcells. split; [|split].
  - apply contains_char_join; [done|].
    eapply Forall_impl; [exact Hclean|]. by intros f (_ & _ & ? & _).
  - destruct (trim _) eqn:E; [|done].
    pose proof (trim_keeps_char "," (join "," (exported line)) eq_refl) as H.
    rewrite E in H. discriminate H.
    apply join_two_has_separator. by rewrite length_imap.
  - intros j col Hcol. unfold csv_cell at 1.
    rewrite csv_fields_join.
    + by rewrite list_lookup_imap, Hcol.
    + intros H%(f_equal length). rewrite length_imap in H.
      simpl in H. lia.
    + eapply Forall_impl; [exact Hclean|]. by intros f (? & ? & _ & ?).
Qed.

Lemma round_trip_header :
  contains_char newline (join "," (map label cols)) = false
  ∧ is_empty (trim (join "," (map label cols))) = false
  ∧ csv_fields (join "," (map label cols)) = hs.
Proof.
  change (map label cols) with (label <$> cols).
  assert (contains_char newline header_line = false) as Hnl
    by (by apply Forall_cons in no_line_end as [? _]).
  assert (Forall (fun f => contains_char "," f = false
                           ∧ contains_char dquote f = false
                           ∧ contains_char newline f = false
                           ∧ trim f = f) (label <$> cols)) as Hclean.
  { apply Forall_fmap, Forall_lookup. intros j col Hcol. simpl.
    assert (hs !! j = Some (label col)) as Hh
      by (by rewrite <- round_trip_labels, list_lookup_fmap, Hcol).
    assert (csv_cell header_line j = label col) as <-
      by (unfold csv_cell; by rewrite Hh).
    destruct (csv_cell_clean header_line j Hnl) as (? & ? & ?).
    repeat split; try done.
    assert (csv_cell header_line j = label col) as ->
      by (unfold csv_cell; by rewrite Hh).
    exact (Forall_lookup_1 _ _ _ _ labels_trimmed Hcol). }
  split; [|split].
  - apply contains_char_join; [done|].
    eapply Forall_impl; [exact Hclean|]. by intros f (_ & _ & ? & _).
  - destruct (trim _) eqn:E; [|done].
    pose proof (trim_keeps_char "," (join "," (label <$> cols)) eq_refl) as H.
    rewrite E in H. discriminate H.
    apply join_two_has_separator. by rewrite length_fmap.
  - rewrite csv_fields_join.
    + apply round_trip_labels.
    + intros H%(f_equal length). rewrite length_fmap in H.
      simpl in H. lia.
    + eapply Forall_impl; [exact Hclean|]. by intros f (? & ? & _ & ?).
Qed.

Lemma round_trip_visible :
  visibleColumnsArray (columns table) (visibleColumns table) = cols.
Proof. apply all_columns_visible. Qed.

Lemma round_trip_export st :
  handleFileUpload_csv (downloadAsExcel table) st = (table, []).
Proof.
  unfold downloadAsExcel. rewrite round_trip_visible.
  change (sortedData (filteredData (data table) (globalFilter table))
            (sortConfig table)) with records.
  destruct round_trip_header as (Hh1 & Hh2 & Hh3).
  assert (length records = length data_lines) as Hlen.
  { unfold parse_csv. apply map_rows_length. }
  unfold handleFileUpload_csv. rewrite csv_lines_join; [|done|].
  - unfold parse_csv at 1. rewrite Hh3.
    rewrite (map_rows_agree csv_cell csv_cell hs 0
               (map (export_row cols) records) data_lines).
    + change (map_rows csv_cell hs 0 data_lines (map new_column hs))
        with (parse_csv header_line data_lines).
      by destruct (parse_csv header_line data_lines).
    + change (map ?g ?l) with (g <$> l).
      apply Forall2_fmap_l, Forall2_same_length_lookup. split; [done|].
      intros n item line Hitem Hn. simpl. intros j h Hj.
      destruct (round_trip_row n line item Hn Hitem) as (_ & _ & H).
      destruct (lookup_lt_is_Some_2 cols j) as [col Hcol].
      { rewrite round_trip_length. by apply lookup_lt_Some in Hj. }
      assert (key col = column_key h) as Hkey.
      { pose proof (parse_csv_keys header_line data_lines) as Hkeys.
        apply (f_equal (fun l => l !! j)) in Hkeys.
        rewrite !list_lookup_fmap, Hcol, Hj in Hkeys. simpl in Hkeys.
        congruence. }
      rewrite (H j col Hcol), <- Hkey.
      destruct (String.eqb (key col) "__proto__") eqn:E; [|by left].
      right. split; [by apply String.eqb_eq|].
      by rewrite (round_trip_detect n line j col Hn Hcol).
  - constructor; [done|].
    change (map ?g ?l) with (g <$> l).
    apply Forall_fmap, Forall_lookup. intros n item Hitem. simpl.
    destruct (lookup_lt_is_Some_2 data_lines n) as [line Hn].
    { rewrite <- Hlen. by apply lookup_lt_Some in Hitem. }
    destruct (round_trip_row n line item Hn Hitem) as (? & ? & _). done.
Qed.
End round_trip.

(** A table of text read from a CSV file is read back unchanged from its
    own export: when all columns have the type [string], distinct keys and
    trimmed labels, there are at least two of them, and the text in the
    records is trimmed, loading the exported text gives the same records
    and columns, and notifies nothing. *)
Theorem text_table_is_read_back_from_its_export :
  ∀ text st st0,
    snd (handleFileUpload_csv text st) = [] →
    let st' := fst (handleFileUpload_csv text st) in
    Forall (fun col => type col = TString) (columns st') →
    NoDup (key <$> columns st') →
    (2 ≤ length (columns st'))%nat →
    Forall (fun col => trim (label col) = label col) (columns st') →
    Forall (fun item : record =>
              Forall (fun col => match get item (key col) with
                                 | VStr s => trim s = s
                                 | _ => True
                                 end) (columns st')) (data st') →
    handleFileUpload_csv (downloadAsExcel st') st0 = (st', []).
Proof.
  intros text st st0. unfold handleFileUpload_csv at 1 2.
  pose proof (split_no_separator newline text) as Hsplit.
  assert (Forall (fun l => contains_char newline l = false)
                 (csv_lines text)) as Hlines.
  { unfold csv_lines. apply Forall_forall.
    intros l [_ Hl]%list_elem_of_filter.
    rewrite Forall_forall in Hsplit. by apply Hsplit. }
  destruct (csv_lines text) as [|header_line data_lines]; [done|].
  destruct (parse_csv header_line data_lines) as [newData newColumns] eqn:Hp.
  intros _. simpl.
  intros Htext Hkeys Htwo Hlabels Hcells.
  pose proof (round_trip_export header_line data_lines) as H.
  rewrite Hp in H. simpl in H. by apply H.
Qed.

Lemma text_table_is_read_back_from_its_export_witness :
  let text := ("Name,Town" ++ nl ++ "Ann,Oslo" ++ nl ++ "Bo,")%string in
  let st' := fst (handleFileUpload_csv text empty_state) in
  handleFileUpload_csv (downloadAsExcel st') empty_state = (st', []).
Proof.
  apply (text_table_is_read_back_from_its_export
           ("Name,Town" ++ nl ++ "Ann,Oslo" ++ nl ++ "Bo,")%string
           empty_state empty_state).
  - reflexivity.
  - vm_compute. repeat constructor.
  - vm_compute. apply NoDup_cons. split; [|apply NoDup_singleton].
    intros H%list_elem_of_singleton. discriminate H.
  - vm_compute. lia.
  - match goal with |- Forall ?P ?l =>
      let l' := eval vm_compute in l in change (Forall P l')
    end.
    repeat first [ apply Forall_nil_2 | apply Forall_cons_2 ]; reflexivity.
  - match goal with |- Forall ?P ?l =>
      let l' := eval vm_compute in l in change (Forall P l')
    end.
    repeat first [ apply Forall_nil_2 | apply Forall_cons_2 ];
      vm_compute; reflexivity.
Defined.
